(** * CasOC transcription: a shallow embedding of CasOCTranscription.cpp

    The development follows the source file function by function:
    [createVariablesAndSetBounds], [transcribe], [setObjective], [solve],
    [printConstraintValues] (with its local lambdas [updateMaxNameLength],
    [print_bounds], [printParameterBounds], [calcL1Norm]),
    [createInitialGuessFromBounds] and [evalOnTrajectory].

    - C++ exceptions are values of the error monad [Exc].
    - A CasADi matrix ([casadi::MX], [casadi::DM]) is a dense column-major
      table [Mat]: a row count and the list of its columns.
    - The entries of a [casadi::MX] are kept abstract (class [Symbolic]): the
      transcription only moves symbolic expressions around and combines them
      with [+], [-], [*] and [sq].  The entries of a [casadi::DM] are an
      abstract numeric type (class [Numeric]) with the comparisons the
      source uses.
    - [int] counters are integers of [Z].  The products and sums that make
      [m_numConstraints] are 32-bit [int] operations: signed overflow is
      undefined in C++, the compiled code wraps in two's complement, and so
      does the model ([toInt], [int_add], [int_mul]).  The sizes of the
      vectors (mesh, grid) fit in an [int], so that the differences
      [M - 1] and [G - M] cannot overflow. *)

From Stdlib Require Import String DecimalString.
From Stdlib Require Import List ZArith Lia Bool Arith PeanoNat Ring Sorted.
Import ListNotations.

Set Implicit Arguments.

Open Scope string_scope.
Open Scope list_scope.
Open Scope nat_scope.

(* ================================================================== *)
(** ** Exceptions *)

Inductive Exception : Type :=
| OpenSimException (msg : string)   (* OPENSIM_THROW, OPENSIM_THROW_IF *)
| CasadiException (msg : string)    (* raised inside CasADi *)
| StdOutOfRange (msg : string).     (* std::map::at, std::vector::at *)

Definition Exc (A : Type) : Type := (Exception + A)%type.

Definition ret {A} (a : A) : Exc A := inr a.
Definition throw {A} (e : Exception) : Exc A := inl e.
Definition bind {A B} (m : Exc A) (k : A -> Exc B) : Exc B :=
  match m with
  | inl e => inl e
  | inr a => k a
  end.

Declare Scope exc_scope.
Delimit Scope exc_scope with exc.
Notation "x <- m ;; k" := (bind m (fun x => k))
  (at level 61, m at next level, right associativity) : exc_scope.
Notation "' p <- m ;; k" := (bind m (fun x => match x with p => k end))
  (at level 61, p pattern, m at next level, right associativity) : exc_scope.
Open Scope exc_scope.

Fixpoint mapM {A B} (f : A -> Exc B) (l : list A) : Exc (list B) :=
  match l with
  | [] => ret []
  | a :: l' => b <- f a ;; bs <- mapM f l' ;; ret (b :: bs)
  end.

Definition succeeds {A} (m : Exc A) : bool :=
  match m with inr _ => true | inl _ => false end.

(* ================================================================== *)
(** ** Dense matrices *)

Record Mat (T : Type) : Type := mkMat { size1 : nat; cols : list (list T) }.

Section Matrix.
Context {T : Type}.
Implicit Types (m : Mat T) (c v : list T) (idx : list nat).

Definition size2 m : nat := length (cols m).
Definition numel m : nat := size1 m * size2 m.
Definition column m (j : nat) : list T := nth j (cols m) [].

(** Every column has [size1] entries. *)
Definition wf m : Prop := Forall (fun c => length c = size1 m) (cols m).

(** The default-constructed matrix is 0-by-0. *)
Definition emptyMat : Mat T := mkMat 0 [].

Definition fill (x : T) (r c : nat) : Mat T := mkMat r (repeat (repeat x r) c).

(** [hasShape m r c]: [m] is a well-formed [r]-by-[c] table. *)
Definition hasShape m (r c : nat) : bool :=
  (size1 m =? r) && (size2 m =? c) && forallb (fun col => length col =? r) (cols m).

Definition inRange m idx : bool := forallb (fun j => j <? size2 m) idx.

(** [Slice()] over the columns. *)
Definition allCols m : list nat := seq 0 (size2 m).

Definition sliceRows (r0 r1 : nat) c : list T := firstn (r1 - r0) (skipn r0 c).
Definition setRows (r0 : nat) v c : list T :=
  firstn r0 c ++ v ++ skipn (r0 + length v) c.

Fixpoint replaceNth {A} (j : nat) (x : A) (l : list A) : list A :=
  match l, j with
  | [], _ => []
  | _ :: l', O => x :: l'
  | y :: l', S j' => y :: replaceNth j' x l'
  end.

(** [m(Slice(r0, r1), idx)] read: rows [r0..r1) of the columns listed in
    [idx], in the order of [idx]. *)
Definition getSub m (r0 r1 : nat) idx : Exc (Mat T) :=
  if (r0 <=? r1) && (r1 <=? size1 m) && inRange m idx
  then ret (mkMat (r1 - r0) (map (fun j => sliceRows r0 r1 (column m j)) idx))
  else throw (CasadiException "out of bounds").

(** The column assignments of [m(Slice(r0, r1), idx) = src], one after the
    other. *)
Fixpoint assignCols (r0 : nat) idx (src : list (list T)) (cs : list (list T))
  : list (list T) :=
  match idx, src with
  | j :: idx', v :: src' =>
      assignCols r0 idx' src' (replaceNth j (setRows r0 v (nth j cs [])) cs)
  | _, _ => cs
  end.

(** [m(Slice(r0, r1), idx) = src].  The source block must have exactly the
    shape of the selection (the broadcast of a 1-by-1 source is not
    modelled: the transcription never relies on it). *)
Definition setSub m (r0 r1 : nat) idx (src : Mat T) : Exc (Mat T) :=
  if (r0 <=? r1) && (r1 <=? size1 m) && inRange m idx then
    if hasShape src (r1 - r0) (length idx)
    then ret (mkMat (size1 m) (assignCols r0 idx (cols src) (cols m)))
    else throw (CasadiException "dimension mismatch")
  else throw (CasadiException "out of bounds").

(** [m.remove({}, cc)]: drops the columns whose index is listed in [cc]. *)
Fixpoint removeColsFrom (j : nat) (cc : list nat) (cs : list (list T)) : list (list T) :=
  match cs with
  | [] => []
  | c :: cs' =>
      if existsb (Nat.eqb j) cc then removeColsFrom (S j) cc cs'
      else c :: removeColsFrom (S j) cc cs'
  end.

Definition removeCols m (cc : list nat) : Exc (Mat T) :=
  if inRange m cc then ret (mkMat (size1 m) (removeColsFrom 0 cc (cols m)))
  else throw (CasadiException "out of bounds").

(** [repmat(m, 1, n)]. *)
Definition repmatCols m (n : nat) : Mat T :=
  mkMat (size1 m) (concat (repeat (cols m) n)).

(** [m.T()]. *)
Definition row_of m (i : nat) : list T :=
  flat_map (fun c => firstn 1 (skipn i c)) (cols m).
Definition transpose m : Mat T :=
  mkMat (size2 m) (map (row_of m) (seq 0 (size1 m))).

(** All entries, column after column. *)
Definition entries m : list T := concat (cols m).

(** [m(i, j)] for two scalar indices. *)
Definition entry m (i j : nat) : Exc T :=
  match nth_error (cols m) j with
  | Some c => match nth_error c i with
              | Some x => ret x
              | None => throw (CasadiException "out of bounds")
              end
  | None => throw (CasadiException "out of bounds")
  end.

(** [m(k)]: linear, column-major index. *)
Definition entryLin m (k : nat) : Exc T :=
  match nth_error (entries m) k with
  | Some x => ret x
  | None => throw (CasadiException "out of bounds")
  end.

(** [m.scalar()] of a 1-by-1 matrix. *)
Definition scalar m : Exc T :=
  match size1 m, cols m with
  | 1, [[x]] => ret x
  | _, _ => throw (CasadiException "not a scalar")
  end.

Definition ofScalar (x : T) : Mat T := mkMat 1 [[x]].
End Matrix.

Definition mapMat {A B} (f : A -> B) (m : Mat A) : Mat B :=
  mkMat (size1 m) (map (map f) (cols m)).

Fixpoint zipWith {A B C} (f : A -> B -> C) (l1 : list A) (l2 : list B) : list C :=
  match l1, l2 with
  | a :: l1', b :: l2' => f a b :: zipWith f l1' l2'
  | _, _ => []
  end.

(** Entry-wise binary operation of two equally shaped matrices. *)
Definition zipMat {A} (f : A -> A -> A) (a b : Mat A) : Exc (Mat A) :=
  if hasShape a (size1 a) (size2 a) && hasShape b (size1 a) (size2 a)
  then ret (mkMat (size1 a) (zipWith (zipWith f) (cols a) (cols b)))
  else throw (CasadiException "dimension mismatch").

(* ================================================================== *)
(** ** Scalars *)

(** The entries of a [casadi::DM] ([double]) with the operations the source
    applies to them. *)
Class Numeric (D : Type) : Type := {
  (* an integer literal *)
  dofZ : Z -> D;
  dadd : D -> D -> D;
  dsub : D -> D -> D;
  dmul : D -> D -> D;
  dabs : D -> D;
  deqb : D -> D -> bool;
  dleb : D -> D -> bool;
  dltb : D -> D -> bool;
  (* casadi::DM::norm_2 of a row *)
  dnorm2 : list D -> D
}.

(** The entries of a [casadi::MX]: symbolic expressions over named
    primitives and numeric constants. *)
Class Symbolic (D E : Type) : Type := {
  (* a DM entry used inside an expression *)
  econst : D -> E;
  (* entry (i, j) of MX::sym(name, r, c) *)
  esym : string -> nat -> nat -> E;
  eadd : E -> E -> E;
  esub : E -> E -> E;
  emul : E -> E -> E;
  (* MX::sq *)
  esq : E -> E
}.

Definition d0 {D} {num : Numeric D} : D := dofZ 0.
Definition d1 {D} {num : Numeric D} : D := dofZ 1.

Section MatrixArithmetic.
Context {D E : Type} {num : Numeric D} {sym : Symbolic D E}.

Definition ezero : E := econst d0.

(** [MX(r, c)]: all entries are (structural) zeros. *)
Definition MX_zeros (r c : nat) : Mat E := fill ezero r c.
(** [DM(r, c)], [DM::zeros(r, c)]. *)
Definition DM_zeros (r c : nat) : Mat D := fill d0 r c.
(** [MX::sym(name, r, c)]. *)
Definition MX_sym (name : string) (r c : nat) : Mat E :=
  mkMat r (map (fun j => map (fun i => esym name i j) (seq 0 r)) (seq 0 c)).
(** The implicit conversion of a [DM] to an [MX]. *)
Definition toMX (m : Mat D) : Mat E := mapMat econst m.

Definition madd (a b : Mat E) : Exc (Mat E) := zipMat eadd a b.
Definition msq (a : Mat E) : Mat E := mapMat esq a.
(** [w * m] for a scalar [w]. *)
Definition mscale (w : E) (a : Mat E) : Mat E := mapMat (emul w) a.

Definition esum (l : list E) : E := fold_right eadd ezero l.

(** [MX::sum1]: the sum of each column, a row vector. *)
Definition sum1 (a : Mat E) : Mat E := mkMat 1 (map (fun c => [esum c]) (cols a)).

(** [dot(a, b)]: the sum of the products of corresponding entries of two
    equally shaped matrices. *)
Definition dot (a b : Mat E) : Exc E :=
  if hasShape a (size1 a) (size2 a) && hasShape b (size1 a) (size2 a)
  then ret (esum (zipWith emul (entries a) (entries b)))
  else throw (CasadiException "dimension mismatch").
End MatrixArithmetic.

(* ================================================================== *)
(** ** Data model *)

(** [enum Var]: the keys of the variable blocks; [multibody_states] only
    names an input of a point function. *)
Inductive Var : Type :=
| initial_time | final_time | states | controls | multipliers
| derivatives | parameters | slacks | multibody_states.

Definition Var_eqb (a b : Var) : bool :=
  match a, b with
  | initial_time, initial_time | final_time, final_time | states, states
  | controls, controls | multipliers, multipliers | derivatives, derivatives
  | parameters, parameters | slacks, slacks
  | multibody_states, multibody_states => true
  | _, _ => false
  end.

(** [std::unordered_map<Var, T>]. *)
Definition Variables (T : Type) : Type := Var -> option T.

Definition vempty {T} : Variables T := fun _ => None.
(** [m[k] = x]. *)
Definition vset {T} (m : Variables T) (k : Var) (x : T) : Variables T :=
  fun k' => if Var_eqb k k' then Some x else m k'.
(** [m.at(k)]. *)
Definition vat {T} (m : Variables T) (k : Var) : Exc T :=
  match m k with
  | Some x => ret x
  | None => throw (StdOutOfRange "map::at")
  end.

(** [std::vector::at]. *)
Definition vecAt {T} (l : list T) (i : nat) : Exc T :=
  match nth_error l i with
  | Some x => ret x
  | None => throw (StdOutOfRange "vector::at")
  end.

Record Bounds (D : Type) : Type := mkBounds { lower : D; upper : D }.

Record ValueInfo (D : Type) : Type := mkValueInfo {
  name : string;
  bounds : Bounds D;
  initialBounds : Bounds D;
  finalBounds : Bounds D
}.

Record PathConstraintInfo (D F : Type) : Type := mkPathConstraintInfo {
  pc_name : string;
  pc_size : nat;
  lowerBounds : Mat D;
  upperBounds : Mat D;
  pc_function : F
}.

(** Modelled from the spec: the Problem interface of spec section 4.1 (its
    class is declared outside CasOCTranscription.cpp).  [F] is the type of
    point-function handles ([casadi::Function]). *)
Record Problem (D F : Type) : Type := mkProblem {
  getNumCoordinates : nat;
  getNumSpeeds : nat;
  getNumStates : nat;
  getNumControls : nat;
  getNumMultipliers : nat;
  getNumDerivatives : nat;
  getNumSlacks : nat;
  getNumParameters : nat;
  getNumKinematicConstraintEquations : nat;
  getEnforceConstraintDerivatives : bool;
  getTimeInitialBounds : Bounds D;
  getTimeFinalBounds : Bounds D;
  getStateInfos : list (ValueInfo D);
  getControlInfos : list (ValueInfo D);
  getMultiplierInfos : list (ValueInfo D);
  getSlackInfos : list (ValueInfo D);
  getParameterInfos : list (ValueInfo D);
  getKinematicConstraintBounds : Bounds D;
  getPathConstraintInfos : list (PathConstraintInfo D F);
  getMultibodySystem : F;
  getMultibodySystemIgnoringConstraints : F;
  getImplicitMultibodySystem : F;
  getImplicitMultibodySystemIgnoringConstraints : F;
  getVelocityCorrection : F;
  getIntegralCostIntegrand : F;
  getEndpointCost : F
}.

(** [casadi::GenericType] and [casadi::Dict]. *)
#[warnings="-register-all"]
Inductive GenericType : Type :=
| GBool (b : bool)
| GInt (z : Z)
| GString (s : string)
| GDict (d : list (string * GenericType)).

Definition Dict : Type := list (string * GenericType).

Fixpoint dictFind (d : Dict) (k : string) : option GenericType :=
  match d with
  | [] => None
  | (k', v) :: d' => if String.eqb k k' then Some v else dictFind d' k
  end.

(** [d.at(k)]. *)
Definition dictAt (d : Dict) (k : string) : Exc GenericType :=
  match dictFind d k with
  | Some v => ret v
  | None => throw (StdOutOfRange "map::at")
  end.

(** [d[k] = v]. *)
Fixpoint dictSet (d : Dict) (k : string) (v : GenericType) : Dict :=
  match d with
  | [] => [(k, v)]
  | (k', v') :: d' => if String.eqb k k' then (k, v) :: d' else (k', v') :: dictSet d' k v
  end.

(** The conversion of a [GenericType] to [bool]. *)
Definition to_bool (g : GenericType) : Exc bool :=
  match g with
  | GBool b => ret b
  | GInt z => ret (negb (z =? 0)%Z)
  | _ => throw (CasadiException "type mismatch")
  end.

(** Modelled from the spec: the solver configuration of spec section 6
    (its class is declared outside CasOCTranscription.cpp). *)
Record Solver (D : Type) : Type := mkSolver {
  getMesh : list D;
  isDynamicsModeImplicit : bool;
  getMinimizeLagrangeMultipliers : bool;
  getLagrangeMultiplierWeight : D;
  getParallelism : string * nat;
  getOptimSolver : string;
  getPluginOptions : Dict;
  getSolverOptions : Dict;
  getWriteSparsity : string
}.

Record Iterate (D : Type) : Type := mkIterate {
  variables : Variables (Mat D);
  times : Mat D;
  state_names : list string;
  control_names : list string;
  multiplier_names : list string;
  derivative_names : list string;
  slack_names : list string;
  parameter_names : list string
}.

Record Solution (D : Type) : Type := mkSolution {
  iterate :> Iterate D;
  objective : D;
  stats : Dict
}.

Record Constraints (M : Type) : Type := mkConstraints {
  defects : M;
  residuals : M;
  kinematic : M;
  path : list M
}.

(** The three index members of the Transcription object and any other
    object of the same type: [evalOnTrajectory] receives its time indices by
    reference and tells the objects apart by address. *)
Inductive TimeIndicesRef : Type :=
| ref_gridIndices                      (* &m_gridIndices *)
| ref_daeIndices                       (* &m_daeIndices *)
| ref_daeIndicesIgnoringConstraints    (* &m_daeIndicesIgnoringConstraints *)
| ref_other (value : list nat).        (* an object that is no member *)

(** The point functions of the Problem that [transcribe] maps over the
    trajectory. *)
Inductive PointFunction : Type :=
| MultibodySystem
| MultibodySystemIgnoringConstraints
| ImplicitMultibodySystem
| ImplicitMultibodySystemIgnoringConstraints
| VelocityCorrection
| IntegralCostIntegrand
| PathConstraint (ipc : nat).

(** One call of [evalOnTrajectory]: the function, its input tags and the
    index member it was given. *)
Definition EvalCall : Type := (PointFunction * list Var * TimeIndicesRef)%type.

(** The members of [CasOC::Transcription].  [m_duration] and [m_objective]
    are 1-by-1 [MX] values, kept as their entry.  [m_evalCalls] is not a
    member: it records the calls of [evalOnTrajectory] made so far. *)
Record Transcription (D E F : Type) : Type := mkTranscription {
  m_problem : Problem D F;
  m_solver : Solver D;
  m_numMeshPoints : Z;
  m_numGridPoints : Z;
  m_numMeshIntervals : Z;
  m_numPointsIgnoringConstraints : Z;
  m_numDefectsPerGridPoint : Z;
  m_numResiduals : Z;
  m_numConstraints : Z;
  m_grid : Mat D;
  m_vars : Variables (Mat E);
  m_duration : E;
  m_times : Mat E;
  m_paramsTrajGrid : Mat E;
  m_paramsTraj : Mat E;
  m_paramsTrajIgnoringConstraints : Mat E;
  m_kinematicConstraintIndices : Mat D;
  m_gridIndices : list nat;
  m_daeIndices : list nat;
  m_daeIndicesIgnoringConstraints : list nat;
  m_lowerBounds : Variables (Mat D);
  m_upperBounds : Variables (Mat D);
  m_xdot : Mat E;
  m_constraints : Constraints (Mat E);
  m_constraintsLowerBounds : Constraints (Mat D);
  m_constraintsUpperBounds : Constraints (Mat D);
  m_objective : E;
  m_evalCalls : list EvalCall
}.

(** Field updates of the Transcription object. *)
Section Setters.
Context {D E F : Type}.
Implicit Types (t : Transcription D E F).

Definition set_xdot t (x : Mat E) : Transcription D E F :=
  mkTranscription (m_problem t) (m_solver t) (m_numMeshPoints t) (m_numGridPoints t)
    (m_numMeshIntervals t) (m_numPointsIgnoringConstraints t) (m_numDefectsPerGridPoint t)
    (m_numResiduals t) (m_numConstraints t) (m_grid t) (m_vars t) (m_duration t) (m_times t)
    (m_paramsTrajGrid t) (m_paramsTraj t) (m_paramsTrajIgnoringConstraints t)
    (m_kinematicConstraintIndices t) (m_gridIndices t) (m_daeIndices t)
    (m_daeIndicesIgnoringConstraints t) (m_lowerBounds t) (m_upperBounds t)
    x (m_constraints t) (m_constraintsLowerBounds t) (m_constraintsUpperBounds t)
    (m_objective t) (m_evalCalls t).

Definition set_constraints t (c : Constraints (Mat E)) : Transcription D E F :=
  mkTranscription (m_problem t) (m_solver t) (m_numMeshPoints t) (m_numGridPoints t)
    (m_numMeshIntervals t) (m_numPointsIgnoringConstraints t) (m_numDefectsPerGridPoint t)
    (m_numResiduals t) (m_numConstraints t) (m_grid t) (m_vars t) (m_duration t) (m_times t)
    (m_paramsTrajGrid t) (m_paramsTraj t) (m_paramsTrajIgnoringConstraints t)
    (m_kinematicConstraintIndices t) (m_gridIndices t) (m_daeIndices t)
    (m_daeIndicesIgnoringConstraints t) (m_lowerBounds t) (m_upperBounds t)
    (m_xdot t) c (m_constraintsLowerBounds t) (m_constraintsUpperBounds t)
    (m_objective t) (m_evalCalls t).

Definition set_constraintsLowerBounds t (c : Constraints (Mat D)) : Transcription D E F :=
  mkTranscription (m_problem t) (m_solver t) (m_numMeshPoints t) (m_numGridPoints t)
    (m_numMeshIntervals t) (m_numPointsIgnoringConstraints t) (m_numDefectsPerGridPoint t)
    (m_numResiduals t) (m_numConstraints t) (m_grid t) (m_vars t) (m_duration t) (m_times t)
    (m_paramsTrajGrid t) (m_paramsTraj t) (m_paramsTrajIgnoringConstraints t)
    (m_kinematicConstraintIndices t) (m_gridIndices t) (m_daeIndices t)
    (m_daeIndicesIgnoringConstraints t) (m_lowerBounds t) (m_upperBounds t)
    (m_xdot t) (m_constraints t) c (m_constraintsUpperBounds t)
    (m_objective t) (m_evalCalls t).

Definition set_constraintsUpperBounds t (c : Constraints (Mat D)) : Transcription D E F :=
  mkTranscription (m_problem t) (m_solver t) (m_numMeshPoints t) (m_numGridPoints t)
    (m_numMeshIntervals t) (m_numPointsIgnoringConstraints t) (m_numDefectsPerGridPoint t)
    (m_numResiduals t) (m_numConstraints t) (m_grid t) (m_vars t) (m_duration t) (m_times t)
    (m_paramsTrajGrid t) (m_paramsTraj t) (m_paramsTrajIgnoringConstraints t)
    (m_kinematicConstraintIndices t) (m_gridIndices t) (m_daeIndices t)
    (m_daeIndicesIgnoringConstraints t) (m_lowerBounds t) (m_upperBounds t)
    (m_xdot t) (m_constraints t) (m_constraintsLowerBounds t) c
    (m_objective t) (m_evalCalls t).

Definition set_objective t (f : E) : Transcription D E F :=
  mkTranscription (m_problem t) (m_solver t) (m_numMeshPoints t) (m_numGridPoints t)
    (m_numMeshIntervals t) (m_numPointsIgnoringConstraints t) (m_numDefectsPerGridPoint t)
    (m_numResiduals t) (m_numConstraints t) (m_grid t) (m_vars t) (m_duration t) (m_times t)
    (m_paramsTrajGrid t) (m_paramsTraj t) (m_paramsTrajIgnoringConstraints t)
    (m_kinematicConstraintIndices t) (m_gridIndices t) (m_daeIndices t)
    (m_daeIndicesIgnoringConstraints t) (m_lowerBounds t) (m_upperBounds t)
    (m_xdot t) (m_constraints t) (m_constraintsLowerBounds t) (m_constraintsUpperBounds t)
    f (m_evalCalls t).

Definition add_evalCall t (c : EvalCall) : Transcription D E F :=
  mkTranscription (m_problem t) (m_solver t) (m_numMeshPoints t) (m_numGridPoints t)
    (m_numMeshIntervals t) (m_numPointsIgnoringConstraints t) (m_numDefectsPerGridPoint t)
    (m_numResiduals t) (m_numConstraints t) (m_grid t) (m_vars t) (m_duration t) (m_times t)
    (m_paramsTrajGrid t) (m_paramsTraj t) (m_paramsTrajIgnoringConstraints t)
    (m_kinematicConstraintIndices t) (m_gridIndices t) (m_daeIndices t)
    (m_daeIndicesIgnoringConstraints t) (m_lowerBounds t) (m_upperBounds t)
    (m_xdot t) (m_constraints t) (m_constraintsLowerBounds t) (m_constraintsUpperBounds t)
    (m_objective t) (m_evalCalls t ++ [c]).
End Setters.

Definition set_defects {M} (c : Constraints M) (x : M) : Constraints M :=
  mkConstraints x (residuals c) (kinematic c) (path c).
Definition set_residuals {M} (c : Constraints M) (x : M) : Constraints M :=
  mkConstraints (defects c) x (kinematic c) (path c).
Definition set_kinematic {M} (c : Constraints M) (x : M) : Constraints M :=
  mkConstraints (defects c) (residuals c) x (path c).
Definition set_path {M} (c : Constraints M) (x : list M) : Constraints M :=
  mkConstraints (defects c) (residuals c) (kinematic c) x.

(* ================================================================== *)
(** ** Collaborators *)

(** A row or column selector: an [int] (negative values count from the
    end), [Slice()] or [Slice(start, stop)]. *)
Inductive Index : Type :=
| At (i : Z)
| SliceAll
| SliceRange (start stop : Z).

(** The input of the NLP function and its result. *)
Record NlpInput (D : Type) : Type := mkNlpInput {
  x0 : Mat D; lbx : Mat D; ubx : Mat D; lbg : Mat D; ubg : Mat D
}.
Record NlpResult (D : Type) : Type := mkNlpResult {
  res_x : Mat D; res_f : Mat D; res_g : Mat D; res_stats : Dict
}.

(** Modelled from the spec: the scheme-specific part of a Transcription
    (spec sections 4.3, 4.6, 4.7 and 9), the virtual functions implemented by
    the scheme's subclass outside CasOCTranscription.cpp.  The quadrature
    coefficients and the kinematic-constraint mask depend on the mesh and on
    the collocation rule only, both fixed for one Transcription object;
    [calcDefects] reads the object and produces the defects block. *)
Class Scheme (D E F : Type) : Type := {
  createQuadratureCoefficients : Mat D;
  createKinematicConstraintIndices : Mat D;
  calcDefects : Transcription D E F -> Exc (Mat E)
}.

(** What CasOCTranscription.cpp calls and does not define: CasADi's function
    objects and NLP solver, and the helpers declared in the headers of
    Transcription, Problem and Iterate. *)
Class Collaborators (D E F : Type) : Type := {
  (* pointFunction.map(n, parallelism.first, parallelism.second) *)
  Function_map : F -> nat -> string -> nat -> F;
  (* f.call(mxIn, mxOut) on symbolic arguments *)
  Function_call : F -> list (Mat E) -> Exc (list (Mat E));
  (* casadi::Function(name, {x}, {g}).call({v}, out) on numbers *)
  Function_numeric : string -> list (Mat E) -> list (Mat E) -> list (Mat D) -> Exc (list (Mat D));
  (* casadi::nlpsol(name, solver, {x, f, g}, options), called on the bounds and the guess *)
  nlpsol : string -> string -> Mat E -> E -> Mat E -> Dict -> NlpInput D -> Exc (NlpResult D);
  (* the four sparsity files written for a prefix: their names *)
  writeSparsityFiles : string -> Mat E -> E -> Mat E -> Exc (list string);
  (* Transcription::setVariableBounds(var, rows, columns, bounds) on the two bound tables *)
  setVariableBounds : Var -> Index -> Index -> Bounds D ->
                      Variables (Mat D) * Variables (Mat D) ->
                      Exc (Variables (Mat D) * Variables (Mat D));
  flattenVariablesMX : Variables (Mat E) -> Mat E;
  flattenVariablesDM : Variables (Mat D) -> Mat D;
  flattenConstraintsMX : Constraints (Mat E) -> Mat E;
  flattenConstraintsDM : Constraints (Mat D) -> Mat D;
  expandVariables : Transcription D E F -> Mat D -> Exc (Variables (Mat D));
  expandConstraints : Transcription D E F -> Mat D -> Exc (Constraints (Mat D));
  (* Iterate::resample(newTimes) *)
  resample : Iterate D -> Mat D -> Exc (Iterate D);
  (* Problem::createIterate<Solution>(): the names, no values yet *)
  createIterate : Problem D F -> Iterate D
}.

(* ================================================================== *)
(** ** The transcription *)

Section TranscriptionCode.
Context {D E F : Type} {num : Numeric D} {sym : Symbolic D E}.
Context {scheme : Scheme D E F} {collab : Collaborators D E F}.

Local Abbreviation MX := (Mat E).
Local Abbreviation DM := (Mat D).
Local Abbreviation Transcription := (Transcription D E F).

(** [int] has 32 bits.  [toInt z] is the [int] congruent to [z] modulo
    2^32: what an [int] operation leaves when its exact result is [z]. *)
Definition int_min : Z := (- 2 ^ 31)%Z.
Definition int_max : Z := (2 ^ 31 - 1)%Z.
Definition toInt (z : Z) : Z := ((z + 2 ^ 31) mod 2 ^ 32 - 2 ^ 31)%Z.

(** [a + b] and [a * b] on [int]s. *)
Definition int_add (a b : Z) : Z := toInt (a + b).
Definition int_mul (a b : Z) : Z := toInt (a * b).

(** An [int] used as a matrix dimension. *)
Definition dim (z : Z) : Exc nat :=
  if (z <? 0)%Z then throw (CasadiException "negative dimension")
  else ret (Z.to_nat z).

(** Modelled from the spec: [createTimes] (declared in the header) maps the
    normalized grid to [t0 + (tf - t0) * tau] (spec section 4.3). *)
Definition createTimes (grid : DM) (t0 tf : E) : MX :=
  mapMat (fun tau => eadd t0 (emul (esub tf t0) (econst tau))) grid.

(** Modelled from the spec: [createTimes] on numbers; the two times must be
    scalars. *)
Definition createTimesDM (grid : DM) (t0 tf : DM) : Exc DM :=
  a <- scalar t0 ;;
  b <- scalar tf ;;
  ret (mapMat (fun tau => dadd a (dmul (dsub b a) tau)) grid).

(** The loop over [m_kinematicConstraintIndices] that fills
    [daeIndicesVector] and [daeIndicesIgnoringConstraintsVector]. *)
Fixpoint splitIndices (mask : DM) (range : list nat) (dae ign : list nat)
  : Exc (list nat * list nat) :=
  match range with
  | [] => ret (dae, ign)
  | i :: range' =>
      x <- entryLin mask i ;;
      if deqb x d1 then splitIndices mask range' (dae ++ [i]) ign
      else splitIndices mask range' dae (ign ++ [i])
  end.

(** [initializeBounds]: a zero table of the shape of every variable. *)
Definition initializeBounds (vars : Variables MX) : Variables DM :=
  fun k => option_map (fun v => DM_zeros (size1 v) (size2 v)) (vars k).

Definition BoundTables : Type := (Variables DM * Variables DM)%type.

(** The loops over the infos of the states, controls and multipliers: row
    [i] gets the regular bounds on the interior columns, then the initial
    bounds on the first and the final bounds on the last column. *)
Fixpoint setTrajectoryBounds (var : Var) (G : Z) (i : Z) (infos : list (ValueInfo D))
  (b : BoundTables) : Exc BoundTables :=
  match infos with
  | [] => ret b
  | info :: rest =>
      b <- setVariableBounds var (At i) (SliceRange 1 (G - 1)) (bounds info) b ;;
      b <- setVariableBounds var (At i) (At 0) (initialBounds info) b ;;
      b <- setVariableBounds var (At i) (At (-1)) (finalBounds info) b ;;
      setTrajectoryBounds var G (i + 1) rest b
  end.

(** The loops over the slack and the parameter infos. *)
Fixpoint setRowBounds (var : Var) (columns : Index) (i : Z) (infos : list (ValueInfo D))
  (b : BoundTables) : Exc BoundTables :=
  match infos with
  | [] => ret b
  | info :: rest =>
      b <- setVariableBounds var (At i) columns (bounds info) b ;;
      setRowBounds var columns (i + 1) rest b
  end.

Definition createVariablesAndSetBounds (problem : Problem D F) (solver : Solver D)
  (grid : DM) (numDefectsPerGridPoint : Z) : Exc Transcription :=
  (* Set the grid. *)
  let numMeshPoints := Z.of_nat (length (getMesh solver)) in
  let numGridPoints := Z.of_nat (numel grid) in
  let numMeshIntervals := (numMeshPoints - 1)%Z in
  let numPointsIgnoringConstraints := (numGridPoints - numMeshPoints)%Z in
  let numResiduals :=
    if isDynamicsModeImplicit solver then Z.of_nat (getNumSpeeds problem) else 0%Z in
  let numConstraints :=
    fold_left
      (fun n info => int_add n (int_mul (Z.of_nat (pc_size info)) numMeshPoints))
      (getPathConstraintInfos problem)
      (int_add
         (int_add (int_mul numDefectsPerGridPoint numMeshIntervals)
                  (int_mul numResiduals numGridPoints))
         (int_mul (Z.of_nat (getNumKinematicConstraintEquations problem))
                  numMeshPoints)) in
  let path0 : list MX := repeat emptyMat (length (getPathConstraintInfos problem)) in
  (* Create variables. *)
  G <- dim numGridPoints ;;
  M <- dim numMeshPoints ;;
  P <- dim numPointsIgnoringConstraints ;;
  let t0 := esym "initial_time" 0 0 in
  let tf := esym "final_time" 0 0 in
  let vars := vset vempty initial_time (ofScalar t0) in
  let vars := vset vars final_time (ofScalar tf) in
  let duration := esub tf t0 in
  let times := createTimes grid t0 tf in
  let vars := vset vars states (MX_sym "states" (getNumStates problem) G) in
  let vars := vset vars controls (MX_sym "controls" (getNumControls problem) G) in
  let vars := vset vars multipliers (MX_sym "multipliers" (getNumMultipliers problem) G) in
  let vars := vset vars derivatives (MX_sym "derivatives" (getNumDerivatives problem) G) in
  let vars := vset vars slacks (MX_sym "slacks" (getNumSlacks problem) P) in
  let params := MX_sym "parameters" (getNumParameters problem) 1 in
  let vars := vset vars parameters params in
  let mask := createKinematicConstraintIndices in
  '(daeIndicesVector, daeIndicesIgnoringConstraintsVector) <-
      splitIndices mask (seq 0 (size2 mask)) [] [] ;;
  (* Set variable bounds. *)
  let b := (initializeBounds vars, initializeBounds vars) in
  b <- setVariableBounds initial_time (At 0) (At 0) (getTimeInitialBounds problem) b ;;
  b <- setVariableBounds final_time (At 0) (At 0) (getTimeFinalBounds problem) b ;;
  b <- setTrajectoryBounds states numGridPoints 0 (getStateInfos problem) b ;;
  b <- setTrajectoryBounds controls numGridPoints 0 (getControlInfos problem) b ;;
  b <- setTrajectoryBounds multipliers numGridPoints 0 (getMultiplierInfos problem) b ;;
  b <- (if isDynamicsModeImplicit solver
        then setVariableBounds derivatives SliceAll SliceAll
               (mkBounds (dofZ (-1000)) (dofZ 1000)) b
        else ret b) ;;
  b <- setRowBounds slacks SliceAll 0 (getSlackInfos problem) b ;;
  b <- setRowBounds parameters (At 0) 0 (getParameterInfos problem) b ;;
  ret (mkTranscription problem solver
         numMeshPoints numGridPoints numMeshIntervals numPointsIgnoringConstraints
         numDefectsPerGridPoint numResiduals numConstraints
         grid vars duration times
         (repmatCols params G) (repmatCols params M) (repmatCols params P)
         mask (seq 0 G) daeIndicesVector daeIndicesIgnoringConstraintsVector
         (fst b) (snd b)
         emptyMat (mkConstraints emptyMat emptyMat emptyMat path0)
         (mkConstraints emptyMat emptyMat emptyMat [])
         (mkConstraints emptyMat emptyMat emptyMat [])
         ezero []).

(** The object a [TimeIndicesRef] refers to. *)
Definition deref (t : Transcription) (r : TimeIndicesRef) : list nat :=
  match r with
  | ref_gridIndices => m_gridIndices t
  | ref_daeIndices => m_daeIndices t
  | ref_daeIndicesIgnoringConstraints => m_daeIndicesIgnoringConstraints t
  | ref_other value => value
  end.

(** [m_times(timeIndices)]: linear indexing, the result is a row. *)
Definition timesAt (t : Transcription) (timeIndices : list nat) : Exc MX :=
  xs <- mapM (entryLin (m_times t)) timeIndices ;;
  ret (mkMat 1 (map (fun x => [x]) xs)).

(** One entry of [mxIn] for an input tag. *)
Definition trajectoryInput (t : Transcription) (timeIndices : list nat) (input : Var)
  : Exc MX :=
  match input with
  | multibody_states =>
      let NQ := getNumCoordinates (m_problem t) in
      let NU := getNumSpeeds (m_problem t) in
      s <- vat (m_vars t) states ;;
      getSub s 0 (NQ + NU) timeIndices
  | slacks => vat (m_vars t) slacks
  | _ =>
      v <- vat (m_vars t) input ;;
      getSub v 0 (size1 v) timeIndices
  end.

(** The choice of the parameters block by the address of [timeIndices]. *)
Definition paramsFor (t : Transcription) (r : TimeIndicesRef) : Exc MX :=
  match r with
  | ref_gridIndices => ret (m_paramsTrajGrid t)
  | ref_daeIndices => ret (m_paramsTraj t)
  | ref_daeIndicesIgnoringConstraints => ret (m_paramsTrajIgnoringConstraints t)
  | ref_other _ => throw (OpenSimException "Internal error.")
  end.

Definition evalOnTrajectory (t : Transcription) (pointFunction : F)
  (inputs : list Var) (r : TimeIndicesRef) : Exc (list MX) :=
  let timeIndices := deref t r in
  let parallelism := getParallelism (m_solver t) in
  let trajFunc :=
    Function_map pointFunction (length timeIndices) (fst parallelism) (snd parallelism) in
  (* Assemble input. *)
  time <- timesAt t timeIndices ;;
  ins <- mapM (trajectoryInput t timeIndices) inputs ;;
  params <- paramsFor t r ;;
  Function_call trajFunc (time :: ins ++ [params]).

(** [evalOnTrajectory], with the call recorded in [m_evalCalls]. *)
Definition evalRecorded (t : Transcription) (which : PointFunction) (pointFunction : F)
  (inputs : list Var) (r : TimeIndicesRef) : Exc (list MX * Transcription) :=
  out <- evalOnTrajectory t pointFunction inputs r ;;
  ret (out, add_evalCall t (which, inputs, r)).

(** [m(Slice(), -1)]: the last column. *)
Definition lastColumn (m : MX) : Exc MX :=
  if size2 m =? 0 then throw (CasadiException "out of bounds")
  else getSub m 0 (size1 m) [size2 m - 1].

(** The call of the endpoint cost in [setObjective]: the final time, the
    last columns of the states, controls, multipliers and derivatives, and
    the parameters; the cost is output 0, a scalar. *)
Definition endpointCostOf (t : Transcription) : Exc E :=
  tf <- vat (m_vars t) final_time ;;
  s <- vat (m_vars t) states ;;
  sf <- lastColumn s ;;
  c <- vat (m_vars t) controls ;;
  cf <- lastColumn c ;;
  m <- vat (m_vars t) multipliers ;;
  mf <- lastColumn m ;;
  w <- vat (m_vars t) derivatives ;;
  wf <- lastColumn w ;;
  p <- vat (m_vars t) parameters ;;
  endpointCostOut <- Function_call (getEndpointCost (m_problem t)) [tf; sf; cf; mf; wf; p] ;;
  endpointCostMX <- vecAt endpointCostOut 0 ;;
  scalar endpointCostMX.

(** The condition under which the multipliers are minimized. *)
Definition minimizesMultipliers (t : Transcription) : bool :=
  getMinimizeLagrangeMultipliers (m_solver t) &&
  negb (getNumMultipliers (m_problem t) =? 0).

Definition setObjective (t : Transcription) : Exc Transcription :=
  let quadCoeffs := createQuadratureCoefficients in
  '(out, t) <- evalRecorded t IntegralCostIntegrand
                 (getIntegralCostIntegrand (m_problem t))
                 [states; controls; multipliers; derivatives] ref_gridIndices ;;
  integrandTraj <- vecAt out 0 ;;
  (* Minimize Lagrange multipliers if specified by the solver. *)
  integrandTraj <-
    (if minimizesMultipliers t
     then
       mults <- vat (m_vars t) multipliers ;;
       let multiplierWeight := getLagrangeMultiplierWeight (m_solver t) in
       (* Sum across constraints of each multiplier element squared. *)
       madd integrandTraj (mscale (econst multiplierWeight) (sum1 (msq mults)))
     else ret integrandTraj) ;;
  quadrature <- dot (toMX (transpose quadCoeffs)) integrandTraj ;;
  let integralCost := emul (m_duration t) quadrature in
  endpointCost <- endpointCostOf t ;;
  ret (set_objective t (eadd integralCost endpointCost)).

(** The loop over the path constraints at the end of [transcribe]: the
    constraint blocks with their lower and upper bounds. *)
Fixpoint transcribePath (t : Transcription) (M : nat) (ipc : nat)
  (infos : list (PathConstraintInfo D F))
  : Exc (list MX * list DM * list DM * Transcription) :=
  match infos with
  | [] => ret ([], [], [], t)
  | info :: rest =>
      '(out, t) <- evalRecorded t (PathConstraint ipc) (pc_function info)
                     [states; controls; multipliers; derivatives] ref_daeIndices ;;
      o0 <- vecAt out 0 ;;
      '(ps, ls, us, t) <- transcribePath t M (S ipc) rest ;;
      ret (o0 :: ps,
           repmatCols (lowerBounds info) M :: ls,
           repmatCols (upperBounds info) M :: us, t)
  end.

Definition quaternionMessage : string :=
  "Problems with differing numbers of coordinates and speeds are not supported (e.g., quaternions).".

(** [transcribe], block by block.  First the blocks that initialize the
    memory of the state derivatives, the defects, the implicit residuals
    and the kinematic constraints, with their bounds. *)
Definition initializeMemory (t : Transcription) : Exc Transcription :=
  let problem := m_problem t in
  let NS := getNumStates problem in
  (* Initialize memory for state derivatives and defects. *)
  G <- dim (m_numGridPoints t) ;;
  Nd <- dim (m_numDefectsPerGridPoint t) ;;
  I <- dim (m_numMeshIntervals t) ;;
  M <- dim (m_numMeshPoints t) ;;
  let t := set_xdot t (MX_zeros NS G) in
  let t := set_constraints t (set_defects (m_constraints t) (MX_zeros Nd I)) in
  let t := set_constraintsLowerBounds t
             (set_defects (m_constraintsLowerBounds t) (DM_zeros Nd I)) in
  let t := set_constraintsUpperBounds t
             (set_defects (m_constraintsUpperBounds t) (DM_zeros Nd I)) in
  (* Initialize memory for implicit residuals. *)
  t <- (if isDynamicsModeImplicit (m_solver t) then
          NR <- dim (m_numResiduals t) ;;
          let t := set_constraints t (set_residuals (m_constraints t) (MX_zeros NR G)) in
          let t := set_constraintsLowerBounds t
                     (set_residuals (m_constraintsLowerBounds t) (DM_zeros NR G)) in
          ret (set_constraintsUpperBounds t
                 (set_residuals (m_constraintsUpperBounds t) (DM_zeros NR G)))
        else ret t) ;;
  (* Initialize memory for kinematic constraints. *)
  let numKinematicConstraints := getNumKinematicConstraintEquations problem in
  let t := set_constraints t
             (set_kinematic (m_constraints t) (MX_zeros numKinematicConstraints M)) in
  let kcBounds := getKinematicConstraintBounds problem in
  let t := set_constraintsLowerBounds t
             (set_kinematic (m_constraintsLowerBounds t)
                (fill (lower kcBounds) numKinematicConstraints M)) in
  ret (set_constraintsUpperBounds t
         (set_kinematic (m_constraintsUpperBounds t)
            (fill (upper kcBounds) numKinematicConstraints M))).

(** The block under the comment "qdot": the speeds, and the velocity
    correction at the points that ignore the constraints. *)
Definition transcribeQdot (t : Transcription) : Exc Transcription :=
  let problem := m_problem t in
  let NQ := getNumCoordinates problem in
  let NU := getNumSpeeds problem in
  s <- vat (m_vars t) states ;;
  u <- getSub s NQ (NQ + NU) (allCols s) ;;
  xdot <- setSub (m_xdot t) 0 NQ (allCols (m_xdot t)) u ;;
  let t := set_xdot t xdot in
  if getEnforceConstraintDerivatives problem &&
     negb (m_numPointsIgnoringConstraints t =? 0)%Z
  then
    '(velocityCorrOut, t) <-
       evalRecorded t VelocityCorrection (getVelocityCorrection problem)
         [multibody_states; slacks] ref_daeIndicesIgnoringConstraints ;;
    uCorr <- vecAt velocityCorrOut 0 ;;
    cur <- getSub (m_xdot t) 0 NQ (m_daeIndicesIgnoringConstraints t) ;;
    sum <- madd cur uCorr ;;
    xdot <- setSub (m_xdot t) 0 NQ (m_daeIndicesIgnoringConstraints t) sum ;;
    ret (set_xdot t xdot)
  else ret t.

Definition dynamicsInputs : list Var := [states; controls; multipliers; derivatives].

(** The implicit branch of the block "udot, zdot, residual, kcerr". *)
Definition transcribeImplicit (t : Transcription) : Exc Transcription :=
  let problem := m_problem t in
  let NQ := getNumCoordinates problem in
  let NU := getNumSpeeds problem in
  let NS := getNumStates problem in
  (* udot. *)
  w <- vat (m_vars t) derivatives ;;
  xdot <- setSub (m_xdot t) NQ (NQ + NU) (allCols (m_xdot t)) w ;;
  let t := set_xdot t xdot in
  (* Points where we compute algebraic constraints. *)
  '(out, t) <- evalRecorded t ImplicitMultibodySystem
                 (getImplicitMultibodySystem problem) dynamicsInputs ref_daeIndices ;;
  o0 <- vecAt out 0 ;;
  let res := residuals (m_constraints t) in
  res <- setSub res 0 (size1 res) (m_daeIndices t) o0 ;;
  let t := set_constraints t (set_residuals (m_constraints t) res) in
  (* zdot. *)
  o1 <- vecAt out 1 ;;
  xdot <- setSub (m_xdot t) (NQ + NU) NS (m_daeIndices t) o1 ;;
  let t := set_xdot t xdot in
  o2 <- vecAt out 2 ;;
  let t := set_constraints t (set_kinematic (m_constraints t) o2) in
  (* Points where we ignore algebraic constraints. *)
  if negb (m_numPointsIgnoringConstraints t =? 0)%Z then
    '(out, t) <- evalRecorded t ImplicitMultibodySystemIgnoringConstraints
                   (getImplicitMultibodySystemIgnoringConstraints problem)
                   dynamicsInputs ref_daeIndicesIgnoringConstraints ;;
    o0 <- vecAt out 0 ;;
    let res := residuals (m_constraints t) in
    res <- setSub res 0 (size1 res) (m_daeIndicesIgnoringConstraints t) o0 ;;
    let t := set_constraints t (set_residuals (m_constraints t) res) in
    (* zdot. *)
    o1 <- vecAt out 1 ;;
    xdot <- setSub (m_xdot t) (NQ + NU) NS (m_daeIndicesIgnoringConstraints t) o1 ;;
    ret (set_xdot t xdot)
  else ret t.

(** The explicit branch of the block "udot, zdot, residual, kcerr". *)
Definition transcribeExplicit (t : Transcription) : Exc Transcription :=
  let problem := m_problem t in
  let NQ := getNumCoordinates problem in
  let NU := getNumSpeeds problem in
  let NS := getNumStates problem in
  (* Points where we compute algebraic constraints. *)
  '(out, t) <- evalRecorded t MultibodySystem
                 (getMultibodySystem problem) dynamicsInputs ref_daeIndices ;;
  o0 <- vecAt out 0 ;;
  xdot <- setSub (m_xdot t) NQ (NQ + NU) (m_daeIndices t) o0 ;;
  let t := set_xdot t xdot in
  o1 <- vecAt out 1 ;;
  xdot <- setSub (m_xdot t) (NQ + NU) NS (m_daeIndices t) o1 ;;
  let t := set_xdot t xdot in
  o2 <- vecAt out 2 ;;
  let t := set_constraints t (set_kinematic (m_constraints t) o2) in
  (* Points where we ignore algebraic constraints. *)
  if negb (m_numPointsIgnoringConstraints t =? 0)%Z then
    '(out, t) <- evalRecorded t MultibodySystemIgnoringConstraints
                   (getMultibodySystemIgnoringConstraints problem)
                   dynamicsInputs ref_daeIndicesIgnoringConstraints ;;
    o0 <- vecAt out 0 ;;
    xdot <- setSub (m_xdot t) NQ (NQ + NU) (m_daeIndicesIgnoringConstraints t) o0 ;;
    let t := set_xdot t xdot in
    o1 <- vecAt out 1 ;;
    xdot <- setSub (m_xdot t) (NQ + NU) NS (m_daeIndicesIgnoringConstraints t) o1 ;;
    ret (set_xdot t xdot)
  else ret t.

(** The blocks "Calculate defects" and "Path constraints". *)
Definition transcribeDefectsAndPath (t : Transcription) : Exc Transcription :=
  d <- calcDefects t ;;
  let t := set_constraints t (set_defects (m_constraints t) d) in
  M <- dim (m_numMeshPoints t) ;;
  '(ps, ls, us, t) <- transcribePath t M 0 (getPathConstraintInfos (m_problem t)) ;;
  let t := set_constraints t (set_path (m_constraints t) ps) in
  let t := set_constraintsLowerBounds t (set_path (m_constraintsLowerBounds t) ls) in
  ret (set_constraintsUpperBounds t (set_path (m_constraintsUpperBounds t) us)).

Definition transcribe (t : Transcription) : Exc Transcription :=
  (* Cost. *)
  t <- setObjective t ;;
  (* Compute DAEs at necessary grid points. *)
  let NQ := getNumCoordinates (m_problem t) in
  let NU := getNumSpeeds (m_problem t) in
  if negb (NQ =? NU) then throw (OpenSimException quaternionMessage) else
  t <- initializeMemory t ;;
  t <- transcribeQdot t ;;
  t <- (if isDynamicsModeImplicit (m_solver t) then transcribeImplicit t
        else transcribeExplicit t) ;;
  transcribeDefectsAndPath t.

(* ------------------------------------------------------------------ *)
(** *** The failure report *)

(** What [printConstraintValues] writes to the stream, as data: the
    numbers and labels of every table, in print order (column widths and
    number formats are not modelled).  The source reads [names[ivar]]
    unchecked: a label is [Some name] where the name vector has an entry,
    and [None] marks a line whose name is read beyond the end of the
    vector, where the source has no defined behaviour.  That a table is
    returned is stated only for a name vector with a name for every row. *)
Record BoundRow : Type := mkBoundRow {
  br_var : nat;
  br_label : option string;
  br_time : D;
  br_lower : D;
  br_value : D;
  br_upper : D;
  br_L : bool;
  br_U : bool;
  br_star : bool
}.

Inductive BoundsSummary : Type :=
| NoBoundsActiveOrViolated
| SomeActiveNoneViolated
| SomeActiveOrViolated.

Record BoundsTable : Type := mkBoundsTable {
  bt_description : string;
  bt_summary : BoundsSummary;
  bt_rows : list BoundRow
}.

Record NormRow : Type := mkNormRow {
  nr_label : option string;
  nr_L2 : D;
  nr_L1 : D;
  nr_time_of_max : D
}.

Record Report : Type := mkReport {
  rp_variableBounds : list BoundsTable;
  rp_parameterBounds : list BoundsTable;
  rp_numConstraints : Z;
  rp_defects : list NormRow;
  rp_kinematic : list NormRow;
  rp_kinematicValues : list (D * list D);
  (* [None]: " none" was printed and the function returned early *)
  rp_path : option (list NormRow * list (D * list D))
}.

(** [V <= L || V >= U], then the three cases of the loop body. *)
Inductive BoundCase : Type := Inside | Ignored | Active | Violated.

Definition boundCase (L V U : D) : BoundCase :=
  if dleb V L || dleb U V then
    if deqb V L && deqb L U then Ignored
    else if dltb V L || dltb U V then Violated
    else Active
  else Inside.

(** The inner loop of the first scan of [print_bounds] over the times of
    one row: it leaves the loop at the first violated bound. *)
Fixpoint scanTimes (read : nat -> Exc (D * D * D)) (itimes : list nat)
  (flags : bool * bool) : Exc (bool * bool) :=
  match itimes with
  | [] => ret flags
  | itime :: rest =>
      '(L, V, U) <- read itime ;;
      match boundCase L V U with
      | Violated => ret (true, true)
      | Active => scanTimes read rest (true, snd flags)
      | _ => scanTimes read rest flags
      end
  end.

Fixpoint scanVars (read : nat -> nat -> Exc (D * D * D)) (ivars itimes : list nat)
  (flags : bool * bool) : Exc (bool * bool) :=
  match ivars with
  | [] => ret flags
  | ivar :: rest =>
      flags <- scanTimes (read ivar) itimes flags ;;
      scanVars read rest itimes flags
  end.

(** The second pass over the times of one row: the printed lines. *)
Fixpoint printTimes (read : nat -> Exc (D * D * D)) (time : nat -> Exc D)
  (ivar : nat) (label : option string) (itimes : list nat) : Exc (list BoundRow) :=
  match itimes with
  | [] => ret []
  | itime :: rest =>
      '(L, V, U) <- read itime ;;
      match boundCase L V U with
      | Inside | Ignored => printTimes read time ivar label rest
      | _ =>
          tm <- time itime ;;
          rows <- printTimes read time ivar label rest ;;
          ret (mkBoundRow ivar label tm L V U (dleb V L) (dleb U V)
                 (dltb V L || dltb U V) :: rows)
      end
  end.

Fixpoint printVars (read : nat -> nat -> Exc (D * D * D)) (time : nat -> Exc D)
  (names : list string) (ivars itimes : list nat) : Exc (list BoundRow) :=
  match ivars with
  | [] => ret []
  | ivar :: rest =>
      rows <- printTimes (read ivar) time ivar (nth_error names ivar) itimes ;;
      more <- printVars read time names rest itimes ;;
      ret (rows ++ more)
  end.

Definition summaryOf (flags : bool * bool) : BoundsSummary :=
  if negb (fst flags) && negb (snd flags) then NoBoundsActiveOrViolated
  else if negb (snd flags) then SomeActiveNoneViolated
  else SomeActiveOrViolated.

(** After the first scan: the summary line and, unless no bound is active,
    the table of the second pass. *)
Definition boundsTable (description : string) (names : list string)
  (read : nat -> nat -> Exc (D * D * D)) (time : nat -> Exc D)
  (ivars itimes : list nat) (flags : bool * bool) : Exc BoundsTable :=
  match summaryOf flags with
  | NoBoundsActiveOrViolated => ret (mkBoundsTable description NoBoundsActiveOrViolated [])
  | summary =>
      rows <- printVars read time names ivars itimes ;;
      ret (mkBoundsTable description summary rows)
  end.

(** The lambda [print_bounds]: [lower(ivar, itime)], [values(ivar, itime)]
    and [upper(ivar, itime)] are read in this order, for every row of
    [values] and every entry of [times]. *)
Definition print_bounds (description : string) (names : list string)
  (times values lower upper : DM) : Exc BoundsTable :=
  let read ivar itime :=
    L <- entry lower ivar itime ;;
    V <- entry values ivar itime ;;
    U <- entry upper ivar itime ;;
    ret (L, V, U) in
  let ivars := seq 0 (size1 values) in
  let itimes := seq 0 (numel times) in
  flags <- scanVars read ivars itimes (false, false) ;;
  boundsTable description names read (entryLin times) ivars itimes flags.

(** The lambda [printParameterBounds]: one value per row, read by a linear
    index, in a single loop that the first violated bound ends; the lines
    carry no time (the time field of a line is zero). *)
Definition printParameterBounds (description : string) (names : list string)
  (values lower upper : DM) : Exc BoundsTable :=
  let read ivar :=
    L <- entryLin lower ivar ;;
    V <- entryLin values ivar ;;
    U <- entryLin upper ivar ;;
    ret (L, V, U) in
  let ivars := seq 0 (size1 values) in
  flags <- scanTimes read ivars (false, false) ;;
  boundsTable description names (fun ivar _ => read ivar) (fun _ => ret d0) ivars [0] flags.

(** The lambda [calcL1Norm]. *)
Fixpoint calcL1NormLoop (v : DM) (range : list nat) (max : D) (argmax : nat)
  : Exc (D * nat) :=
  match range with
  | [] => ret (max, argmax)
  | i :: rest =>
      x <- entryLin v i ;;
      if dltb max x then calcL1NormLoop v rest (dabs x) i
      else calcL1NormLoop v rest max argmax
  end.

Definition calcL1Norm (v : DM) : Exc (D * nat) :=
  max <- entryLin v 0 ;;
  calcL1NormLoop v (seq 1 (numel v - 1)) max 0.

(** One line of a norm table: the L2 norm of a row, its [calcL1Norm] and
    the entry of [it.times] at the returned index. *)
Definition normRow (it : Iterate D) (label : option string) (block : DM) (irow : nat)
  : Exc NormRow :=
  row <- getSub block irow (S irow) (allCols block) ;;
  let L2 := dnorm2 (entries row) in
  '(max, argmax) <- calcL1Norm row ;;
  time_of_max <- entryLin (times it) argmax ;;
  ret (mkNormRow label L2 max time_of_max).

(** One line of a table of values at each mesh point. *)
Definition valuesAt (it : Iterate D) (read : nat -> nat -> Exc D) (n : nat) (imesh : nat)
  : Exc (D * list D) :=
  tm <- entryLin (times it) imesh ;;
  vs <- mapM (fun k => read k imesh) (seq 0 n) ;;
  ret (tm, vs).

(** ["%s_%02i"]. *)
Definition format_s_02i (s : string) (i : nat) : string :=
  let pad := if i <? 10 then "0" else EmptyString in
  (s ++ "_" ++ pad ++ NilZero.string_of_uint (Nat.to_uint i))%string.

(** The norm lines of the path constraints: one per equation of every
    path constraint. *)
Fixpoint pathNorms (it : Iterate D) (blocks : list DM) (ipc : nat)
  (infos : list (PathConstraintInfo D F)) : Exc (list NormRow) :=
  match infos with
  | [] => ret []
  | pc :: rest =>
      block <- vecAt blocks ipc ;;
      rows <- mapM (fun ieq => normRow it (Some (format_s_02i (pc_name pc) ieq)) block ieq)
                (seq 0 (pc_size pc)) ;;
      more <- pathNorms it blocks (S ipc) rest ;;
      ret (rows ++ more)
  end.

Definition time_names : list string := ["initial_time"%string; "final_time"%string].

(** [timeValues(0) = vars.at(initial_time); timeValues(1) = vars.at(final_time)]. *)
Definition timePair (vars : Variables DM) : Exc DM :=
  a <- vat vars initial_time ;;
  a <- scalar a ;;
  b <- vat vars final_time ;;
  b <- scalar b ;;
  ret (mkMat 2 [[a; b]]).

Definition printConstraintValues (t : Transcription) (it : Iterate D)
  (constraints : Constraints DM) : Exc Report :=
  let vars := variables it in
  let lower := m_lowerBounds t in
  let upper := m_upperBounds t in
  (* Bounds on time-varying variables. *)
  let block (description : string) (names : list string) (var : Var) :=
    v <- vat vars var ;;
    l <- vat lower var ;;
    u <- vat upper var ;;
    print_bounds description names (times it) v l u in
  b1 <- block "State bounds" (state_names it) states ;;
  b2 <- block "Control bounds" (state_names it) controls ;;
  b3 <- block "Multiplier bounds" (state_names it) multipliers ;;
  b4 <- block "Derivative bounds" (state_names it) derivatives ;;
  b5 <- block "Slack bounds" (state_names it) slacks ;;
  (* Bounds on time and parameter variables. *)
  timeValues <- timePair vars ;;
  timeLower <- timePair lower ;;
  timeUpper <- timePair upper ;;
  p1 <- printParameterBounds "Time bounds" time_names timeValues timeLower timeUpper ;;
  pv <- vat vars parameters ;;
  pl <- vat lower parameters ;;
  pu <- vat upper parameters ;;
  p2 <- printParameterBounds "Parameter bounds" (parameter_names it) pv pl pu ;;
  (* Differential equation defects. *)
  ds <- mapM (fun istate => normRow it (nth_error (state_names it) istate)
                              (defects constraints) istate)
          (seq 0 (length (state_names it))) ;;
  (* Kinematic constraints. *)
  let kinconNames := map (@name D) (getMultiplierInfos (m_problem t)) in
  ks <- mapM (fun ikc => normRow it (nth_error kinconNames ikc) (kinematic constraints) ikc)
          (seq 0 (size1 (kinematic constraints))) ;;
  M <- dim (m_numMeshPoints t) ;;
  kv <- mapM (valuesAt it (entry (kinematic constraints)) (length kinconNames)) (seq 0 M) ;;
  (* Path constraints. *)
  let pathconNames := map (@pc_name D F) (getPathConstraintInfos (m_problem t)) in
  ps <- (match pathconNames with
         | [] => ret None
         | _ =>
             rows <- pathNorms it (path constraints) 0 (getPathConstraintInfos (m_problem t)) ;;
             vals <- mapM (valuesAt it
                             (fun ipc imesh =>
                                block <- vecAt (path constraints) ipc ;;
                                entryLin block imesh)
                             (length pathconNames))
                       (seq 0 M) ;;
             ret (Some (rows, vals))
         end) ;;
  ret (mkReport [b1; b2; b3; b4; b5] [p1; p2] (m_numConstraints t) ds ks kv ps).

(* ------------------------------------------------------------------ *)
(** *** solve *)

(** ["%i"]. *)
Definition string_of_Z (z : Z) : string := NilZero.string_of_int (Z.to_int z).

Definition slackLengthMessage (expected actual : Z) : string :=
  ("Expected slack variables to be length " ++ string_of_Z expected ++
   ", but they are length " ++ string_of_Z actual ++ ".")%string.

(** The loop that collects the columns [itime] with
    [kinConIndices(itime).__nonzero__()]. *)
Fixpoint slackColumnsToRemove (kinConIndices : DM) (range : list nat) : Exc (list nat) :=
  match range with
  | [] => ret []
  | itime :: rest =>
      x <- entryLin kinConIndices itime ;;
      more <- slackColumnsToRemove kinConIndices rest ;;
      ret (if negb (deqb x d0) then itime :: more else more)
  end.

Definition setSlacks (guess : Iterate D) (sl : DM) : Iterate D :=
  mkIterate (vset (variables guess) slacks sl) (times guess)
    (state_names guess) (control_names guess) (multiplier_names guess)
    (derivative_names guess) (slack_names guess) (parameter_names guess).

(** The block of [solve] that adjusts the guess of the slack variables. *)
Definition adjustSlackGuess (t : Transcription) (guess : Iterate D) : Exc (Iterate D) :=
  match variables guess slacks with
  | None => ret guess
  | Some sl =>
      sl <- (if (Z.of_nat (size2 sl) =? m_numGridPoints t)%Z then
               G <- dim (m_numGridPoints t) ;;
               cc <- slackColumnsToRemove createKinematicConstraintIndices (seq 0 G) ;;
               removeCols sl cc
             else ret sl) ;;
      if negb (Z.of_nat (size2 sl) =? m_numPointsIgnoringConstraints t)%Z
      then throw (OpenSimException
                    (slackLengthMessage (m_numPointsIgnoringConstraints t)
                       (Z.of_nat (size2 sl))))
      else ret (setSlacks guess sl)
  end.

(** What a call of [solve] leaves behind: the returned Solution, the
    report printed on failure and the sparsity files written. *)
Record SolveOutput : Type := mkSolveOutput {
  out_solution : Solution D;
  out_report : option Report;
  out_files : list string
}.

(** [m[k]] read on a map: a missing key yields a default-constructed
    matrix. *)
Definition vget (m : Variables DM) (k : Var) : DM :=
  match m k with
  | Some v => v
  | None => emptyMat
  end.

(** [solve] from the creation of the NLP function on: [t] is the
    transcribed object and [guess] the resampled guess with its slack block
    adjusted. *)
Definition solveNlp (t : Transcription) (guess : Iterate D) : Exc SolveOutput :=
  let solver := m_solver t in
  (* Create the CasADi NLP function. *)
  let options :=
    match getPluginOptions solver with
    | [] => []
    | o => dictSet o (getOptimSolver solver) (GDict (getSolverOptions solver))
    end in
  let x := flattenVariablesMX (m_vars t) in
  let f := m_objective t in
  let g := flattenConstraintsMX (m_constraints t) in
  files <- (if String.length (getWriteSparsity solver) =? 0 then ret []
            else writeSparsityFiles (getWriteSparsity solver) x f g) ;;
  (* Run the optimization. *)
  nlpResult <- nlpsol "nlp" (getOptimSolver solver) x f g options
                 (mkNlpInput (flattenVariablesDM (variables guess))
                    (flattenVariablesDM (m_lowerBounds t))
                    (flattenVariablesDM (m_upperBounds t))
                    (flattenConstraintsDM (m_constraintsLowerBounds t))
                    (flattenConstraintsDM (m_constraintsUpperBounds t))) ;;
  (* Create a CasOC::Solution. *)
  let names := createIterate (m_problem t) in
  let finalVariables := res_x nlpResult in
  vars <- expandVariables t finalVariables ;;
  obj <- scalar (res_f nlpResult) ;;
  tms <- createTimesDM (m_grid t) (vget vars initial_time) (vget vars final_time) ;;
  let solution :=
    mkSolution
      (mkIterate vars tms (state_names names) (control_names names)
         (multiplier_names names) (derivative_names names) (slack_names names)
         (parameter_names names))
      obj (res_stats nlpResult) in
  success <- dictAt (stats solution) "success" ;;
  success <- to_bool success ;;
  if negb success then
    (* The constraints are calculated anew from the returned x. *)
    out <- Function_numeric "constraints" [x] [g] [finalVariables] ;;
    g0 <- vecAt out 0 ;;
    constraints <- expandConstraints t g0 ;;
    report <- printConstraintValues t solution constraints ;;
    ret (mkSolveOutput solution (Some report) files)
  else ret (mkSolveOutput solution None files).

Definition solve (t : Transcription) (guessOrig : Iterate D) : Exc SolveOutput :=
  (* Define the NLP. *)
  t <- transcribe t ;;
  (* Resample the guess. *)
  gi <- vat (variables guessOrig) initial_time ;;
  gf <- vat (variables guessOrig) final_time ;;
  guessTimes <- createTimesDM (m_grid t) gi gf ;;
  guess <- resample guessOrig guessTimes ;;
  (* Adjust guesses for the slack variables; the adjusted guess is the one
     used below. *)
  guess <- adjustSlackGuess t guess ;;
  solveNlp t guess.

End TranscriptionCode.

(* ================================================================== *)
(** ** An instance over the integers

    Numbers and symbolic expressions are both integers: an expression is
    given by its value at one point of the decision variables.  The
    collaborators are small concrete functions, so that every function of
    the transcription can be run. *)

#[export] Instance NumericZ : Numeric Z := {
  dofZ := fun z => z;
  dadd := Z.add;
  dsub := Z.sub;
  dmul := Z.mul;
  dabs := Z.abs;
  deqb := Z.eqb;
  dleb := Z.leb;
  dltb := Z.ltb;
  dnorm2 := fun l => Z.sqrt (fold_right (fun x s => (x * x + s)%Z) 0%Z l)
}.

(** The value of the primitive [name(i, j)]: 1 for every multiplier, 0 and
    2 for the initial and the final time, and a number that tells the other
    primitives apart. *)
Definition valuation (name : string) (i j : nat) : Z :=
  if String.eqb name "multipliers" then 1%Z
  else if String.eqb name "initial_time" then 0%Z
  else if String.eqb name "final_time" then 2%Z
  else Z.of_nat (100 * String.length name + 10 * i + j).

#[export] Instance SymbolicZ : Symbolic Z Z := {
  econst := fun z => z;
  esym := valuation;
  eadd := Z.add;
  esub := Z.sub;
  emul := Z.mul;
  esq := fun x => (x * x)%Z
}.

(** A point function: the declared number of rows of every output, the
    function on columns, and the number of points it is mapped over. *)
Record FunctionZ : Type := mkFunctionZ {
  fz_outRows : list nat;
  fz_body : list (list Z) -> list (list Z);
  fz_map : option nat
}.

Definition callZ (f : FunctionZ) (args : list (Mat Z)) : Exc (list (Mat Z)) :=
  let n := match fz_map f with Some n => n | None => 1 end in
  if forallb (fun a => size2 a =? n) args then
    ret (map (fun o =>
                mkMat (nth o (fz_outRows f) 0)
                  (map (fun k => nth o (fz_body f (map (fun a => column a k) args)) [])
                     (seq 0 n)))
           (seq 0 (length (fz_outRows f))))
  else throw (CasadiException "dimension mismatch").

(** The rows and columns an [Index] selects in a table with [n] of them. *)
Definition resolveIndex (n : nat) (i : Index) : list nat :=
  match i with
  | At z => if (z <? 0)%Z then [Z.to_nat (Z.of_nat n + z)] else [Z.to_nat z]
  | SliceAll => seq 0 n
  | SliceRange a b => seq (Z.to_nat a) (Z.to_nat (b - a))
  end.

Fixpoint setEntries (m : Mat Z) (rows columns : list nat) (x : Z) : Exc (Mat Z) :=
  match rows with
  | [] => ret m
  | r :: rest =>
      m <- setSub m r (S r) columns (fill x 1 (length columns)) ;;
      setEntries m rest columns x
  end.

Definition setVariableBoundsZ (var : Var) (rows columns : Index) (b : Bounds Z)
  (tables : Variables (Mat Z) * Variables (Mat Z))
  : Exc (Variables (Mat Z) * Variables (Mat Z)) :=
  lo <- vat (fst tables) var ;;
  up <- vat (snd tables) var ;;
  let rs := resolveIndex (size1 lo) rows in
  let cs := resolveIndex (size2 lo) columns in
  lo <- setEntries lo rs cs (lower b) ;;
  up <- setEntries up rs cs (upper b) ;;
  ret (vset (fst tables) var lo, vset (snd tables) var up).

Definition varKeys : list Var :=
  [initial_time; final_time; states; controls; multipliers; derivatives; parameters; slacks].

Definition colVec (l : list Z) : Mat Z := mkMat (length l) [l].

Definition flattenVariablesZ (v : Variables (Mat Z)) : Mat Z :=
  colVec (flat_map (fun k => match v k with Some m => entries m | None => [] end) varKeys).

Definition flattenConstraintsZ (c : Constraints (Mat Z)) : Mat Z :=
  colVec (entries (defects c) ++ entries (residuals c) ++ entries (kinematic c) ++
          flat_map (@entries Z) (path c)).

Definition reshapeZ (l : list Z) (r c : nat) : Mat Z :=
  mkMat r (map (fun j => firstn r (skipn (j * r) l)) (seq 0 c)).

Fixpoint expandKeys (shape : Variables (Mat Z)) (keys : list Var) (l : list Z)
  : Variables (Mat Z) :=
  match keys with
  | [] => vempty
  | k :: rest =>
      match shape k with
      | Some m =>
          vset (expandKeys shape rest (skipn (numel m) l)) k
            (reshapeZ l (size1 m) (size2 m))
      | None => expandKeys shape rest l
      end
  end.

Fixpoint expandBlocks (shapes : list (Mat Z)) (l : list Z) : list (Mat Z) :=
  match shapes with
  | [] => []
  | m :: rest => reshapeZ l (size1 m) (size2 m) :: expandBlocks rest (skipn (numel m) l)
  end.

Definition expandConstraintsZ (t : Transcription Z Z FunctionZ) (g : Mat Z)
  : Exc (Constraints (Mat Z)) :=
  let c := m_constraints t in
  match expandBlocks (defects c :: residuals c :: kinematic c :: path c) (entries g) with
  | d :: r :: k :: p => ret (mkConstraints d r k p)
  | _ => throw (CasadiException "dimension mismatch")
  end.

Definition namesOf (p : Problem Z FunctionZ) : Iterate Z :=
  mkIterate vempty emptyMat
    (map (@name Z) (getStateInfos p)) (map (@name Z) (getControlInfos p))
    (map (@name Z) (getMultiplierInfos p)) [] (map (@name Z) (getSlackInfos p))
    (map (@name Z) (getParameterInfos p)).

Definition sparsityFileNames (prefix : string) : list string :=
  [(prefix ++ "_objective_gradient_sparsity.mtx")%string;
   (prefix ++ "_objective_Hessian_sparsity.mtx")%string;
   (prefix ++ "_Lagrangian_Hessian_sparsity.mtx")%string;
   (prefix ++ "constraint_Jacobian_sparsity.mtx")%string].

(** The collaborators of the instance.  The NLP solver returns the guess
    as its [x], the value of the objective, a zero-filled [g], and the
    given [success] flag. *)
Definition collabZ (success : bool) : Collaborators Z Z FunctionZ := {|
  Function_map := fun f n _ _ => mkFunctionZ (fz_outRows f) (fz_body f) (Some n);
  Function_call := callZ;
  Function_numeric := fun _ _ g _ => ret g;
  nlpsol := fun _ _ _ f g _ input =>
    ret (mkNlpResult (x0 input) (ofScalar f) (mapMat (fun _ => 0%Z) g)
           [("success", GBool success); ("iter_count", GInt 7)]);
  writeSparsityFiles := fun prefix _ _ _ => ret (sparsityFileNames prefix);
  setVariableBounds := setVariableBoundsZ;
  flattenVariablesMX := flattenVariablesZ;
  flattenVariablesDM := flattenVariablesZ;
  flattenConstraintsMX := flattenConstraintsZ;
  flattenConstraintsDM := flattenConstraintsZ;
  expandVariables := fun t x => ret (expandKeys (m_vars t) varKeys (entries x));
  expandConstraints := expandConstraintsZ;
  resample := fun it newTimes =>
    ret (mkIterate (variables it) newTimes (state_names it) (control_names it)
           (multiplier_names it) (derivative_names it) (slack_names it)
           (parameter_names it));
  createIterate := namesOf
|}.

(** *** A Hermite-Simpson problem on five mesh points

    One coordinate, one speed, no auxiliary state, one control, one
    multiplier, one derivative, one slack, one parameter, one kinematic
    constraint equation and one path constraint with two equations: nine
    grid points, of which four lie inside the mesh intervals. *)

Definition total (ins : list (list Z)) : Z :=
  fold_right Z.add 0%Z (concat ins).

Definition fnMultibodySystem : FunctionZ :=
  mkFunctionZ [1; 0; 1] (fun ins => [[total ins]; []; [(total ins + 1)%Z]]) None.
Definition fnMultibodySystemIgnoringConstraints : FunctionZ :=
  mkFunctionZ [1; 0] (fun ins => [[(2 * total ins)%Z]; []]) None.
Definition fnImplicitMultibodySystem : FunctionZ :=
  mkFunctionZ [1; 0; 1] (fun ins => [[(total ins - 5)%Z]; []; [(total ins + 2)%Z]]) None.
Definition fnImplicitMultibodySystemIgnoringConstraints : FunctionZ :=
  mkFunctionZ [1; 0] (fun ins => [[(total ins - 7)%Z]; []]) None.
Definition fnVelocityCorrection : FunctionZ :=
  mkFunctionZ [1] (fun ins => [[(3 * total ins)%Z]]) None.
Definition fnIntegrand : FunctionZ :=
  mkFunctionZ [1] (fun _ => [[0%Z]]) None.
Definition fnEndpointCost : FunctionZ :=
  mkFunctionZ [1] (fun _ => [[0%Z]]) None.
Definition fnPath : FunctionZ :=
  mkFunctionZ [2] (fun ins => [[total ins; (- total ins)%Z]]) None.

Definition info (n : string) (lo up : Z) : ValueInfo Z :=
  mkValueInfo n (mkBounds lo up) (mkBounds lo up) (mkBounds lo up).

Definition problemHS (enforce : bool) : Problem Z FunctionZ := {|
  getNumCoordinates := 1;
  getNumSpeeds := 1;
  getNumStates := 2;
  getNumControls := 1;
  getNumMultipliers := 1;
  getNumDerivatives := 1;
  getNumSlacks := 1;
  getNumParameters := 1;
  getNumKinematicConstraintEquations := 1;
  getEnforceConstraintDerivatives := enforce;
  getTimeInitialBounds := mkBounds 0%Z 0%Z;
  getTimeFinalBounds := mkBounds 1%Z 5%Z;
  getStateInfos := [info "q" (-10) 10; info "u" (-50) 50];
  getControlInfos := [info "tau" (-100) 100];
  getMultiplierInfos := [info "lambda" (-1000) 1000];
  getSlackInfos := [info "gamma" (-1) 1];
  getParameterInfos := [info "mass" 1 2];
  getKinematicConstraintBounds := mkBounds 0%Z 0%Z;
  getPathConstraintInfos :=
    [mkPathConstraintInfo "limit" 2 (mkMat 2 [[(-3)%Z; (-4)%Z]]) (mkMat 2 [[3%Z; 4%Z]]) fnPath];
  getMultibodySystem := fnMultibodySystem;
  getMultibodySystemIgnoringConstraints := fnMultibodySystemIgnoringConstraints;
  getImplicitMultibodySystem := fnImplicitMultibodySystem;
  getImplicitMultibodySystemIgnoringConstraints := fnImplicitMultibodySystemIgnoringConstraints;
  getVelocityCorrection := fnVelocityCorrection;
  getIntegralCostIntegrand := fnIntegrand;
  getEndpointCost := fnEndpointCost
|}.

(** The same problem without slack variables. *)
Definition problemNoSlacks (enforce : bool) : Problem Z FunctionZ :=
  let p := problemHS enforce in
  mkProblem (getNumCoordinates p) (getNumSpeeds p) (getNumStates p) (getNumControls p)
    (getNumMultipliers p) (getNumDerivatives p) 0 (getNumParameters p)
    (getNumKinematicConstraintEquations p) (getEnforceConstraintDerivatives p)
    (getTimeInitialBounds p) (getTimeFinalBounds p) (getStateInfos p) (getControlInfos p)
    (getMultiplierInfos p) [] (getParameterInfos p) (getKinematicConstraintBounds p)
    (getPathConstraintInfos p) (getMultibodySystem p)
    (getMultibodySystemIgnoringConstraints p) (getImplicitMultibodySystem p)
    (getImplicitMultibodySystemIgnoringConstraints p) (getVelocityCorrection p)
    (getIntegralCostIntegrand p) (getEndpointCost p).

Definition solverHS (implicit minimize : bool) : Solver Z := {|
  getMesh := [0%Z; 2%Z; 4%Z; 6%Z; 8%Z];
  isDynamicsModeImplicit := implicit;
  getMinimizeLagrangeMultipliers := minimize;
  getLagrangeMultiplierWeight := 1%Z;
  getParallelism := ("serial", 1);
  getOptimSolver := "ipopt";
  getPluginOptions := [];
  getSolverOptions := [];
  getWriteSparsity := EmptyString
|}.

Definition gridHS : Mat Z := mkMat 1 (map (fun j => [Z.of_nat j]) (seq 0 9)).

(** The scheme: Simpson weights (in sixths of a mesh interval), the mask
    that selects the mesh points, and a defects block of zeros. *)
#[export] Instance schemeHS : Scheme Z Z FunctionZ := {
  createQuadratureCoefficients := mkMat 9 [[1; 4; 2; 4; 2; 4; 2; 4; 1]%Z];
  createKinematicConstraintIndices := mkMat 1 [[1]; [0]; [1]; [0]; [1]; [0]; [1]; [0]; [1]]%Z;
  calcDefects := fun t =>
    ret (MX_zeros (Z.to_nat (m_numDefectsPerGridPoint t)) (Z.to_nat (m_numMeshIntervals t)))
}.

(** A guess on the grid whose slack block has one column per grid point. *)
Definition rowZ (start : Z) (n : nat) : Mat Z :=
  mkMat 1 (map (fun j => [(start + Z.of_nat j)%Z]) (seq 0 n)).

Definition guessVariables (slackBlock : Mat Z) : Variables (Mat Z) :=
  let v := vset vempty initial_time (ofScalar 0%Z) in
  let v := vset v final_time (ofScalar 1%Z) in
  let v := vset v states (mkMat 2 (map (fun j => [Z.of_nat j; 1%Z]) (seq 0 9))) in
  let v := vset v controls (rowZ 92 9) in
  let v := vset v multipliers (rowZ 30 9) in
  let v := vset v derivatives (rowZ 40 9) in
  let v := vset v parameters (ofScalar 1%Z) in
  vset v slacks slackBlock.

Definition guessHS (slackColumns : nat) : Iterate Z :=
  mkIterate (guessVariables (rowZ 70 slackColumns)) gridHS ["q"; "u"] ["tau"] ["lambda"] []
    ["gamma"] ["mass"].

(** A guess for the problem without slack variables: the slack block has
    no row. *)
Definition guessNoSlacks : Iterate Z :=
  mkIterate (guessVariables (mkMat 0 [[]; []; []; []])) gridHS ["q"; "u"] ["tau"]
    ["lambda"] [] [] ["mass"].

(** Values of the constraints of the problem: four defect rows on the four
    mesh intervals, one kinematic row and a path constraint with two rows
    on the five mesh points. *)
Definition constraintsHS : Constraints (Mat Z) :=
  mkConstraints
    (mkMat 4 [[0; 0; 0; 0]; [-5; 0; 0; 0]; [1; 0; 0; 0]; [0; 0; 0; 0]]%Z)
    (mkMat 1 [[0]; [0]; [0]; [0]; [0]; [0]; [0]; [0]; [0]]%Z)
    (mkMat 1 [[0]; [0]; [2]; [0]; [0]]%Z)
    [mkMat 2 [[0; 0]; [0; 1]; [0; 0]; [0; 0]; [0; 0]]%Z].

(** *** The states of the instance *)

(** The value of a computation that succeeds. *)
Definition fromOk {A} (m : Exc A) : succeeds m = true -> A :=
  match m as m' return succeeds m' = true -> A with
  | inr a => fun _ => a
  | inl _ => fun H => match Bool.diff_false_true H return A with end
  end.

Definition layOutHS (p : Problem Z FunctionZ) (implicit minimize : bool)
  : Exc (Transcription Z Z FunctionZ) :=
  createVariablesAndSetBounds (collab := collabZ false) p (solverHS implicit minimize)
    gridHS 4.

(** Implicit dynamics, velocity correction enforced, multipliers minimized. *)
Definition stateImplicit : Transcription Z Z FunctionZ :=
  Eval vm_compute in fromOk (layOutHS (problemHS true) true true) eq_refl.

Definition transcribedImplicit : Transcription Z Z FunctionZ :=
  Eval vm_compute in fromOk (transcribe (collab := collabZ false) stateImplicit) eq_refl.

(** Explicit dynamics, no velocity correction, multipliers not minimized. *)
Definition stateExplicit : Transcription Z Z FunctionZ :=
  Eval vm_compute in fromOk (layOutHS (problemHS false) false false) eq_refl.

Definition transcribedExplicit : Transcription Z Z FunctionZ :=
  Eval vm_compute in fromOk (transcribe (collab := collabZ false) stateExplicit) eq_refl.

(** The problem without slack variables, explicit dynamics. *)
Definition stateNoSlacks : Transcription Z Z FunctionZ :=
  Eval vm_compute in fromOk (layOutHS (problemNoSlacks false) false true) eq_refl.

(** The state [setObjective] leaves. *)
Definition objectiveImplicit : Transcription Z Z FunctionZ :=
  Eval vm_compute in fromOk (setObjective (collab := collabZ false) stateImplicit) eq_refl.

(** The times of the resampled guess, and the resampled guess. *)
Definition guessTimesHS : Mat Z :=
  Eval vm_compute in fromOk (createTimesDM gridHS (ofScalar 0%Z) (ofScalar 1%Z)) eq_refl.

Definition resampledHS (slackColumns : nat) : Iterate Z :=
  fromOk (resample (Collaborators := collabZ false) (guessHS slackColumns) guessTimesHS)
    eq_refl.

(** The failure report of the problem without slack variables. *)
Definition reportNoSlacks : Report (D := Z) :=
  Eval vm_compute in
    fromOk (printConstraintValues stateNoSlacks guessNoSlacks constraintsHS) eq_refl.

(** The largest absolute value of a row and the first index at which it is
    attained, as spec section 4.10 words the L1 column of a norm table. *)
Definition maxAbs (v : list Z) : Z := fold_right Z.max 0%Z (map Z.abs v).

Fixpoint firstIndexOf (x : Z) (v : list Z) : nat :=
  match v with
  | [] => 0
  | y :: rest => if (Z.abs y =? x)%Z then 0 else S (firstIndexOf x rest)
  end.

Definition argmaxAbs (v : list Z) : nat := firstIndexOf (maxAbs v) v.

(* ================================================================== *)
(** * The vocabulary of the properties *)

(** The sum of a list of integers. *)
Definition sumZ (l : list Z) : Z := fold_right Z.add 0%Z l.

Definition internalError : Exception := OpenSimException "Internal error.".
Definition outOfBounds : Exception := CasadiException "out of bounds".

Section Vocabulary.
Context {D E F : Type} {num : Numeric D} {sym : Symbolic D E}.
Context {scheme : Scheme D E F} {collab : Collaborators D E F}.
Implicit Types (t : Transcription D E F).

(** The members that [transcribe] does not write. *)
Definition layout t : Transcription D E F :=
  mkTranscription (m_problem t) (m_solver t) (m_numMeshPoints t) (m_numGridPoints t)
    (m_numMeshIntervals t) (m_numPointsIgnoringConstraints t) (m_numDefectsPerGridPoint t)
    (m_numResiduals t) (m_numConstraints t) (m_grid t) (m_vars t) (m_duration t) (m_times t)
    (m_paramsTrajGrid t) (m_paramsTraj t) (m_paramsTrajIgnoringConstraints t)
    (m_kinematicConstraintIndices t) (m_gridIndices t) (m_daeIndices t)
    (m_daeIndicesIgnoringConstraints t) (m_lowerBounds t) (m_upperBounds t)
    emptyMat (mkConstraints emptyMat emptyMat emptyMat [])
    (mkConstraints emptyMat emptyMat emptyMat [])
    (mkConstraints emptyMat emptyMat emptyMat []) ezero [].

(** The call of [evalOnTrajectory] that corrects the velocities. *)
Definition velocityCorrectionCall : EvalCall :=
  (VelocityCorrection, [multibody_states; slacks], ref_daeIndicesIgnoringConstraints).

(** The condition under which [transcribe] corrects the velocities. *)
Definition correctsVelocity t : bool :=
  getEnforceConstraintDerivatives (m_problem t) &&
  negb (m_numPointsIgnoringConstraints t =? 0)%Z.

(** Calls of [evalOnTrajectory] on a function other than the velocity
    correction. *)
Definition otherCalls (calls : list EvalCall) : Prop :=
  Forall (fun c => fst (fst c) <> VelocityCorrection) calls.

(** The grid columns whose mask entry is 1. *)
Definition isMeshColumn (mask : Mat D) (i : nat) : bool :=
  match entryLin mask i with
  | inr x => deqb x d1
  | inl _ => false
  end.

(** The grid columns whose mask entry is not zero. *)
Definition isNonzeroColumn (mask : Mat D) (i : nat) : bool :=
  match entryLin mask i with
  | inr x => negb (deqb x d0)
  | inl _ => false
  end.

(** A mask of zeros and ones: the test [== 1] of
    [createVariablesAndSetBounds] and the test [__nonzero__] of [solve]
    agree on every entry. *)
Definition binaryMask (mask : Mat D) : bool :=
  forallb (fun x => Bool.eqb (deqb x d1) (negb (deqb x d0))) (entries mask).

(** What [evalOnTrajectory] does once the parameters block is chosen. *)
Definition evalWithParams t (f : F) (inputs : list Var) (timeIndices : list nat)
  (params : Mat E) : Exc (list (Mat E)) :=
  time <- timesAt t timeIndices ;;
  ins <- mapM (trajectoryInput t timeIndices) inputs ;;
  Function_call
    (Function_map f (length timeIndices)
       (fst (getParallelism (m_solver t))) (snd (getParallelism (m_solver t))))
    (time :: ins ++ [params]).

(** Every failure of a read of [print_bounds] is the same exception. *)
Definition boundsRead (lower values upper : Mat D) (ivar itime : nat)
  : Exc (D * D * D) :=
  L <- entry lower ivar itime ;;
  V <- entry values ivar itime ;;
  U <- entry upper ivar itime ;;
  ret (L, V, U).

(** The sum of [f 0], ..., [f (n - 1)]. *)
Definition bigsum (n : nat) (f : nat -> E) : E := esum (map f (seq 0 n)).

(** The quadrature coefficient of grid point [j]. *)
Definition quadCoeff (j : nat) : D :=
  nth j (column (createQuadratureCoefficients (D := D)) 0) d0.

(** Entry [j] of a row of expressions. *)
Definition rowEntry (row : Mat E) (j : nat) : E := nth 0 (column row j) ezero.

(** The multipliers at grid point [j]. *)
Definition multipliersAt t (j : nat) : list E :=
  match m_vars t multipliers with
  | Some mults => column mults j
  | None => []
  end.

(** The objective as spec section 4.7 has it, for the integrand row
    [integrand] and the endpoint cost [phi]:
    J = (t_f - t_0) q^T l + Phi + w sum lambda^2, the last term only when
    the multipliers are minimized; the sum of squares runs over all
    multiplier entries. *)
Definition specObjective t (integrand : Mat E) (phi : E) : E :=
  let quadrature :=
    bigsum (size2 integrand)
      (fun j => emul (econst (quadCoeff j)) (rowEntry integrand j)) in
  let base := eadd (emul (m_duration t) quadrature) phi in
  if minimizesMultipliers t then
    eadd base
      (emul (econst (getLagrangeMultiplierWeight (m_solver t)))
         (esum (map esq (match m_vars t multipliers with
                         | Some mults => entries mults
                         | None => []
                         end))))
  else base.

(** The objective as [setObjective] builds it: the weighted sum of the
    squared multipliers of grid point [j] is added to the integrand at [j],
    inside the quadrature. *)
Definition codeObjective t (integrand : Mat E) (phi : E) : E :=
  let regularized j :=
    if minimizesMultipliers t then
      eadd (rowEntry integrand j)
        (emul (econst (getLagrangeMultiplierWeight (m_solver t)))
           (esum (map esq (multipliersAt t j))))
    else rowEntry integrand j in
  eadd
    (emul (m_duration t)
       (bigsum (size2 integrand)
          (fun j => emul (econst (quadCoeff j)) (regularized j))))
    phi.

End Vocabulary.

(* ================================================================== *)
(** * The vocabulary of the further properties *)

Section ReportVocabulary.
Context {D : Type} {num : Numeric D}.

(** The cases of [boundCase] for which [print_bounds] prints a line. *)
Definition isShown (c : BoundCase) : bool :=
  match c with Active | Violated => true | _ => false end.

(** The lines of one row of a table: one for every time at which the value
    is not strictly inside its bounds, unless lower == value == upper. *)
Definition linesOfRow (read : nat -> Exc (D * D * D)) (time : nat -> Exc D)
  (ivar : nat) (label : option string) (itimes : list nat) : list BoundRow :=
  flat_map (fun itime =>
              match read itime, time itime with
              | inr (L, V, U), inr tm =>
                  if isShown (boundCase L V U)
                  then [mkBoundRow ivar label tm L V U (dleb V L) (dleb U V)
                          (dltb V L || dltb U V)]
                  else []
              | _, _ => []
              end) itimes.

(** The lines of all rows of [values] at all entries of [tm], row after
    row. *)
Definition boundLines (names : list string) (tm values lower upper : Mat D)
  : list BoundRow :=
  flat_map (fun ivar =>
              linesOfRow (boundsRead lower values upper ivar) (entryLin tm) ivar
                (nth_error names ivar) (seq 0 (numel tm)))
    (seq 0 (size1 values)).

(** The three reads of [printParameterBounds] for one row. *)
Definition parameterRead (lower values upper : Mat D) (ivar : nat) : Exc (D * D * D) :=
  L <- entryLin lower ivar ;;
  V <- entryLin values ivar ;;
  U <- entryLin upper ivar ;;
  ret (L, V, U).

(** The lines of a table of [printParameterBounds]: one for every row
    whose value is not strictly inside its bounds, unless
    lower == value == upper. *)
Definition parameterLines (names : list string) (values lower upper : Mat D)
  : list BoundRow :=
  flat_map (fun ivar =>
              linesOfRow (fun _ => parameterRead lower values upper ivar)
                (fun _ => ret d0) ivar (nth_error names ivar) [0])
    (seq 0 (size1 values)).

(** A bound is active or violated at an index; a bound is violated at an
    index. *)
Definition shownAt (read : nat -> Exc (D * D * D)) (itime : nat) : bool :=
  match read itime with
  | inr (L, V, U) => isShown (boundCase L V U)
  | inl _ => false
  end.

Definition violatedAt (read : nat -> Exc (D * D * D)) (itime : nat) : bool :=
  match read itime with
  | inr (L, V, U) => match boundCase L V U with Violated => true | _ => false end
  | inl _ => false
  end.

(** The summary that belongs to a list of lines. *)
Definition summaryOfLines (rows : list (@BoundRow D)) : BoundsSummary :=
  match rows with
  | [] => NoBoundsActiveOrViolated
  | _ => if existsb (@br_star D) rows then SomeActiveOrViolated
         else SomeActiveNoneViolated
  end.
End ReportVocabulary.

(* ================================================================== *)
(** * The name column of the report and the guess from the bounds *)

(* ------------------------------------------------------------------ *)
(** *** The width of the name column *)

(** [std::max_element(first, last, compareSize)] from the first element
    on: the running largest element is replaced by a later element of a
    strictly larger size. *)
Fixpoint max_element (largest : string) (rest : list string) : string :=
  match rest with
  | [] => largest
  | s :: rest' =>
      if String.length largest <? String.length s then max_element s rest'
      else max_element largest rest'
  end.

(** The lambda [updateMaxNameLength] of [printConstraintValues], on the
    local [maxNameLength]. *)
Definition updateMaxNameLength (maxNameLength : nat) (names : list string) : nat :=
  match names with
  | [] => maxNameLength
  | first :: rest => String.length (max_element first rest)
  end.

(** [maxNameLength] when the tables of the variables are printed: after
    the five calls at the head of [printConstraintValues]. *)
Definition variableNameWidth {D} (it : Iterate D) : nat :=
  let maxNameLength := 0 in
  let maxNameLength := updateMaxNameLength maxNameLength (state_names it) in
  let maxNameLength := updateMaxNameLength maxNameLength (control_names it) in
  let maxNameLength := updateMaxNameLength maxNameLength (multiplier_names it) in
  let maxNameLength := updateMaxNameLength maxNameLength (derivative_names it) in
  updateMaxNameLength maxNameLength (slack_names it).

(** [maxNameLength] when the tables of the time and parameter bounds are
    printed. *)
Definition parameterNameWidth {D} (it : Iterate D) : nat :=
  let maxNameLength := 0 in
  let maxNameLength := updateMaxNameLength maxNameLength (parameter_names it) in
  updateMaxNameLength maxNameLength time_names.

(* ------------------------------------------------------------------ *)
(** *** createInitialGuessFromBounds *)

(** What [createInitialGuessFromBounds] asks of a [double] besides the
    operations of [Numeric]. *)
Class Floating (D : Type) : Type := {
  (* 0.5 * x *)
  dhalve : D -> D;
  (* std::isinf *)
  disinf : D -> bool
}.

(** [m(i, j) = x] for two scalar indices. *)
Definition setEntry {T} (m : Mat T) (i j : nat) (x : T) : Exc (Mat T) :=
  match nth_error (cols m) j with
  | Some c =>
      if i <? length c
      then ret (mkMat (size1 m) (replaceNth j (replaceNth i x c) (cols m)))
      else throw (CasadiException "out of bounds")
  | None => throw (CasadiException "out of bounds")
  end.

Section GuessFromBounds.
Context {D E F : Type} {num : Numeric D} {fl : Floating D}.
Context {collab : Collaborators D E F}.

(** The value that the lambda [setToMidpoint] writes for the bounds of one
    entry. *)
Definition midpoint (lower upper : D) : D :=
  if negb (disinf lower) && negb (disinf upper) then dhalve (dadd upper lower)
  else if negb (disinf lower) then lower
  else if negb (disinf upper) then upper
  else d0.

(** The inner loop of [setToMidpoint], over the columns of one row. *)
Fixpoint setToMidpointCols (lowerDM upperDM : Mat D) (irow : nat) (icols : list nat)
  (output : Mat D) : Exc (Mat D) :=
  match icols with
  | [] => ret output
  | icol :: rest =>
      lower <- entry lowerDM irow icol ;;
      upper <- entry upperDM irow icol ;;
      output <- setEntry output irow icol (midpoint lower upper) ;;
      setToMidpointCols lowerDM upperDM irow rest output
  end.

(** The outer loop of [setToMidpoint], over the rows. *)
Fixpoint setToMidpointRows (lowerDM upperDM : Mat D) (irows icols : list nat)
  (output : Mat D) : Exc (Mat D) :=
  match irows with
  | [] => ret output
  | irow :: rest =>
      output <- setToMidpointCols lowerDM upperDM irow icols output ;;
      setToMidpointRows lowerDM upperDM rest icols output
  end.

(** The lambda [setToMidpoint]. *)
Definition setToMidpoint (output lowerDM upperDM : Mat D) : Exc (Mat D) :=
  setToMidpointRows lowerDM upperDM (seq 0 (size1 output)) (seq 0 (size2 output)) output.

(** [for (auto& kv : casGuess.variables)]: the entries of the map are
    visited one after the other.  The order in which the map yields its
    keys is not fixed by the source; it is the list [order] here, and a key
    of [order] that the map does not hold is passed over. *)
Fixpoint setVariablesToMidpoint (t : Transcription D E F) (order : list Var)
  (vars : Variables (Mat D)) : Exc (Variables (Mat D)) :=
  match order with
  | [] => ret vars
  | k :: rest =>
      match vars k with
      | None => setVariablesToMidpoint t rest vars
      | Some output =>
          l <- vat (m_lowerBounds t) k ;;
          u <- vat (m_upperBounds t) k ;;
          output <- setToMidpoint output l u ;;
          setVariablesToMidpoint t rest (vset vars k output)
      end
  end.

(** [m[k]] on a map that is not const: a missing key is inserted with a
    default-constructed matrix. *)
Definition vinsertDefault (m : Variables (Mat D)) (k : Var) : Variables (Mat D) :=
  match m k with
  | Some _ => m
  | None => vset m k emptyMat
  end.

Definition createInitialGuessFromBounds (order : list Var) (t : Transcription D E F)
  : Exc (Iterate D) :=
  let casGuess := createIterate (m_problem t) in
  vars <- setVariablesToMidpoint t order (m_lowerBounds t) ;;
  let vars := vinsertDefault vars initial_time in
  let vars := vinsertDefault vars final_time in
  tms <- createTimesDM (m_grid t) (vget vars initial_time) (vget vars final_time) ;;
  ret (mkIterate vars tms (state_names casGuess) (control_names casGuess)
         (multiplier_names casGuess) (derivative_names casGuess)
         (slack_names casGuess) (parameter_names casGuess)).
End GuessFromBounds.

(** The integers as [double]s: [0.5 * x] rounds down, no integer is
    infinite. *)
#[export] Instance FloatingZ : Floating Z := {
  dhalve := fun x => (x / 2)%Z;
  disinf := fun _ => false
}.

(* ------------------------------------------------------------------ *)
(** *** More of the instance *)

(** Every key a map of variables can hold, once. *)
Definition allVars : list Var :=
  [initial_time; final_time; states; controls; multipliers; derivatives; parameters;
   slacks; multibody_states].

(** A problem with two coordinates and one speed. *)
Definition problemQuaternion : Problem Z FunctionZ :=
  let p := problemHS false in
  mkProblem 2 (getNumSpeeds p) (getNumStates p) (getNumControls p)
    (getNumMultipliers p) (getNumDerivatives p) (getNumSlacks p) (getNumParameters p)
    (getNumKinematicConstraintEquations p) (getEnforceConstraintDerivatives p)
    (getTimeInitialBounds p) (getTimeFinalBounds p) (getStateInfos p) (getControlInfos p)
    (getMultiplierInfos p) (getSlackInfos p) (getParameterInfos p)
    (getKinematicConstraintBounds p) (getPathConstraintInfos p) (getMultibodySystem p)
    (getMultibodySystemIgnoringConstraints p) (getImplicitMultibodySystem p)
    (getImplicitMultibodySystemIgnoringConstraints p) (getVelocityCorrection p)
    (getIntegralCostIntegrand p) (getEndpointCost p).

Definition stateQuaternion : Transcription Z Z FunctionZ :=
  Eval vm_compute in fromOk (layOutHS problemQuaternion false false) eq_refl.
Definition objectiveQuaternion : Transcription Z Z FunctionZ :=
  Eval vm_compute in fromOk (setObjective (collab := collabZ false) stateQuaternion) eq_refl.

(** The guess with nine slack columns, adjusted. *)
Definition adjustedHS : Iterate Z :=
  Eval vm_compute in fromOk (adjustSlackGuess transcribedImplicit (resampledHS 9)) eq_refl.

(** What [solve] returns when the solver reports success. *)
Definition solvedHS : SolveOutput (D := Z) :=
  Eval vm_compute in
    fromOk (solve (collab := collabZ true) stateImplicit (guessHS 9)) eq_refl.

(** The guess from the bounds of the implicit problem. *)
Definition guessFromBoundsHS : Iterate Z :=
  Eval vm_compute in
    fromOk (createInitialGuessFromBounds (collab := collabZ false) allVars stateImplicit)
      eq_refl.

(** One row at two times: a violated upper bound, then an active lower
    bound. *)
Definition twoTimes : Mat Z := mkMat 1 [[0]; [1]]%Z.
Definition rowValues : Mat Z := mkMat 1 [[5]; [0]]%Z.
Definition rowLower : Mat Z := mkMat 1 [[0]; [0]]%Z.
Definition rowUpper : Mat Z := mkMat 1 [[3]; [3]]%Z.
Definition rowTable : BoundsTable (D := Z) :=
  Eval vm_compute in
    fromOk (print_bounds "Control bounds" ["tau"] twoTimes rowValues rowLower rowUpper)
      eq_refl.

(** The two times of an iterate with a final time above its bound. *)
Definition timeValuesW : Mat Z := mkMat 2 [[0; 9]]%Z.
Definition timeLowerW : Mat Z := mkMat 2 [[0; 1]]%Z.
Definition timeUpperW : Mat Z := mkMat 2 [[0; 5]]%Z.
Definition timeTable : BoundsTable (D := Z) :=
  Eval vm_compute in
    fromOk (printParameterBounds "Time bounds" time_names timeValuesW timeLowerW timeUpperW)
      eq_refl.

(* ================================================================== *)
(** * Properties *)

(** ** The error monad *)

Lemma bind_ok {A B} (m : Exc A) (k : A -> Exc B) (b : B) :
  bind m k = inr b -> exists a, m = inr a /\ k a = inr b.
Proof. destruct m as [e|a]; simpl; [discriminate | eauto]. Qed.

(** Splits a hypothesis [(x <- m ;; k) = inr r] into [m = inr x] and
    [k x = inr r]. *)
Ltac bind_inv H :=
  let a := fresh "v" in
  let Ha := fresh "Hv" in
  apply bind_ok in H; destruct H as (a & Ha & H).

Tactic Notation "unbind" hyp(H) "as" simple_intropattern(x) ident(Hx) :=
  apply bind_ok in H; destruct H as (x & Hx & H).

Ltac ret_inv H := unfold ret in H; injection H as H.

Lemma mapM_length {A B} (f : A -> Exc B) (l : list A) (r : list B) :
  mapM f l = inr r -> length r = length l.
Proof.
  revert r; induction l as [|a l IH]; simpl; intros r H.
  - ret_inv H. now subst.
  - bind_inv H. bind_inv H. ret_inv H. subst. simpl. f_equal. eauto.
Qed.

(* ------------------------------------------------------------------ *)
(** ** Rows of a column *)

Section ColumnFacts.
Context {T : Type}.
Implicit Types (c v : list T).

Lemma sliceRows_length r0 r1 c :
  r1 <= length c -> length (sliceRows r0 r1 c) = r1 - r0.
Proof. intros H. unfold sliceRows. rewrite length_firstn, length_skipn. lia. Qed.

Lemma setRows_length r0 v c :
  r0 + length v <= length c -> length (setRows r0 v c) = length c.
Proof.
  intros H. unfold setRows.
  rewrite !length_app, length_firstn, length_skipn. lia.
Qed.

Lemma nth_error_sliceRows r0 r1 c i :
  nth_error (sliceRows r0 r1 c) i =
  if i <? r1 - r0 then nth_error c (r0 + i) else None.
Proof. unfold sliceRows. now rewrite nth_error_firstn, nth_error_skipn. Qed.

Lemma nth_error_setRows_below r0 v c k :
  r0 + length v <= length c -> k < r0 ->
  nth_error (setRows r0 v c) k = nth_error c k.
Proof.
  intros H Hk. unfold setRows.
  rewrite nth_error_app1 by (rewrite length_firstn; lia).
  rewrite nth_error_firstn.
  destruct (Nat.ltb_spec k r0); [reflexivity | lia].
Qed.

Lemma nth_error_setRows_above r0 v c k :
  r0 + length v <= length c -> r0 + length v <= k ->
  nth_error (setRows r0 v c) k = nth_error c k.
Proof.
  intros H Hk. unfold setRows.
  rewrite nth_error_app2 by (rewrite length_firstn; lia).
  rewrite nth_error_app2 by (rewrite length_firstn; lia).
  rewrite nth_error_skipn, length_firstn. f_equal. lia.
Qed.

Lemma nth_error_setRows_inside r0 v c i :
  r0 + length v <= length c -> i < length v ->
  nth_error (setRows r0 v c) (r0 + i) = nth_error v i.
Proof.
  intros H Hi. unfold setRows.
  rewrite nth_error_app2 by (rewrite length_firstn; lia).
  rewrite length_firstn.
  rewrite nth_error_app1 by lia.
  f_equal. lia.
Qed.

(** Reading back the rows just written. *)
Lemma sliceRows_setRows_same r0 r1 v c :
  length v = r1 - r0 -> r0 <= r1 -> r1 <= length c ->
  sliceRows r0 r1 (setRows r0 v c) = v.
Proof.
  intros Hv H0 H1. apply nth_error_ext. intros i.
  rewrite nth_error_sliceRows.
  destruct (Nat.ltb_spec i (r1 - r0)).
  - apply nth_error_setRows_inside; lia.
  - symmetry. apply nth_error_None. lia.
Qed.

(** Rows outside the written range keep their entries. *)
Lemma sliceRows_setRows_other a b r0 v c :
  r0 + length v <= length c -> b <= r0 \/ r0 + length v <= a ->
  sliceRows a b (setRows r0 v c) = sliceRows a b c.
Proof.
  intros H Hd. apply nth_error_ext. intros i.
  rewrite !nth_error_sliceRows.
  destruct (Nat.ltb_spec i (b - a)); [|reflexivity].
  destruct Hd.
  - apply nth_error_setRows_below; lia.
  - apply nth_error_setRows_above; lia.
Qed.

Lemma sliceRows_all c : sliceRows 0 (length c) c = c.
Proof. unfold sliceRows. simpl. rewrite Nat.sub_0_r. apply firstn_all. Qed.

Lemma sliceRows_sliceRows a b a' b' c :
  a' <= b' -> b' <= b - a ->
  sliceRows a' b' (sliceRows a b c) = sliceRows (a + a') (a + b') c.
Proof.
  intros H1 H2. apply nth_error_ext. intros i.
  rewrite !nth_error_sliceRows.
  replace (a + b' - (a + a')) with (b' - a') by lia.
  destruct (Nat.ltb_spec i (b' - a')); [|reflexivity].
  destruct (Nat.ltb_spec (a' + i) (b - a)); [|lia].
  f_equal. lia.
Qed.
End ColumnFacts.

(* ------------------------------------------------------------------ *)
(** ** Replacing and assigning columns *)

Section AssignFacts.
Context {T : Type}.
Implicit Types (cs src : list (list T)) (idx : list nat).

Lemma replaceNth_length {A} j (x : A) (l : list A) :
  length (replaceNth j x l) = length l.
Proof.
  revert j; induction l as [|y l IH]; intros [|j]; simpl; auto.
Qed.

Lemma nth_replaceNth_same {A} j (x d : A) (l : list A) :
  j < length l -> nth j (replaceNth j x l) d = x.
Proof.
  revert j; induction l as [|y l IH]; intros [|j]; simpl; intros H;
    try lia; auto. apply IH. lia.
Qed.

Lemma nth_replaceNth_other {A} j k (x d : A) (l : list A) :
  j <> k -> nth k (replaceNth j x l) d = nth k l d.
Proof.
  revert j k; induction l as [|y l IH]; intros [|j] [|k]; simpl; intros H;
    try reflexivity; try congruence. apply IH. congruence.
Qed.

Lemma Forall_replaceNth {A} (P : A -> Prop) j (x : A) (l : list A) :
  Forall P l -> P x -> Forall P (replaceNth j x l).
Proof.
  intros Hl Hx. revert j; induction Hl; intros [|j]; simpl; auto.
Qed.

Lemma assignCols_length r0 idx src cs :
  length (assignCols r0 idx src cs) = length cs.
Proof.
  revert src cs; induction idx as [|j idx IH]; intros [|v src] cs; simpl; auto.
  rewrite IH. apply replaceNth_length.
Qed.

(** Well-formed columns stay well formed. *)
Lemma assignCols_wf n r0 idx src cs :
  Forall (fun c => length c = n) cs ->
  Forall (fun v => r0 + length v <= n) src ->
  Forall (fun c => length c = n) (assignCols r0 idx src cs).
Proof.
  revert src cs; induction idx as [|j idx IH]; intros [|v src] cs Hcs Hsrc;
    simpl; auto.
  inversion Hsrc; subst. apply IH; auto.
  destruct (Nat.lt_ge_cases j (length cs)) as [Hj|Hj].
  - apply Forall_replaceNth; auto.
    rewrite setRows_length.
    + rewrite Forall_forall in Hcs. apply Hcs. now apply nth_In.
    + rewrite Forall_forall in Hcs. rewrite (Hcs (nth j cs [])); auto.
      now apply nth_In.
  - replace (replaceNth j (setRows r0 v (nth j cs [])) cs) with cs; auto.
    clear - Hj. revert j Hj; induction cs as [|c cs IHc]; intros [|j] Hj;
      simpl in *; auto; try lia. f_equal. apply IHc. lia.
Qed.

(** A column that is not assigned keeps its entries. *)
Lemma assignCols_other r0 idx src cs j :
  ~ In j idx -> nth j (assignCols r0 idx src cs) [] = nth j cs [].
Proof.
  revert src cs; induction idx as [|k idx IH]; intros [|v src] cs Hj;
    simpl; auto.
  rewrite IH by (intros H; apply Hj; now right).
  apply nth_replaceNth_other. intros ->. apply Hj. now left.
Qed.

(** The column assigned at position [k] of a duplicate-free index list. *)
Lemma assignCols_at r0 idx src cs k :
  NoDup idx -> length src = length idx ->
  Forall (fun j => j < length cs) idx -> k < length idx ->
  nth (nth k idx 0) (assignCols r0 idx src cs) [] =
  setRows r0 (nth k src []) (nth (nth k idx 0) cs []).
Proof.
  revert src cs k; induction idx as [|j idx IH]; intros [|v src] cs k Hnd Hlen Hr Hk;
    simpl in *; try lia; try discriminate.
  inversion Hnd; subst. inversion Hr; subst.
  destruct k as [|k].
  - rewrite assignCols_other by assumption.
    now apply nth_replaceNth_same.
  - rewrite IH; try assumption; try lia.
    + f_equal. apply nth_replaceNth_other.
      intros ->. apply H1. apply nth_In. lia.
    + rewrite replaceNth_length. assumption.
Qed.

(** Rows outside the assigned range keep their entries, in every column. *)
Lemma assignCols_rows n a b r0 idx src cs j :
  Forall (fun c => length c = n) cs ->
  Forall (fun v => r0 + length v <= n /\ (b <= r0 \/ r0 + length v <= a)) src ->
  sliceRows a b (nth j (assignCols r0 idx src cs) []) = sliceRows a b (nth j cs []).
Proof.
  revert src cs; induction idx as [|k idx IH]; intros [|v src] cs Hcs Hsrc;
    simpl; auto.
  inversion Hsrc as [|? ? [Hv Hd] Hsrc']; subst.
  destruct (Nat.lt_ge_cases k (length cs)) as [Hk|Hk].
  - assert (Hck : length (nth k cs []) = n).
    { rewrite Forall_forall in Hcs. apply Hcs. now apply nth_In. }
    rewrite IH; auto.
    + destruct (Nat.eq_dec k j) as [->|Hne].
      * rewrite nth_replaceNth_same by assumption.
        apply sliceRows_setRows_other; lia.
      * now rewrite nth_replaceNth_other.
    + apply Forall_replaceNth; auto. rewrite setRows_length; lia.
  - replace (replaceNth k (setRows r0 v (nth k cs [])) cs) with cs; auto.
    clear - Hk. revert k Hk; induction cs as [|c cs IHc]; intros [|k] Hk;
      simpl in *; auto; try lia. f_equal. apply IHc. lia.
Qed.
End AssignFacts.

(* ------------------------------------------------------------------ *)
(** ** Reading and writing blocks of a matrix *)

Section BlockFacts.
Context {T : Type}.
Implicit Types (m u src : Mat T) (idx : list nat).

Lemma hasShape_true m r c :
  hasShape m r c = true ->
  size1 m = r /\ size2 m = c /\ Forall (fun col => length col = r) (cols m).
Proof.
  unfold hasShape. rewrite !andb_true_iff, !Nat.eqb_eq, forallb_forall.
  intros [[H1 H2] H3]. repeat split; auto.
  apply Forall_forall. intros x Hx. apply Nat.eqb_eq. auto.
Qed.

Lemma wf_hasShape m : wf m -> hasShape m (size1 m) (size2 m) = true.
Proof.
  intros H. unfold hasShape. rewrite !Nat.eqb_refl. simpl.
  apply forallb_forall. intros x Hx. apply Nat.eqb_eq.
  unfold wf in H. rewrite Forall_forall in H. auto.
Qed.

Lemma inRange_true m idx :
  inRange m idx = true <-> Forall (fun j => j < size2 m) idx.
Proof.
  unfold inRange. rewrite forallb_forall, Forall_forall.
  split; intros H x Hx; apply Nat.ltb_lt; auto.
Qed.

Lemma inRange_size m m' idx : size2 m = size2 m' -> inRange m idx = inRange m' idx.
Proof. unfold inRange. now intros ->. Qed.

Lemma column_length m j : wf m -> j < size2 m -> length (column m j) = size1 m.
Proof.
  intros H Hj. unfold wf in H. rewrite Forall_forall in H.
  apply H. now apply nth_In.
Qed.

Lemma fill_wf (x : T) r c : wf (fill x r c).
Proof.
  unfold wf, fill. simpl. apply Forall_forall. intros col Hc.
  apply repeat_spec in Hc. subst. apply repeat_length.
Qed.

Lemma fill_size2 (x : T) r c : size2 (fill x r c) = c.
Proof. unfold size2, fill. simpl. apply repeat_length. Qed.

(** What a successful [setSub] says about its arguments and its result. *)
Lemma setSub_ok m r0 r1 idx src m' :
  setSub m r0 r1 idx src = inr m' ->
  r0 <= r1 /\ r1 <= size1 m /\ Forall (fun j => j < size2 m) idx /\
  size1 src = r1 - r0 /\ length (cols src) = length idx /\
  Forall (fun c => length c = r1 - r0) (cols src) /\
  m' = mkMat (size1 m) (assignCols r0 idx (cols src) (cols m)).
Proof.
  unfold setSub.
  destruct ((r0 <=? r1) && (r1 <=? size1 m) && inRange m idx) eqn:Hc;
    [|discriminate].
  destruct (hasShape src (r1 - r0) (length idx)) eqn:Hs; [|discriminate].
  intros H. ret_inv H. subst m'.
  apply andb_true_iff in Hc as [Hc Hr]. apply andb_true_iff in Hc as [H0 H1].
  apply Nat.leb_le in H0, H1. apply inRange_true in Hr.
  apply hasShape_true in Hs as (? & ? & ?). repeat split; auto.
Qed.

Lemma getSub_ok m a b idx u :
  getSub m a b idx = inr u ->
  a <= b /\ b <= size1 m /\ Forall (fun j => j < size2 m) idx /\
  u = mkMat (b - a) (map (fun j => sliceRows a b (column m j)) idx).
Proof.
  unfold getSub.
  destruct ((a <=? b) && (b <=? size1 m) && inRange m idx) eqn:Hc; [|discriminate].
  intros H. ret_inv H. subst u.
  apply andb_true_iff in Hc as [Hc Hr]. apply andb_true_iff in Hc as [H0 H1].
  apply Nat.leb_le in H0, H1. apply inRange_true in Hr. auto.
Qed.

Lemma getSub_wf m a b idx u : getSub m a b idx = inr u -> wf m -> wf u.
Proof.
  intros H Hm. apply getSub_ok in H as (Ha & Hb & Hr & ->).
  unfold wf. simpl. apply Forall_forall. intros c Hc.
  apply in_map_iff in Hc as (j & <- & Hj).
  apply sliceRows_length. rewrite column_length; auto.
  rewrite Forall_forall in Hr. auto.
Qed.

(** [setSub] keeps the shape. *)
Lemma setSub_shape m r0 r1 idx src m' :
  setSub m r0 r1 idx src = inr m' -> wf m ->
  wf m' /\ size1 m' = size1 m /\ size2 m' = size2 m.
Proof.
  intros H Hm. apply setSub_ok in H as (H0 & H1 & Hr & Hs1 & Hs2 & Hs3 & ->).
  repeat split; simpl; auto.
  - unfold wf. simpl. apply assignCols_wf; auto.
    eapply Forall_impl; [|exact Hs3]. simpl. intros c Hc. lia.
  - unfold size2. simpl. apply assignCols_length.
Qed.

(** Two matrices of one shape that agree on the selected rows and columns
    give the same block. *)
Lemma getSub_ext m m' a b idx :
  size1 m = size1 m' -> size2 m = size2 m' ->
  (forall j, In j idx -> sliceRows a b (column m j) = sliceRows a b (column m' j)) ->
  getSub m a b idx = getSub m' a b idx.
Proof.
  intros H1 H2 Hc. unfold getSub.
  rewrite H1, (inRange_size m m' idx H2).
  destruct ((a <=? b) && (b <=? size1 m') && inRange m' idx); [|reflexivity].
  do 2 f_equal. apply map_ext_in. exact Hc.
Qed.

(** Reading back the block just written. *)
Lemma getSub_setSub_same m r0 r1 idx src m' :
  setSub m r0 r1 idx src = inr m' -> wf m -> NoDup idx ->
  getSub m' r0 r1 idx = inr src.
Proof.
  intros H Hm Hnd.
  pose proof H as Hz; apply setSub_shape in Hz; [|assumption]; destruct Hz as (_ & Hz1 & Hz2).
  apply setSub_ok in H as (H0 & H1 & Hr & Hs1 & Hs2 & Hs3 & Hm').
  unfold getSub. rewrite Hz1, (inRange_size m' m idx Hz2).
  apply Nat.leb_le in H0 as H0', H1 as H1'. rewrite H0', H1'.
  apply inRange_true in Hr as Hr'. rewrite Hr'. simpl. unfold ret. f_equal.
  destruct src as [s1 sc]. simpl in *. subst s1. f_equal.
  apply nth_ext with (d := []) (d' := []).
  - now rewrite length_map.
  - rewrite length_map. intros k Hk.
    rewrite (nth_indep _ [] (sliceRows r0 r1 (column m' 0)))
      by now rewrite length_map.
    rewrite (map_nth (fun j => sliceRows r0 r1 (column m' j))).
    subst m'. unfold column. simpl.
    rewrite assignCols_at; auto.
    apply sliceRows_setRows_same; auto.
    + rewrite Forall_forall in Hs3. apply Hs3. apply nth_In. lia.
    + fold (column m (nth k idx 0)). rewrite column_length; auto.
      rewrite Forall_forall in Hr. apply Hr. now apply nth_In.
Qed.

(** Rows outside the written range are not changed. *)
Lemma getSub_setSub_rows m r0 r1 idx src m' a b idx' :
  setSub m r0 r1 idx src = inr m' -> wf m -> b <= r0 \/ r1 <= a ->
  getSub m' a b idx' = getSub m a b idx'.
Proof.
  intros H Hm Hd.
  pose proof H as Hz; apply setSub_shape in Hz; [|assumption]; destruct Hz as (_ & Hz1 & Hz2).
  apply setSub_ok in H as (H0 & H1 & Hr & Hs1 & Hs2 & Hs3 & Hm').
  apply getSub_ext; auto. intros j _. subst m'. unfold column. simpl.
  apply assignCols_rows with (n := size1 m); auto.
  eapply Forall_impl; [|exact Hs3]. simpl. intros c Hc. lia.
Qed.

(** Columns that are not written are not changed. *)
Lemma getSub_setSub_cols m r0 r1 idx src m' a b idx' :
  setSub m r0 r1 idx src = inr m' -> wf m ->
  (forall j, In j idx' -> ~ In j idx) ->
  getSub m' a b idx' = getSub m a b idx'.
Proof.
  intros H Hm Hd.
  pose proof H as Hz; apply setSub_shape in Hz; [|assumption]; destruct Hz as (_ & Hz1 & Hz2).
  apply setSub_ok in H as (H0 & H1 & Hr & Hs1 & Hs2 & Hs3 & Hm').
  apply getSub_ext; auto. intros j Hj. subst m'. unfold column. simpl.
  rewrite assignCols_other; auto.
Qed.

Lemma column_map_seq (f : nat -> list T) r n j :
  j < n -> column (mkMat r (map f (seq 0 n))) j = f j.
Proof.
  intros Hj. unfold column. simpl.
  rewrite (nth_indep _ [] (f 0)) by now rewrite length_map, length_seq.
  rewrite (map_nth f). now rewrite seq_nth.
Qed.

(** After a write to all columns, a block of the written rows is the
    corresponding block of the source. *)
Lemma getSub_setSub_all m r0 r1 src m' idx' :
  setSub m r0 r1 (allCols m) src = inr m' -> wf m ->
  getSub m' r0 r1 idx' = getSub src 0 (r1 - r0) idx'.
Proof.
  intros H Hm.
  pose proof H as Hz; apply setSub_shape in Hz; [|assumption]; destruct Hz as (_ & Hz1 & Hz2).
  apply setSub_ok in H as (H0 & H1 & Hr & Hs1 & Hs2 & Hs3 & Hm').
  unfold allCols in *. rewrite length_seq in Hs2.
  unfold getSub. rewrite Hz1, Hs1.
  assert (Hin : inRange m' idx' = inRange src idx').
  { apply inRange_size. rewrite Hz2. unfold size2 at 2. now rewrite Hs2. }
  rewrite Hin. apply Nat.leb_le in H0 as H0', H1 as H1'. rewrite H0', H1'.
  rewrite Nat.leb_refl. simpl.
  destruct (inRange src idx') eqn:Hi; [|reflexivity].
  unfold ret. rewrite Nat.sub_0_r. do 2 f_equal.
  apply map_ext_in. intros j Hj.
  apply inRange_true in Hi. rewrite Forall_forall in Hi. specialize (Hi j Hj).
  unfold size2 in Hi. rewrite Hs2 in Hi.
  assert (Hlen : length (column src j) = r1 - r0).
  { rewrite Forall_forall in Hs3. apply Hs3. apply nth_In. now rewrite Hs2. }
  subst m'. unfold column at 1. simpl.
  replace j with (nth j (seq 0 (size2 m)) 0) at 1 by now rewrite seq_nth.
  rewrite assignCols_at.
  - rewrite seq_nth by assumption. simpl.
    rewrite sliceRows_setRows_same; auto.
    + unfold sliceRows. simpl. rewrite Nat.sub_0_r. unfold column in Hlen.
      rewrite <- Hlen at 1. symmetry. apply firstn_all.
    + fold (column m j). rewrite column_length; auto.
  - apply seq_NoDup.
  - now rewrite length_seq.
  - assumption.
  - now rewrite length_seq.
Qed.

(** A block of a block that spans all columns. *)
Lemma getSub_getSub_all m a b u idx' :
  getSub m a b (allCols m) = inr u -> wf m ->
  getSub u 0 (b - a) idx' = getSub m a b idx'.
Proof.
  intros H Hm. apply getSub_ok in H as (Ha & Hb & Hr & ->).
  unfold getSub at 1. simpl.
  assert (Hin : inRange (mkMat (b - a)
                  (map (fun j => sliceRows a b (column m j)) (allCols m))) idx'
                = inRange m idx').
  { apply inRange_size. unfold size2, allCols. simpl.
    now rewrite length_map, length_seq. }
  rewrite Hin, Nat.leb_refl. unfold getSub.
  apply Nat.leb_le in Ha as Ha', Hb as Hb'. rewrite Ha', Hb'. simpl.
  destruct (inRange m idx') eqn:Hi; [|reflexivity].
  unfold ret. rewrite Nat.sub_0_r. do 2 f_equal.
  apply map_ext_in. intros j Hj.
  apply inRange_true in Hi. rewrite Forall_forall in Hi. specialize (Hi j Hj).
  unfold allCols. rewrite column_map_seq by assumption.
  assert (Hl : length (sliceRows a b (column m j)) = b - a).
  { apply sliceRows_length. rewrite column_length; auto. }
  rewrite <- Hl at 1. apply sliceRows_all.
Qed.
End BlockFacts.

(* ------------------------------------------------------------------ *)
(** ** The layout of a Transcription

    [transcribe] writes [m_xdot], the constraints with their bounds and the
    objective; everything else is laid out once by
    [createVariablesAndSetBounds]. *)

Section LayoutFacts.
Context {D E F : Type} {num : Numeric D} {sym : Symbolic D E}.
Context {scheme : Scheme D E F} {collab : Collaborators D E F}.
Implicit Types (t : Transcription D E F).

Lemma evalOnTrajectory_layout t t' f inputs r :
  layout t' = layout t ->
  evalOnTrajectory t' f inputs r = evalOnTrajectory t f inputs r.
Proof.
  intros H.
  change (evalOnTrajectory (layout t') f inputs r = evalOnTrajectory (layout t) f inputs r).
  now rewrite H.
Qed.

Lemma layout_field {A} (g : Transcription D E F -> A) t t' :
  layout t' = layout t -> g (layout t') = g (layout t).
Proof. now intros ->. Qed.

Lemma evalRecorded_ok t which f inputs r out t' :
  evalRecorded t which f inputs r = inr (out, t') ->
  evalOnTrajectory t f inputs r = inr out /\ t' = add_evalCall t (which, inputs, r).
Proof.
  unfold evalRecorded. intros H. bind_inv H.
  unfold ret in H. inversion H. subst. auto.
Qed.
End LayoutFacts.

(* ------------------------------------------------------------------ *)
(** ** The blocks of [transcribe] *)

Section BlockSpecs.
Context {D E F : Type} {num : Numeric D} {sym : Symbolic D E}.
Context {scheme : Scheme D E F} {collab : Collaborators D E F}.
Implicit Types (t : Transcription D E F).

(** [setObjective] records one call and writes the objective. *)
Lemma setObjective_frame t t' :
  setObjective t = inr t' ->
  t' = set_objective
         (add_evalCall t (IntegralCostIntegrand,
                          [states; controls; multipliers; derivatives], ref_gridIndices))
         (m_objective t').
Proof.
  unfold setObjective. intros H.
  unbind H as [out t1] Hc.
  apply evalRecorded_ok in Hc as [_ ->].
  repeat bind_inv H.
  ret_inv H. now subst t'.
Qed.

Lemma MX_zeros_wf r c : wf (MX_zeros (D := D) (E := E) r c).
Proof. apply fill_wf. Qed.

(** [initializeMemory]: the state derivatives are a table of zeros with one
    row per state and one column per grid point; in implicit mode the
    residuals and their bounds are zeros with one row per residual. *)
Lemma initializeMemory_spec t t' :
  initializeMemory t = inr t' ->
  layout t' = layout t /\ m_evalCalls t' = m_evalCalls t /\
  exists G,
    dim (m_numGridPoints t) = inr G /\
    m_xdot t' = MX_zeros (getNumStates (m_problem t)) G /\
    if isDynamicsModeImplicit (m_solver t) then
      exists NR,
        dim (m_numResiduals t) = inr NR /\
        residuals (m_constraints t') = MX_zeros NR G /\
        residuals (m_constraintsLowerBounds t') = DM_zeros NR G /\
        residuals (m_constraintsUpperBounds t') = DM_zeros NR G
    else
      residuals (m_constraints t') = residuals (m_constraints t) /\
      residuals (m_constraintsLowerBounds t') = residuals (m_constraintsLowerBounds t) /\
      residuals (m_constraintsUpperBounds t') = residuals (m_constraintsUpperBounds t).
Proof.
  unfold initializeMemory. intros H.
  unbind H as G HG. unbind H as Nd HNd. unbind H as I HI. unbind H as M HM.
  unbind H as t2 Ht2. simpl in Ht2.
  destruct (isDynamicsModeImplicit (m_solver t)) eqn:Himp.
  - unbind Ht2 as NR HNR. simpl in Ht2. ret_inv Ht2. subst t2. ret_inv H. subst t'.
    simpl. repeat split; auto.
    exists G. repeat split; auto. exists NR. auto.
  - ret_inv Ht2. subst t2. ret_inv H. subst t'.
    simpl. repeat split; auto.
    exists G. repeat split; auto.
Qed.

(** [transcribeQdot]: the speeds are written to the first rows of every
    column; then, if the velocities are corrected, the output of the
    velocity correction is added at the columns that ignore the
    constraints. *)
Lemma transcribeQdot_spec t t' :
  transcribeQdot t = inr t' -> wf (m_xdot t) ->
  let NQ := getNumCoordinates (m_problem t) in
  let NU := getNumSpeeds (m_problem t) in
  layout t' = layout t /\
  m_constraints t' = m_constraints t /\
  m_constraintsLowerBounds t' = m_constraintsLowerBounds t /\
  m_constraintsUpperBounds t' = m_constraintsUpperBounds t /\
  wf (m_xdot t') /\ size1 (m_xdot t') = size1 (m_xdot t) /\
  size2 (m_xdot t') = size2 (m_xdot t) /\
  exists sm u xdot1,
    m_vars t states = Some sm /\
    getSub sm NQ (NQ + NU) (allCols sm) = inr u /\
    setSub (m_xdot t) 0 NQ (allCols (m_xdot t)) u = inr xdot1 /\
    if correctsVelocity t then
      exists out uCorr cur sum,
        evalOnTrajectory t (getVelocityCorrection (m_problem t))
          [multibody_states; slacks] ref_daeIndicesIgnoringConstraints = inr out /\
        vecAt out 0 = inr uCorr /\
        getSub xdot1 0 NQ (m_daeIndicesIgnoringConstraints t) = inr cur /\
        madd cur uCorr = inr sum /\
        setSub xdot1 0 NQ (m_daeIndicesIgnoringConstraints t) sum = inr (m_xdot t') /\
        m_evalCalls t' = m_evalCalls t ++ [velocityCorrectionCall]
    else m_xdot t' = xdot1 /\ m_evalCalls t' = m_evalCalls t.
Proof.
  unfold transcribeQdot. intros H Hwf. simpl.
  unbind H as sm Hsm. unbind H as u Hu. unbind H as xdot1 Hx1.
  assert (Hs : m_vars t states = Some sm).
  { unfold vat in Hsm. destruct (m_vars t states); [|discriminate].
    ret_inv Hsm. now subst. }
  pose proof Hx1 as Hsh. apply setSub_shape in Hsh; [|assumption].
  destruct Hsh as (Hw1 & Hz1 & Hz2).
  unfold correctsVelocity. simpl in H.
  destruct (getEnforceConstraintDerivatives (m_problem t) &&
            negb (m_numPointsIgnoringConstraints t =? 0)%Z) eqn:Hc.
  - unbind H as [out t1] Hev. apply evalRecorded_ok in Hev as [Hev ->].
    simpl in H. unbind H as uCorr HuC. unbind H as cur Hcur.
    unbind H as sum Hsum. unbind H as xdot2 Hx2. ret_inv H. subst t'.
    pose proof Hx2 as Hsh2. apply setSub_shape in Hsh2; [|assumption].
    destruct Hsh2 as (Hw2 & Hy1 & Hy2).
    simpl. repeat split; auto; try congruence.
    exists sm, u, xdot1. repeat split; auto.
    exists out, uCorr, cur, sum. repeat split; auto.
  - ret_inv H. subst t'. simpl. repeat split; auto.
    exists sm, u, xdot1. repeat split; auto.
Qed.

Ltac frame_rows H W :=
  rewrite (@getSub_setSub_rows _ _ _ _ _ _ _ _ _ _ H W) by lia.
Ltac frame_cols H W :=
  rewrite (@getSub_setSub_cols _ _ _ _ _ _ _ _ _ _ H W) by assumption.

Lemma vat_Some {T} (m : Variables T) k x : vat m k = inr x -> m k = Some x.
Proof. unfold vat. destruct (m k); [|discriminate]. intros H. ret_inv H. now subst. Qed.

Lemma allCols_size {T} (m m' : Mat T) : size2 m' = size2 m -> allCols m' = allCols m.
Proof. unfold allCols. now intros ->. Qed.

(** [transcribeImplicit]: the rows of the speeds' derivatives are the
    derivatives block at every column; the first rows are not touched; the
    residuals keep their shape and their bounds. *)
Lemma transcribeImplicit_spec t t' :
  transcribeImplicit t = inr t' ->
  wf (m_xdot t) -> wf (residuals (m_constraints t)) ->
  let NQ := getNumCoordinates (m_problem t) in
  let NU := getNumSpeeds (m_problem t) in
  layout t' = layout t /\
  wf (m_xdot t') /\
  size2 (m_xdot t') = size2 (m_xdot t) /\
  (forall idx, getSub (m_xdot t') 0 NQ idx = getSub (m_xdot t) 0 NQ idx) /\
  (exists w, m_vars t derivatives = Some w /\
             getSub (m_xdot t') NQ (NQ + NU) (allCols (m_xdot t')) = inr w) /\
  wf (residuals (m_constraints t')) /\
  size1 (residuals (m_constraints t')) = size1 (residuals (m_constraints t)) /\
  size2 (residuals (m_constraints t')) = size2 (residuals (m_constraints t)) /\
  m_constraintsLowerBounds t' = m_constraintsLowerBounds t /\
  m_constraintsUpperBounds t' = m_constraintsUpperBounds t /\
  Forall (fun j => j < size2 (m_xdot t)) (m_daeIndices t) /\
  exists extra, m_evalCalls t' = m_evalCalls t ++ extra /\ otherCalls extra.
Proof.
  unfold transcribeImplicit. intros H Hwf Hres. simpl.
  unbind H as w Hw. apply vat_Some in Hw.
  unbind H as x1 Hx1.
  unbind H as [out t1] Hev. apply evalRecorded_ok in Hev as [_ ->]. simpl in H.
  unbind H as o0 Ho0. unbind H as res1 Hr1. unbind H as o1 Ho1.
  unbind H as x2 Hx2. unbind H as o2 Ho2.
  pose proof Hx1 as S1. apply setSub_shape in S1; [|assumption].
  destruct S1 as (W1 & A1 & B1).
  pose proof Hx2 as S2. apply setSub_shape in S2; [|assumption].
  destruct S2 as (W2 & A2 & B2).
  pose proof Hr1 as R1. apply setSub_shape in R1; [|assumption].
  destruct R1 as (RW1 & RA1 & RB1).
  assert (Hin : Forall (fun j => j < size2 (m_xdot t)) (m_daeIndices t)).
  { pose proof Hx2 as K. apply setSub_ok in K. destruct K as (_ & _ & K & _).
    now rewrite B1 in K. }
  assert (G1 : getSub x1 (getNumCoordinates (m_problem t))
                 (getNumCoordinates (m_problem t) + getNumSpeeds (m_problem t))
                 (allCols x1) = inr w).
  { rewrite (allCols_size _ _ B1).
    eapply getSub_setSub_same; eauto. apply seq_NoDup. }
  destruct (negb (m_numPointsIgnoringConstraints t =? 0)%Z).
  - unbind H as [out' t2] Hev'. apply evalRecorded_ok in Hev' as [_ ->]. simpl in H.
    unbind H as p0 Hp0. unbind H as res2 Hr2. unbind H as p1 Hp1.
    unbind H as x3 Hx3. ret_inv H. subst t'. simpl.
    pose proof Hx3 as S3. apply setSub_shape in S3; [|assumption].
    destruct S3 as (W3 & A3 & B3).
    pose proof Hr2 as R2. apply setSub_shape in R2; [|assumption].
    destruct R2 as (RW2 & RA2 & RB2).
    repeat split; auto; try congruence.
    + intros idx.
      rewrite (getSub_setSub_rows _ _ idx Hx3 W2) by lia.
      rewrite (getSub_setSub_rows _ _ idx Hx2 W1) by lia.
      apply (getSub_setSub_rows _ _ idx Hx1 Hwf). lia.
    + exists w. split; auto.
      rewrite (allCols_size _ _ B3), (allCols_size _ _ B2).
      rewrite (getSub_setSub_rows _ _ _ Hx3 W2) by lia.
      rewrite (getSub_setSub_rows _ _ _ Hx2 W1) by lia.
      exact G1.
    + eexists. split.
      * rewrite <- !app_assoc. reflexivity.
      * repeat constructor; simpl; discriminate.
  - ret_inv H. subst t'. simpl.
    repeat split; auto; try congruence.
    + intros idx.
      rewrite (getSub_setSub_rows _ _ idx Hx2 W1) by lia.
      apply (getSub_setSub_rows _ _ idx Hx1 Hwf). lia.
    + exists w. split; auto.
      rewrite (allCols_size _ _ B2).
      rewrite (getSub_setSub_rows _ _ _ Hx2 W1) by lia.
      exact G1.
    + eexists. split; [reflexivity|].
      repeat constructor; simpl; discriminate.
Qed.

(** [transcribeExplicit]: the outputs [udot] and [zdot] of the dynamics are
    written to the rows of the speeds and of the auxiliary states, at the
    columns they were evaluated on; the first rows and the residuals are not
    touched. *)
Lemma transcribeExplicit_spec t t' :
  transcribeExplicit t = inr t' ->
  wf (m_xdot t) ->
  NoDup (m_daeIndices t) -> NoDup (m_daeIndicesIgnoringConstraints t) ->
  (forall j, In j (m_daeIndices t) -> ~ In j (m_daeIndicesIgnoringConstraints t)) ->
  let NQ := getNumCoordinates (m_problem t) in
  let NU := getNumSpeeds (m_problem t) in
  let NS := getNumStates (m_problem t) in
  layout t' = layout t /\
  wf (m_xdot t') /\
  (forall idx, getSub (m_xdot t') 0 NQ idx = getSub (m_xdot t) 0 NQ idx) /\
  (exists out udot zdot,
     evalOnTrajectory t (getMultibodySystem (m_problem t)) dynamicsInputs ref_daeIndices
       = inr out /\
     vecAt out 0 = inr udot /\ vecAt out 1 = inr zdot /\
     getSub (m_xdot t') NQ (NQ + NU) (m_daeIndices t) = inr udot /\
     getSub (m_xdot t') (NQ + NU) NS (m_daeIndices t) = inr zdot) /\
  ((m_numPointsIgnoringConstraints t =? 0)%Z = false ->
   exists out udot zdot,
     evalOnTrajectory t (getMultibodySystemIgnoringConstraints (m_problem t))
       dynamicsInputs ref_daeIndicesIgnoringConstraints = inr out /\
     vecAt out 0 = inr udot /\ vecAt out 1 = inr zdot /\
     getSub (m_xdot t') NQ (NQ + NU) (m_daeIndicesIgnoringConstraints t) = inr udot /\
     getSub (m_xdot t') (NQ + NU) NS (m_daeIndicesIgnoringConstraints t) = inr zdot) /\
  residuals (m_constraints t') = residuals (m_constraints t) /\
  m_constraintsLowerBounds t' = m_constraintsLowerBounds t /\
  m_constraintsUpperBounds t' = m_constraintsUpperBounds t /\
  Forall (fun j => j < size2 (m_xdot t)) (m_daeIndices t) /\
  exists extra, m_evalCalls t' = m_evalCalls t ++ extra /\ otherCalls extra.
Proof.
  unfold transcribeExplicit. intros H Hwf Hnd Hni Hdis. simpl.
  unbind H as [out t1] Hev. apply evalRecorded_ok in Hev as [Hev ->]. simpl in H.
  unbind H as o0 Ho0. unbind H as x1 Hx1. unbind H as o1 Ho1.
  unbind H as x2 Hx2. unbind H as o2 Ho2.
  pose proof Hx1 as S1. apply setSub_shape in S1; [|assumption].
  destruct S1 as (W1 & A1 & B1).
  pose proof Hx2 as S2. apply setSub_shape in S2; [|assumption].
  destruct S2 as (W2 & A2 & B2).
  pose proof Hx1 as L1; apply setSub_ok in L1; destruct L1 as (L1 & _).
  pose proof Hx2 as L2; apply setSub_ok in L2; destruct L2 as (L2 & _).
  assert (Hin : Forall (fun j => j < size2 (m_xdot t)) (m_daeIndices t)).
  { pose proof Hx1 as K. apply setSub_ok in K. now destruct K as (_ & _ & K & _). }
  assert (G1 : getSub x2 (getNumCoordinates (m_problem t))
                 (getNumCoordinates (m_problem t) + getNumSpeeds (m_problem t))
                 (m_daeIndices t) = inr o0).
  { frame_rows Hx2 W1.
    eapply getSub_setSub_same; eauto. }
  assert (G2 : getSub x2 (getNumCoordinates (m_problem t) + getNumSpeeds (m_problem t))
                 (getNumStates (m_problem t)) (m_daeIndices t) = inr o1).
  { eapply getSub_setSub_same; eauto. }
  destruct (m_numPointsIgnoringConstraints t =? 0)%Z eqn:HP; simpl in H.
  - ret_inv H. subst t'. simpl.
    repeat split; auto; try congruence.
    + intros idx.
      frame_rows Hx2 W1.
      frame_rows Hx1 Hwf. reflexivity.
    + exists out, o0, o1. auto.
    + eexists. split; [reflexivity|].
      repeat constructor; simpl; discriminate.
  - unbind H as [out' t2] Hev'. apply evalRecorded_ok in Hev' as [Hev' ->]. simpl in H.
    unbind H as p0 Hp0. unbind H as x3 Hx3. unbind H as p1 Hp1.
    unbind H as x4 Hx4. ret_inv H. subst t'. simpl.
    pose proof Hx3 as S3. apply setSub_shape in S3; [|assumption].
    destruct S3 as (W3 & A3 & B3).
    pose proof Hx4 as S4. apply setSub_shape in S4; [|assumption].
    destruct S4 as (W4 & A4 & B4).
    pose proof Hx3 as L3; apply setSub_ok in L3; destruct L3 as (L3 & _).
    pose proof Hx4 as L4; apply setSub_ok in L4; destruct L4 as (L4 & _).
    repeat split; auto; try congruence.
    + intros idx.
      frame_rows Hx4 W3.
      frame_rows Hx3 W2.
      frame_rows Hx2 W1.
      frame_rows Hx1 Hwf. reflexivity.
    + exists out, o0, o1. repeat split; auto.
      * frame_cols Hx4 W3.
        frame_cols Hx3 W2.
        exact G1.
      * frame_cols Hx4 W3.
        frame_cols Hx3 W2.
        exact G2.
    + intros _. exists out', p0, p1. repeat split; auto.
      * frame_rows Hx4 W3.
        eapply getSub_setSub_same; eauto.
      * eapply getSub_setSub_same; eauto.
    + eexists. split.
      * rewrite <- !app_assoc. reflexivity.
      * repeat constructor; simpl; discriminate.
Qed.

Lemma transcribePath_spec infos : forall t M ipc ps ls us t',
  transcribePath t M ipc infos = inr (ps, ls, us, t') ->
  layout t' = layout t /\ m_xdot t' = m_xdot t /\
  m_constraints t' = m_constraints t /\
  m_constraintsLowerBounds t' = m_constraintsLowerBounds t /\
  m_constraintsUpperBounds t' = m_constraintsUpperBounds t /\
  exists extra, m_evalCalls t' = m_evalCalls t ++ extra /\ otherCalls extra.
Proof.
  induction infos as [|info rest IH]; intros t M ipc ps ls us t' H; simpl in H.
  - unfold ret in H. inversion H; subst. repeat split; auto.
    exists []. split; [now rewrite app_nil_r | constructor].
  - unbind H as [out t1] Hev. apply evalRecorded_ok in Hev as [_ ->].
    unbind H as o0 Ho0. unbind H as [[[ps' ls'] us'] t2] Hrec.
    unfold ret in H. inversion H; subst.
    apply IH in Hrec as (L & X & C & CL & CU & extra & Hc & Ho).
    simpl in *. repeat split; auto.
    exists ((PathConstraint ipc, [states; controls; multipliers; derivatives],
             ref_daeIndices) :: extra).
    split.
    + rewrite Hc. now rewrite <- app_assoc.
    + constructor; [simpl; discriminate | assumption].
Qed.

(** The last blocks write the defects and the path constraints only. *)
Lemma transcribeDefectsAndPath_spec t t' :
  transcribeDefectsAndPath t = inr t' ->
  layout t' = layout t /\ m_xdot t' = m_xdot t /\
  residuals (m_constraints t') = residuals (m_constraints t) /\
  residuals (m_constraintsLowerBounds t') = residuals (m_constraintsLowerBounds t) /\
  residuals (m_constraintsUpperBounds t') = residuals (m_constraintsUpperBounds t) /\
  exists extra, m_evalCalls t' = m_evalCalls t ++ extra /\ otherCalls extra.
Proof.
  unfold transcribeDefectsAndPath. intros H.
  unbind H as d Hd. unbind H as M HM. unbind H as [[[ps ls] us] t1] Hp.
  apply transcribePath_spec in Hp as (L & X & C & CL & CU & extra & Hc & Ho).
  ret_inv H. subst t'. simpl in *.
  rewrite C, CL, CU. simpl. repeat split; auto.
  exists extra. auto.
Qed.

Lemma otherCalls_app (l1 l2 : list EvalCall) :
  otherCalls l1 -> otherCalls l2 -> otherCalls (l1 ++ l2).
Proof. unfold otherCalls. intros. apply Forall_app. auto. Qed.
End BlockSpecs.

(* ------------------------------------------------------------------ *)
(** ** [createVariablesAndSetBounds] *)

Section CreateFacts.
Context {D E F : Type} {num : Numeric D} {sym : Symbolic D E}.
Context {scheme : Scheme D E F} {collab : Collaborators D E F}.
Implicit Types (t : Transcription D E F).

Lemma dim_ok z n : dim z = inr n -> z = Z.of_nat n.
Proof.
  unfold dim. destruct (Z.ltb_spec z 0) as [Hneg|Hpos]; [discriminate|].
  intros Hd. ret_inv Hd. subst n. now rewrite Z2Nat.id.
Qed.

Lemma dim_of_nat n : dim (Z.of_nat n) = inr n.
Proof.
  unfold dim. destruct (Z.ltb_spec (Z.of_nat n) 0) as [Hneg|Hpos]; [lia|].
  unfold ret. now rewrite Nat2Z.id.
Qed.

Lemma splitIndices_spec mask range : forall dae ign dae' ign',
  splitIndices mask range dae ign = inr (dae', ign') ->
  dae' = dae ++ filter (isMeshColumn mask) range /\
  ign' = ign ++ filter (fun i => negb (isMeshColumn mask i)) range.
Proof.
  induction range as [|i range IH]; intros dae ign dae' ign' H; simpl in H.
  - unfold ret in H. inversion H; subst. now rewrite !app_nil_r.
  - unbind H as x Hx.
    assert (Hm : isMeshColumn mask i = deqb x d1)
      by (unfold isMeshColumn; now rewrite Hx).
    simpl. rewrite Hm. destruct (deqb x d1); simpl.
    + apply IH in H as [-> ->]. now rewrite <- app_assoc.
    + apply IH in H as [-> ->]. now rewrite <- app_assoc.
Qed.

(** What [createVariablesAndSetBounds] lays out. *)
Lemma createVariables_spec (p : Problem D F) (s : Solver D) grid nd t :
  createVariablesAndSetBounds p s grid nd = inr t ->
  let M := Z.of_nat (length (getMesh s)) in
  let G := Z.of_nat (numel grid) in
  let mask := createKinematicConstraintIndices in
  m_problem t = p /\ m_solver t = s /\
  m_numMeshPoints t = M /\ m_numGridPoints t = G /\
  m_numMeshIntervals t = (M - 1)%Z /\
  m_numPointsIgnoringConstraints t = (G - M)%Z /\
  m_numDefectsPerGridPoint t = nd /\
  m_numResiduals t =
    (if isDynamicsModeImplicit s then Z.of_nat (getNumSpeeds p) else 0%Z) /\
  m_numConstraints t =
    fold_left (fun n info => int_add n (int_mul (Z.of_nat (pc_size info)) M))
      (getPathConstraintInfos p)
      (int_add (int_add (int_mul nd (M - 1)) (int_mul (m_numResiduals t) G))
         (int_mul (Z.of_nat (getNumKinematicConstraintEquations p)) M)) /\
  m_kinematicConstraintIndices t = mask /\
  m_gridIndices t = seq 0 (numel grid) /\
  m_daeIndices t = filter (isMeshColumn mask) (seq 0 (size2 mask)) /\
  m_daeIndicesIgnoringConstraints t =
    filter (fun i => negb (isMeshColumn mask i)) (seq 0 (size2 mask)) /\
  m_vars t states = Some (MX_sym "states" (getNumStates p) (numel grid)) /\
  m_vars t derivatives = Some (MX_sym "derivatives" (getNumDerivatives p) (numel grid)) /\
  m_evalCalls t = [] /\
  (0 <= m_numPointsIgnoringConstraints t)%Z.
Proof.
  unfold createVariablesAndSetBounds. intros H.
  unbind H as G HG. unbind H as M HM. unbind H as P HP.
  unbind H as [dae ign] Hsplit.
  apply splitIndices_spec in Hsplit as [Hd Hi]. simpl in Hd, Hi.
  repeat (let b := fresh "b" in let Hb := fresh "Hb" in unbind H as b Hb).
  ret_inv H. subst t. simpl.
  rewrite dim_of_nat in HG. ret_inv HG. subst G.
  apply dim_ok in HP.
  repeat split; auto. lia.
Qed.

Lemma MX_sym_wf name r c : wf (MX_sym (D := D) (E := E) name r c).
Proof.
  unfold wf, MX_sym. simpl. apply Forall_forall. intros col Hc.
  apply in_map_iff in Hc as (j & <- & _). now rewrite length_map, length_seq.
Qed.

(** The two index vectors have no repeated entry and no common entry. *)
Lemma filter_partition_facts (f : nat -> bool) (l : list nat) :
  NoDup l ->
  NoDup (filter f l) /\ NoDup (filter (fun i => negb (f i)) l) /\
  (forall j, In j (filter f l) -> ~ In j (filter (fun i => negb (f i)) l)) /\
  (forall j, In j (filter (fun i => negb (f i)) l) -> ~ In j (filter f l)).
Proof.
  intros Hl. repeat split; try now apply NoDup_filter.
  - intros j H1 H2. apply filter_In in H1 as [_ H1]. apply filter_In in H2 as [_ H2].
    rewrite H1 in H2. discriminate.
  - intros j H1 H2. apply filter_In in H1 as [_ H1]. apply filter_In in H2 as [_ H2].
    rewrite H2 in H1. discriminate.
Qed.
End CreateFacts.

(* ------------------------------------------------------------------ *)
(** ** [transcribe] as a sequence of blocks *)

Section TranscribeFacts.
Context {D E F : Type} {num : Numeric D} {sym : Symbolic D E}.
Context {scheme : Scheme D E F} {collab : Collaborators D E F}.
Implicit Types (t : Transcription D E F).

Lemma layout_fields t t' :
  layout t' = layout t ->
  m_problem t' = m_problem t /\ m_solver t' = m_solver t /\
  m_vars t' = m_vars t /\
  m_daeIndices t' = m_daeIndices t /\
  m_daeIndicesIgnoringConstraints t' = m_daeIndicesIgnoringConstraints t /\
  m_numPointsIgnoringConstraints t' = m_numPointsIgnoringConstraints t /\
  m_numGridPoints t' = m_numGridPoints t /\
  m_numResiduals t' = m_numResiduals t.
Proof.
  intros H.
  repeat split;
    [ exact (f_equal (@m_problem D E F) H)
    | exact (f_equal (@m_solver D E F) H)
    | exact (f_equal (@m_vars D E F) H)
    | exact (f_equal (@m_daeIndices D E F) H)
    | exact (f_equal (@m_daeIndicesIgnoringConstraints D E F) H)
    | exact (f_equal (@m_numPointsIgnoringConstraints D E F) H)
    | exact (f_equal (@m_numGridPoints D E F) H)
    | exact (f_equal (@m_numResiduals D E F) H) ].
Qed.

(** The states of the Transcription object between the blocks of a
    successful [transcribe]. *)
Lemma transcribe_blocks t0 t :
  transcribe t0 = inr t ->
  exists t1 t2 t3 t4,
    setObjective t0 = inr t1 /\
    getNumCoordinates (m_problem t0) = getNumSpeeds (m_problem t0) /\
    initializeMemory t1 = inr t2 /\
    transcribeQdot t2 = inr t3 /\
    (if isDynamicsModeImplicit (m_solver t0) then transcribeImplicit t3
     else transcribeExplicit t3) = inr t4 /\
    transcribeDefectsAndPath t4 = inr t /\
    layout t1 = layout t0 /\ layout t2 = layout t0 /\ layout t3 = layout t0 /\
    m_evalCalls t2 =
      m_evalCalls t0 ++ [(IntegralCostIntegrand,
                          [states; controls; multipliers; derivatives],
                          ref_gridIndices)] /\
    wf (m_xdot t2) /\ wf (m_xdot t3).
Proof.
  unfold transcribe. intros H.
  unbind H as t1 H1.
  pose proof H1 as F1. apply setObjective_frame in F1.
  assert (L1 : layout t1 = layout t0) by (rewrite F1; reflexivity).
  assert (C1 : m_evalCalls t1 =
               m_evalCalls t0 ++ [(IntegralCostIntegrand,
                                   [states; controls; multipliers; derivatives],
                                   ref_gridIndices)])
    by (rewrite F1; reflexivity).
  pose proof L1 as Q1. apply layout_fields in Q1. destruct Q1 as (P1 & S1 & _).
  destruct (Nat.eqb_spec (getNumCoordinates (m_problem t1)) (getNumSpeeds (m_problem t1)))
    as [Heq|Hne]; simpl in H; [|discriminate].
  unbind H as t2 H2. unbind H as t3 H3. unbind H as t4 H4.
  pose proof H2 as K2. apply initializeMemory_spec in K2.
  destruct K2 as (L2 & C2 & G & _ & X2 & _).
  assert (W2 : wf (m_xdot t2)) by (rewrite X2; apply MX_zeros_wf).
  pose proof H3 as K3. apply transcribeQdot_spec in K3; [|exact W2].
  cbv zeta in K3. destruct K3 as (L3 & _ & _ & _ & W3 & _).
  assert (L20 : layout t2 = layout t0) by congruence.
  assert (L30 : layout t3 = layout t0) by congruence.
  pose proof L30 as Q3. apply layout_fields in Q3. destruct Q3 as (P3 & S3 & _).
  exists t1, t2, t3, t4. rewrite <- S3, <- P1.
  repeat split; auto; congruence.
Qed.
End TranscribeFacts.

(* ================================================================== *)
(** * The state derivatives built by [transcribe] *)

Section StateDerivatives.
Context {D E F : Type} {num : Numeric D} {sym : Symbolic D E}.
Context {scheme : Scheme D E F} {collab : Collaborators D E F}.
Implicit Types (t : Transcription D E F).

(** After [createVariablesAndSetBounds] and a successful [transcribe]: the
    first [NQ] rows of [m_xdot] are those left by the block "qdot", and no
    later block evaluates the velocity correction. *)
Lemma transcribe_qdot (p : Problem D F) (s : Solver D) grid nd t0 t :
  createVariablesAndSetBounds p s grid nd = inr t0 ->
  transcribe t0 = inr t ->
  exists t2 t3,
    transcribeQdot t2 = inr t3 /\
    layout t2 = layout t0 /\ layout t = layout t0 /\ wf (m_xdot t2) /\
    otherCalls (m_evalCalls t2) /\
    (forall idx, getSub (m_xdot t) 0 (getNumCoordinates p) idx =
                 getSub (m_xdot t3) 0 (getNumCoordinates p) idx) /\
    (exists extra, m_evalCalls t = m_evalCalls t3 ++ extra /\ otherCalls extra) /\
    Forall (fun j => j < size2 (m_xdot t3)) (m_daeIndices t0) /\
    getNumCoordinates p = getNumSpeeds p /\
    NoDup (m_daeIndices t0) /\ NoDup (m_daeIndicesIgnoringConstraints t0) /\
    (forall j, In j (m_daeIndices t0) -> ~ In j (m_daeIndicesIgnoringConstraints t0)) /\
    (forall j, In j (m_daeIndicesIgnoringConstraints t0) -> ~ In j (m_daeIndices t0)).
Proof.
  intros Hc Ht.
  apply createVariables_spec in Hc. cbv zeta in Hc.
  destruct Hc as (Pp & Ps & _ & _ & _ & _ & _ & _ & _ & _ & _ & Hdae & Hign & _ & _ & Hcalls & _).
  destruct (filter_partition_facts
              (isMeshColumn createKinematicConstraintIndices)
              (seq_NoDup (size2 (createKinematicConstraintIndices (D := D))) 0))
    as (Nd1 & Nd2 & Dis1 & Dis2).
  rewrite <- Hdae, <- Hign in *.
  apply transcribe_blocks in Ht.
  destruct Ht as (t1 & t2 & t3 & t4 & H1 & Hq & H2 & H3 & H4 & H5 & L1 & L2 & L3 & C2 & W2 & W3).
  pose proof L3 as Q3. apply layout_fields in Q3.
  destruct Q3 as (P3 & S3 & V3 & I3 & J3 & N3 & G3 & R3).
  pose proof H5 as K5. apply transcribeDefectsAndPath_spec in K5.
  destruct K5 as (L5 & X5 & _ & _ & _ & ex5 & C5 & O5).
  rewrite Pp in Hq.
  assert (K4 : layout t4 = layout t3 /\
               (forall idx, getSub (m_xdot t4) 0 (getNumCoordinates p) idx =
                            getSub (m_xdot t3) 0 (getNumCoordinates p) idx) /\
               Forall (fun j => j < size2 (m_xdot t3)) (m_daeIndices t0) /\
               exists extra, m_evalCalls t4 = m_evalCalls t3 ++ extra /\ otherCalls extra).
  { pose proof L1 as Q1. apply layout_fields in Q1. destruct Q1 as (_ & S1 & _).
    pose proof H2 as K2. apply initializeMemory_spec in K2.
    destruct K2 as (_ & _ & G & _ & _ & K2). rewrite S1 in K2.
    pose proof H3 as K3. apply transcribeQdot_spec in K3; [|exact W2].
    cbv zeta in K3. destruct K3 as (_ & M3 & _).
    rewrite <- Pp, <- P3, <- I3.
    destruct (isDynamicsModeImplicit (m_solver t0)).
    - destruct K2 as (NR & _ & Z2 & _).
      apply transcribeImplicit_spec in H4; auto.
      + cbv zeta in H4.
        destruct H4 as (L4 & _ & _ & X4 & _ & _ & _ & _ & _ & _ & R4 & O4). auto.
      + rewrite M3, Z2. apply MX_zeros_wf.
    - apply transcribeExplicit_spec in H4; auto; try congruence.
      + cbv zeta in H4.
        destruct H4 as (L4 & _ & X4 & _ & _ & _ & _ & _ & R4 & O4). auto.
      + rewrite I3, J3. assumption. }
  destruct K4 as (L4 & X4 & R4 & ex4 & C4 & O4).
  exists t2, t3. repeat split; auto.
  - congruence.
  - rewrite C2, Hcalls. simpl. repeat constructor. simpl. discriminate.
  - intros idx. rewrite X5. apply X4.
  - exists (ex4 ++ ex5). split.
    + rewrite C5, C4. now rewrite app_assoc.
    + now apply otherCalls_app.
Qed.

Lemma getSub_defined {T} (m : Mat T) a b idx :
  a <= b -> b <= size1 m -> Forall (fun j => j < size2 m) idx ->
  exists u, getSub m a b idx = inr u.
Proof.
  intros Ha Hb Hr. unfold getSub.
  apply Nat.leb_le in Ha, Hb. apply inRange_true in Hr.
  rewrite Ha, Hb, Hr. simpl. eauto.
Qed.

(** The first [NQ] rows of [m_xdot] after the block "qdot", read against
    the speed rows of the states. *)
Lemma qdot_rows_spec t2 t3 :
  transcribeQdot t2 = inr t3 -> wf (m_xdot t2) ->
  NoDup (m_daeIndicesIgnoringConstraints t2) ->
  getNumCoordinates (m_problem t2) = getNumSpeeds (m_problem t2) ->
  let NQ := getNumCoordinates (m_problem t2) in
  let NU := getNumSpeeds (m_problem t2) in
  let IIC := m_daeIndicesIgnoringConstraints t2 in
  exists sm,
    m_vars t2 states = Some sm /\
    NQ <= size1 (m_xdot t3) /\ size2 sm = size2 (m_xdot t3) /\ NQ + NU <= size1 sm /\
    (forall idx, (forall j, In j idx -> ~ In j IIC) ->
                 getSub (m_xdot t3) 0 NQ idx = getSub sm NQ (NQ + NU) idx) /\
    if correctsVelocity t2 then
      exists out uCorr uI sum,
        evalOnTrajectory t2 (getVelocityCorrection (m_problem t2))
          [multibody_states; slacks] ref_daeIndicesIgnoringConstraints = inr out /\
        vecAt out 0 = inr uCorr /\
        getSub sm NQ (NQ + NU) IIC = inr uI /\
        madd uI uCorr = inr sum /\
        getSub (m_xdot t3) 0 NQ IIC = inr sum /\
        m_evalCalls t3 = m_evalCalls t2 ++ [velocityCorrectionCall]
    else
      (forall idx, getSub (m_xdot t3) 0 NQ idx = getSub sm NQ (NQ + NU) idx) /\
      m_evalCalls t3 = m_evalCalls t2.
Proof.
  intros H W2 Hnd Hq. cbv zeta.
  apply transcribeQdot_spec in H; [|exact W2]. cbv zeta in H.
  destruct H as (_ & _ & _ & _ & W3 & Z1 & Z2 & sm & u & xdot1 & Hs & Hu & Hx1 & H).
  pose proof Hx1 as S1. apply setSub_shape in S1; [|exact W2].
  destruct S1 as (W1 & A1 & B1).
  pose proof Hx1 as O1. apply setSub_ok in O1.
  destruct O1 as (_ & O1 & _ & Us1 & Us2 & Us3 & _).
  rewrite Nat.sub_0_r in Us1, Us3.
  pose proof Hu as Ou. apply getSub_ok in Ou. destruct Ou as (Ou1 & Ou2 & _ & Ou).
  assert (Zs : size2 sm = size2 (m_xdot t2)).
  { unfold allCols in Us2. rewrite length_seq in Us2. rewrite <- Us2, Ou.
    simpl. unfold allCols. now rewrite length_map, length_seq. }
  (* every block of the first rows of xdot1 is the block of the speeds *)
  assert (Hall : forall idx,
             getSub xdot1 0 (getNumCoordinates (m_problem t2)) idx =
             getSub sm (getNumCoordinates (m_problem t2))
               (getNumCoordinates (m_problem t2) + getNumSpeeds (m_problem t2)) idx).
  { intros idx.
    rewrite (@getSub_setSub_all _ _ _ _ _ _ idx Hx1 W2).
    rewrite Nat.sub_0_r.
    unfold getSub at 1.
    assert (Hin : inRange u idx = inRange sm idx).
    { apply inRange_size. rewrite Ou. unfold size2, allCols. simpl.
      now rewrite length_map, length_seq. }
    rewrite Hin, Us1, Nat.leb_refl. simpl.
    unfold getSub. apply Nat.leb_le in Ou1 as Ou1', Ou2 as Ou2'.
    rewrite Ou1', Ou2'. simpl.
    destruct (inRange sm idx) eqn:Hi; [|reflexivity].
    unfold ret. f_equal. f_equal; [lia|].
    apply map_ext_in. intros j Hj.
    apply inRange_true in Hi. rewrite Forall_forall in Hi. specialize (Hi j Hj).
    rewrite Ou. unfold allCols. rewrite column_map_seq by assumption.
    assert (Hl : length (sliceRows (getNumCoordinates (m_problem t2))
                           (getNumCoordinates (m_problem t2) + getNumSpeeds (m_problem t2))
                           (column sm j)) = getNumCoordinates (m_problem t2)).
    { rewrite Forall_forall in Us3.
      apply Us3. rewrite Ou. simpl. apply in_map_iff. exists j. split; auto.
      apply in_seq. lia. }
    rewrite <- Hl at 1. apply sliceRows_all. }
  exists sm. repeat split; auto; try lia; try congruence.
  - intros idx Hd. destruct (correctsVelocity t2).
    + destruct H as (out & uCorr & cur & sum & _ & _ & _ & _ & Hx2 & _).
      rewrite (@getSub_setSub_cols _ _ _ _ _ _ _ _ _ _ Hx2 W1) by assumption.
      apply Hall.
    + destruct H as (-> & _). apply Hall.
  - destruct (correctsVelocity t2).
    + destruct H as (out & uCorr & cur & sum & Hev & HuC & Hcur & Hsum & Hx2 & Hcalls).
      exists out, uCorr, cur, sum. repeat split; auto.
      * rewrite <- Hall. exact Hcur.
      * eapply getSub_setSub_same; eauto.
    + destruct H as (-> & Hcalls). split; auto.
Qed.

(** C9.  After [transcribe], the coordinate rows (rows 0..NQ) of [m_xdot]
    at the columns of the mesh points (the indices of [m_daeIndices]) are
    exactly the speed rows (rows NQ..NQ+NU) of the states block at these
    columns: the velocity correction leaves them as they are. *)
Theorem qdot_at_mesh_points_is_speeds (p : Problem D F) (s : Solver D) grid nd t0 t :
  createVariablesAndSetBounds p s grid nd = inr t0 ->
  transcribe t0 = inr t ->
  exists sm u,
    m_vars t states = Some sm /\
    getSub sm (getNumCoordinates p) (getNumCoordinates p + getNumSpeeds p)
      (m_daeIndices t) = inr u /\
    getSub (m_xdot t) 0 (getNumCoordinates p) (m_daeIndices t) = inr u.
Proof.
  intros Hc Ht.
  pose proof Hc as Hp. apply createVariables_spec in Hp. cbv zeta in Hp.
  destruct Hp as (Pp & _).
  destruct (@transcribe_qdot p s grid nd t0 t Hc Ht)
    as (t2 & t3 & H3 & L2 & L & W2 & _ & X & _ & R & Hq & Nd1 & Nd2 & Dis1 & Dis2).
  apply layout_fields in L2. destruct L2 as (P2 & _ & V2 & I2 & J2 & _).
  apply layout_fields in L. destruct L as (_ & _ & V & I & _).
  apply qdot_rows_spec in H3; auto; try congruence.
  cbv zeta in H3. rewrite P2, Pp, V2, J2 in H3.
  destruct H3 as (sm & Hs & Z1 & Z2 & Z3 & Hother & _).
  rewrite V, I, X.
  rewrite (Hother _ Dis1).
  destruct (@getSub_defined _ sm (getNumCoordinates p)
              (getNumCoordinates p + getNumSpeeds p) (m_daeIndices t0))
    as (u & Hu); try lia.
  { now rewrite Z2. }
  exists sm, u. auto.
Qed.


Lemma dim_inj z n m : dim z = inr n -> z = Z.of_nat m -> n = m.
Proof. intros H ->. rewrite dim_of_nat in H. ret_inv H. now subst. Qed.

(** C3.  In implicit mode, after [transcribe]: the number of residuals is
    the number of speeds; the rows NQ..NQ+NU of [m_xdot] are the
    derivatives block at every grid column; the residuals block is an
    NU-by-G table and its lower and upper bounds are all zero.  In explicit
    mode the number of residuals is 0 and the outputs [udot] and [zdot] of
    the dynamics are the rows NQ..NQ+NU and NQ+NU..NS of [m_xdot], at the
    mesh columns for the constrained system and, if there are interior
    points, at the interior columns for the system that ignores the
    constraints. *)
Theorem dynamics_rows_of_xdot (p : Problem D F) (s : Solver D) grid nd t0 t :
  createVariablesAndSetBounds p s grid nd = inr t0 ->
  transcribe t0 = inr t ->
  let NQ := getNumCoordinates p in
  let NU := getNumSpeeds p in
  let NS := getNumStates p in
  let G := numel grid in
  if isDynamicsModeImplicit s then
    m_numResiduals t = Z.of_nat NU /\
    (exists w, m_vars t derivatives = Some w /\
               getSub (m_xdot t) NQ (NQ + NU) (seq 0 G) = inr w) /\
    hasShape (residuals (m_constraints t)) NU G = true /\
    residuals (m_constraintsLowerBounds t) = DM_zeros NU G /\
    residuals (m_constraintsUpperBounds t) = DM_zeros NU G
  else
    m_numResiduals t = 0%Z /\
    (exists out udot zdot,
       evalOnTrajectory t (getMultibodySystem p) dynamicsInputs ref_daeIndices = inr out /\
       vecAt out 0 = inr udot /\ vecAt out 1 = inr zdot /\
       getSub (m_xdot t) NQ (NQ + NU) (m_daeIndices t) = inr udot /\
       getSub (m_xdot t) (NQ + NU) NS (m_daeIndices t) = inr zdot) /\
    ((m_numPointsIgnoringConstraints t =? 0)%Z = false ->
     exists out udot zdot,
       evalOnTrajectory t (getMultibodySystemIgnoringConstraints p) dynamicsInputs
         ref_daeIndicesIgnoringConstraints = inr out /\
       vecAt out 0 = inr udot /\ vecAt out 1 = inr zdot /\
       getSub (m_xdot t) NQ (NQ + NU) (m_daeIndicesIgnoringConstraints t) = inr udot /\
       getSub (m_xdot t) (NQ + NU) NS (m_daeIndicesIgnoringConstraints t) = inr zdot).
Proof.
  intros Hc Ht. cbv zeta.
  pose proof Hc as Hp. apply createVariables_spec in Hp. cbv zeta in Hp.
  destruct Hp as (Pp & Ps & _ & HG & _ & _ & _ & HR & _ & _ & _ & Hdae & Hign & _).
  destruct (filter_partition_facts
              (isMeshColumn createKinematicConstraintIndices)
              (seq_NoDup (size2 (createKinematicConstraintIndices (D := D))) 0))
    as (Nd1 & Nd2 & Dis1 & Dis2).
  rewrite <- Hdae, <- Hign in *.
  apply transcribe_blocks in Ht.
  destruct Ht as (t1 & t2 & t3 & t4 & H1 & Hq & H2 & H3 & H4 & H5 & L1 & L2 & L3 & C2 & W2 & W3).
  pose proof L1 as Q1. apply layout_fields in Q1.
  destruct Q1 as (P1 & S1 & _ & _ & _ & _ & G1 & R1).
  pose proof L3 as Q3. apply layout_fields in Q3.
  destruct Q3 as (P3 & S3 & V3 & I3 & J3 & N3 & G3 & R3).
  pose proof H2 as K2. apply initializeMemory_spec in K2.
  destruct K2 as (_ & _ & G & HdG & X2 & K2). rewrite S1 in K2.
  rewrite G1 in HdG. apply dim_inj with (m := numel grid) in HdG; [|assumption]. subst G.
  pose proof H3 as K3. apply transcribeQdot_spec in K3; [|exact W2].
  cbv zeta in K3. destruct K3 as (_ & M3 & ML3 & MU3 & _ & _ & Z3 & _).
  pose proof H5 as K5. apply transcribeDefectsAndPath_spec in K5.
  destruct K5 as (L5 & X5 & M5 & ML5 & MU5 & _).
  assert (L4t : layout t = layout t4) by assumption.
  rewrite Ps in *.
  assert (Hsz : size2 (m_xdot t3) = numel grid).
  { rewrite Z3, X2. apply fill_size2. }
  destruct (isDynamicsModeImplicit s).
  - destruct K2 as (NR & HdR & Y2 & YL2 & YU2).
    rewrite R1, HR in HdR. apply dim_inj with (m := getNumSpeeds p) in HdR; [|reflexivity].
    subst NR.
    apply transcribeImplicit_spec in H4; auto.
    2:{ rewrite M3, Y2. apply MX_zeros_wf. }
    cbv zeta in H4. rewrite P3, Pp in H4.
    destruct H4 as (L4 & W4 & Z4 & _ & (w & Hw & Hg) & RW & RA & RB & CL & CU & _).
    assert (Lt0 : layout t = layout t0) by congruence.
    apply layout_fields in Lt0. destruct Lt0 as (_ & _ & Vt & _ & _ & _ & _ & Rt).
    repeat split.
    + congruence.
    + exists w. split; [congruence|].
      rewrite X5. rewrite <- Hg. unfold allCols. do 2 f_equal. congruence.
    + rewrite M5. apply wf_hasShape in RW.
      rewrite RA, RB, M3, Y2 in RW. unfold MX_zeros in RW.
      now rewrite fill_size2 in RW.
    + rewrite ML5, CL, ML3. exact YL2.
    + rewrite MU5, CU, MU3. exact YU2.
  - apply transcribeExplicit_spec in H4; auto; try congruence.
    2:{ rewrite I3, J3. assumption. }
    cbv zeta in H4. rewrite P3, Pp, I3, J3, N3 in H4.
    destruct H4 as (L4 & W4 & _ & Hdae' & Hign' & _).
    assert (Lt0 : layout t = layout t0) by congruence.
    assert (Lt3 : layout t = layout t3) by congruence.
    apply layout_fields in Lt0. destruct Lt0 as (_ & _ & _ & It & Jt & Nt & _ & Rt).
    rewrite It, Jt, Nt, X5.
    repeat split.
    + congruence.
    + destruct Hdae' as (out & udot & zdot & Hev & Hrest).
      exists out, udot, zdot. split; [|assumption].
      rewrite <- Hev. now apply evalOnTrajectory_layout.
    + intros HP. destruct (Hign' HP) as (out & udot & zdot & Hev & Hrest).
      exists out, udot, zdot. split; [|assumption].
      rewrite <- Hev. now apply evalOnTrajectory_layout.
Qed.

End StateDerivatives.

(* ================================================================== *)
(** * The failure report *)

Section ReportFacts.
Context {D E F : Type} {num : Numeric D} {sym : Symbolic D E}.
Context {scheme : Scheme D E F} {collab : Collaborators D E F}.
Implicit Types (t : Transcription D E F).

Lemma printTimes_labels read time ivar label itimes : forall rows,
  printTimes (D := D) read time ivar label itimes = inr rows ->
  Forall (fun row => br_var row = ivar /\ br_label row = label) rows.
Proof.
  induction itimes as [|itime rest IH]; intros rows H; simpl in H.
  - ret_inv H. subst. constructor.
  - unbind H as [[L V] U] Hr.
    destruct (boundCase L V U); auto.
    + unbind H as tm Htm. unbind H as more Hm. ret_inv H. subst rows.
      constructor; auto.
    + unbind H as tm Htm. unbind H as more Hm. ret_inv H. subst rows.
      constructor; auto.
Qed.

Lemma printVars_labels read time names itimes ivars : forall rows,
  printVars (D := D) read time names ivars itimes = inr rows ->
  Forall (fun row => br_label row = nth_error names (br_var row)) rows.
Proof.
  induction ivars as [|ivar rest IH]; intros rows H; simpl in H.
  - ret_inv H. subst. constructor.
  - unbind H as here Hh. unbind H as more Hm. ret_inv H. subst rows.
    apply Forall_app. split; auto.
    apply printTimes_labels in Hh.
    eapply Forall_impl; [|exact Hh]. simpl. intros row [-> ->]. reflexivity.
Qed.

Lemma boundsTable_labels description names read time ivars itimes flags tbl :
  boundsTable (D := D) description names read time ivars itimes flags = inr tbl ->
  bt_description tbl = description /\
  Forall (fun row => br_label row = nth_error names (br_var row)) (bt_rows tbl).
Proof.
  unfold boundsTable. intros H.
  destruct (summaryOf flags).
  - ret_inv H. subst tbl. simpl. auto.
  - unbind H as rows Hr. ret_inv H. subst tbl. simpl. split; auto.
    eapply printVars_labels; eauto.
  - unbind H as rows Hr. ret_inv H. subst tbl. simpl. split; auto.
    eapply printVars_labels; eauto.
Qed.

(** Every line of a table of [print_bounds] is labelled with the entry of
    the given name list at the index of the line's variable. *)
Lemma print_bounds_labels description names (tm v l u : Mat D) tbl :
  print_bounds description names tm v l u = inr tbl ->
  bt_description tbl = description /\
  Forall (fun row => br_label row = nth_error names (br_var row)) (bt_rows tbl).
Proof.
  unfold print_bounds. intros H. unbind H as flags Hf.
  eapply boundsTable_labels; eauto.
Qed.

(** The five calls of [print_bounds] made by [printConstraintValues], and
    the number of constraints it prints. *)
Lemma printConstraintValues_inv t (it : Iterate D) c r :
  printConstraintValues t it c = inr r ->
  exists b1 b2 b3 b4 b5,
    rp_variableBounds r = [b1; b2; b3; b4; b5] /\
    rp_numConstraints r = m_numConstraints t /\
    Forall2
      (fun tbl args =>
         exists v l u,
           variables it (snd args) = Some v /\
           m_lowerBounds t (snd args) = Some l /\
           m_upperBounds t (snd args) = Some u /\
           print_bounds (fst args) (state_names it) (times it) v l u = inr tbl)
      [b1; b2; b3; b4; b5]
      [("State bounds", states); ("Control bounds", controls);
       ("Multiplier bounds", multipliers); ("Derivative bounds", derivatives);
       ("Slack bounds", slacks)].
Proof.
  unfold printConstraintValues. cbv zeta. intros H.
  unbind H as b1 H1. unbind H as b2 H2. unbind H as b3 H3.
  unbind H as b4 H4. unbind H as b5 H5.
  repeat bind_inv H. ret_inv H. subst r. simpl.
  exists b1, b2, b3, b4, b5. repeat split.
  repeat constructor; simpl;
    match goal with
    | Hb : bind (vat _ _) _ = inr ?b |- exists _ _ _, _ /\ _ /\ _ /\ _ = inr ?b =>
        let v := fresh "v" in let l := fresh "l" in let u := fresh "u" in
        let Hv := fresh "Hv" in let Hl := fresh "Hl" in let Hu := fresh "Hu" in
        unbind Hb as v Hv; unbind Hb as l Hl; unbind Hb as u Hu;
        apply vat_Some in Hv, Hl, Hu; exists v, l, u; auto
    end.
Qed.
End ReportFacts.

Lemma fold_left_add_sumZ {A} (f : A -> Z) (l : list A) (a : Z) :
  fold_left (fun n x => (n + f x)%Z) l a = (a + sumZ (map f l))%Z.
Proof.
  revert a; induction l as [|x l IH]; intros a; simpl.
  - lia.
  - rewrite IH. lia.
Qed.

(** [toInt] keeps the residue modulo 2^32 and lands in the range of [int];
    it leaves an [int] as it is. *)
Lemma toInt_mod (z : Z) : (toInt z mod 2 ^ 32 = z mod 2 ^ 32)%Z.
Proof.
  unfold toInt.
  rewrite Zminus_mod, Zmod_mod, <- Zminus_mod.
  f_equal. lia.
Qed.

Lemma toInt_range (z : Z) : (int_min <= toInt z <= int_max)%Z.
Proof.
  unfold toInt, int_min, int_max.
  pose proof (Z.mod_pos_bound (z + 2 ^ 31) (2 ^ 32)). lia.
Qed.

Lemma toInt_id (z : Z) : (int_min <= z <= int_max)%Z -> toInt z = z.
Proof.
  unfold toInt, int_min, int_max. intros H.
  rewrite Z.mod_small; lia.
Qed.

Lemma toInt_congr (a b : Z) : (a mod 2 ^ 32 = b mod 2 ^ 32)%Z -> toInt a = toInt b.
Proof.
  intros H. unfold toInt.
  rewrite (Zplus_mod a), (Zplus_mod b), H. reflexivity.
Qed.

(** A sum or a product of wrapped operands wraps to the same [int] as the
    exact sum or product. *)
Lemma int_add_toInt (a b : Z) : int_add (toInt a) (toInt b) = toInt (a + b).
Proof.
  unfold int_add. apply toInt_congr.
  rewrite Zplus_mod, !toInt_mod, <- Zplus_mod. reflexivity.
Qed.

Lemma int_mul_exact (a b : Z) : int_mul a b = toInt (a * b).
Proof. reflexivity. Qed.

Lemma fold_left_int_add_sum {A} (f : A -> Z) (a : Z) (l : list A) : forall z,
  fold_left (fun n x => int_add n (int_mul (f x) a)) l (toInt z) =
  toInt (z + sumZ (map (fun x => f x * a)%Z l)).
Proof.
  induction l as [|x l IH]; intros z; simpl.
  - f_equal. lia.
  - rewrite int_mul_exact, int_add_toInt, IH. f_equal. lia.
Qed.

Section Counts.
Context {D E F : Type} {num : Numeric D} {sym : Symbolic D E}.
Context {scheme : Scheme D E F} {collab : Collaborators D E F}.

(** C8.  The number of constraints computed by
    [createVariablesAndSetBounds] is Nd*I + NR*G + K*M + sum_i S_i*M, with
    I = M - 1 mesh intervals, NR = NU residuals in implicit mode and 0
    otherwise, and S_i the size of the i-th path constraint, whenever this
    number is an [int]; in general it is the [int] that the 32-bit products
    and sums of the source leave, the number reduced modulo 2^32.  The
    failure report prints the computed number as the total number of
    constraints. *)
Theorem numConstraints_formula (p : Problem D F) (s : Solver D) grid (Nd : Z)
  (t : Transcription D E F) :
  createVariablesAndSetBounds p s grid Nd = inr t ->
  let M := Z.of_nat (length (getMesh s)) in
  let G := Z.of_nat (numel grid) in
  let I := (M - 1)%Z in
  let NR := if isDynamicsModeImplicit s then Z.of_nat (getNumSpeeds p) else 0%Z in
  let K := Z.of_nat (getNumKinematicConstraintEquations p) in
  let total :=
    (Nd * I + NR * G + K * M +
     sumZ (map (fun info => Z.of_nat (pc_size info) * M) (getPathConstraintInfos p)))%Z in
  m_numMeshIntervals t = I /\ m_numResiduals t = NR /\
  m_numConstraints t = toInt total /\
  ((int_min <= total <= int_max)%Z -> m_numConstraints t = total) /\
  forall it c r,
    printConstraintValues t it c = inr r -> rp_numConstraints r = m_numConstraints t.
Proof.
  intros H. cbv zeta.
  apply createVariables_spec in H. cbv zeta in H.
  destruct H as (_ & _ & _ & _ & HI & _ & _ & HR & HC & _).
  assert (HT : m_numConstraints t =
               toInt (Nd * (Z.of_nat (length (getMesh s)) - 1) +
                      (if isDynamicsModeImplicit s then Z.of_nat (getNumSpeeds p)
                       else 0) * Z.of_nat (numel grid) +
                      Z.of_nat (getNumKinematicConstraintEquations p) *
                        Z.of_nat (length (getMesh s)) +
                      sumZ (map (fun info => Z.of_nat (pc_size info) *
                                             Z.of_nat (length (getMesh s)))
                              (getPathConstraintInfos p)))%Z).
  { rewrite HC, HR. rewrite !int_mul_exact, !int_add_toInt.
    apply fold_left_int_add_sum. }
  repeat split; auto.
  - intros Hrange. rewrite HT. now apply toInt_id.
  - intros it c r Hr. apply printConstraintValues_inv in Hr.
    destruct Hr as (b1 & b2 & b3 & b4 & b5 & _ & Hn & _). exact Hn.
Qed.

(** C10.  In the failure report, the lines of the five tables of the
    time-varying variables (states, controls, multipliers, derivatives and
    slacks) are all labelled with the state names of the iterate: the line
    of row [i] of any of the five blocks carries the [i]-th state name. *)
Theorem bound_tables_are_labelled_with_state_names
  (t : Transcription D E F) (it : Iterate D) c r :
  printConstraintValues t it c = inr r ->
  map bt_description (rp_variableBounds r) =
    ["State bounds"; "Control bounds"; "Multiplier bounds"; "Derivative bounds";
     "Slack bounds"] /\
  forall tbl row,
    In tbl (rp_variableBounds r) -> In row (bt_rows tbl) ->
    br_label row = nth_error (state_names it) (br_var row).
Proof.
  intros H. apply printConstraintValues_inv in H.
  destruct H as (b1 & b2 & b3 & b4 & b5 & -> & _ & HF).
  assert (HL : Forall2 (fun tbl (args : string * Var) =>
                 bt_description tbl = fst args /\
                 Forall (fun row => br_label row = nth_error (state_names it) (br_var row))
                   (bt_rows tbl))
                 [b1; b2; b3; b4; b5]
                 [("State bounds", states); ("Control bounds", controls);
                  ("Multiplier bounds", multipliers); ("Derivative bounds", derivatives);
                  ("Slack bounds", slacks)]).
  { eapply Forall2_impl; [|exact HF]. simpl.
    intros tbl args (v & l & u & _ & _ & _ & Hp).
    eapply print_bounds_labels; eauto. }
  repeat match goal with
         | Hx : Forall2 _ (_ :: _) (_ :: _) |- _ => inversion Hx; clear Hx; subst
         end.
  simpl in *. split.
  - repeat match goal with Hx : _ /\ _ |- _ => destruct Hx as [-> ?] end.
    reflexivity.
  - intros tbl row Ht Hr.
    repeat match goal with Hx : _ /\ _ |- _ => destruct Hx as [_ ?] end.
    repeat (destruct Ht as [<-|Ht];
            [match goal with
             | Hx : Forall _ (bt_rows ?b) |- _ = nth_error _ (br_var ?row) =>
                 rewrite Forall_forall in Hx; now apply Hx
             end|]).
    contradiction.
Qed.
End Counts.

(* ================================================================== *)
(** * The slack block of the guess *)

Section SlackGuess.
Context {D E F : Type} {num : Numeric D} {sym : Symbolic D E}.
Context {scheme : Scheme D E F} {collab : Collaborators D E F}.
Implicit Types (t : Transcription D E F).

Lemma binaryMask_columns mask i :
  binaryMask mask = true -> isNonzeroColumn mask i = isMeshColumn mask i.
Proof.
  unfold binaryMask, isNonzeroColumn, isMeshColumn, entryLin. intros H.
  destruct (nth_error (entries mask) i) as [x|] eqn:Hx; simpl; [|reflexivity].
  rewrite forallb_forall in H. apply nth_error_In in Hx. apply H in Hx.
  apply Bool.eqb_prop in Hx. now rewrite Hx.
Qed.

Lemma slackColumnsToRemove_spec mask range : forall cc,
  slackColumnsToRemove mask range = inr cc ->
  cc = filter (isNonzeroColumn mask) range.
Proof.
  induction range as [|i range IH]; intros cc H; simpl in H.
  - ret_inv H. now subst.
  - unbind H as x Hx. unbind H as more Hm. ret_inv H. subst cc.
    apply IH in Hm. subst more.
    assert (Hn : isNonzeroColumn mask i = negb (deqb x d0))
      by (unfold isNonzeroColumn; now rewrite Hx).
    simpl. now rewrite Hn.
Qed.

(** The loop of [solve] reads the mask at every grid index: it succeeds
    when the mask has an entry for each of them. *)
Lemma slackColumnsToRemove_defined mask range :
  Forall (fun i => i < length (entries mask)) range ->
  exists cc, slackColumnsToRemove mask range = inr cc.
Proof.
  induction range as [|i range IH]; intros H; simpl.
  - eauto.
  - inversion H as [|? ? Hi Hr]; subst. destruct (IH Hr) as (cc & ->).
    unfold entryLin. destruct (nth_error (entries mask) i) eqn:Hx.
    + simpl. eauto.
    + apply nth_error_None in Hx. lia.
Qed.

Lemma removeColsFrom_spec {T} (cc : list nat) (cs : list (list T)) : forall j,
  removeColsFrom j cc cs =
  map (fun k => nth (k - j) cs [])
    (filter (fun k => negb (existsb (Nat.eqb k) cc)) (seq j (length cs))).
Proof.
  induction cs as [|c cs IH]; intros j; simpl; [reflexivity|].
  rewrite IH.
  assert (Hext : map (fun k => nth (k - S j) cs [])
                   (filter (fun k => negb (existsb (Nat.eqb k) cc)) (seq (S j) (length cs)))
               = map (fun k => nth (k - j) (c :: cs) [])
                   (filter (fun k => negb (existsb (Nat.eqb k) cc)) (seq (S j) (length cs)))).
  { apply map_ext_in. intros k Hk. apply filter_In in Hk as [Hk _].
    apply in_seq in Hk. replace (k - j) with (S (k - S j)) by lia. reflexivity. }
  destruct (existsb (Nat.eqb j) cc); simpl.
  - exact Hext.
  - rewrite Nat.sub_diag. simpl. f_equal. exact Hext.
Qed.

Lemma existsb_eqb_In k (l : list nat) : existsb (Nat.eqb k) l = true <-> In k l.
Proof.
  rewrite existsb_exists. split.
  - intros (x & Hx & He). apply Nat.eqb_eq in He. now subst.
  - intros H. exists k. split; auto. apply Nat.eqb_refl.
Qed.

Lemma filter_length_partition {A} (f : A -> bool) (l : list A) :
  length (filter f l) + length (filter (fun x => negb (f x)) l) = length l.
Proof.
  induction l as [|a l IH]; simpl; [reflexivity|].
  destruct (f a); simpl; lia.
Qed.

(** Removing the columns of the mesh points leaves the columns of the
    interior index set, in order. *)
Lemma removeCols_mesh_columns {T} (sl : Mat T) mask :
  binaryMask mask = true ->
  removeColsFrom 0 (filter (isNonzeroColumn mask) (seq 0 (size2 sl))) (cols sl) =
  map (column sl) (filter (fun i => negb (isMeshColumn mask i)) (seq 0 (size2 sl))).
Proof.
  intros Hb. rewrite removeColsFrom_spec. fold (size2 sl).
  rewrite (filter_ext_in
             (fun k => negb (existsb (Nat.eqb k)
                               (filter (isNonzeroColumn mask) (seq 0 (size2 sl)))))
             (fun i => negb (isMeshColumn mask i))).
  - apply map_ext. intros k. now rewrite Nat.sub_0_r.
  - intros k Hk. f_equal. rewrite <- (binaryMask_columns _ k Hb).
    destruct (isNonzeroColumn mask k) eqn:Hn.
    + apply existsb_eqb_In. apply filter_In. auto.
    + destruct (existsb (Nat.eqb k) _) eqn:He; [|reflexivity].
      apply existsb_eqb_In in He. apply filter_In in He as [_ He]. congruence.
Qed.

Lemma entries_length {T} (m : Mat T) r c :
  hasShape m r c = true -> length (entries m) = r * c.
Proof.
  intros H. apply hasShape_true in H as (_ & H2 & H3).
  unfold entries, size2 in *. subst c.
  induction (cols m) as [|col cs IH]; simpl; [lia|].
  inversion H3; subst. rewrite length_app, IH by assumption. lia.
Qed.

Lemma setSlacks_variables (guess : Iterate D) sl :
  variables guess slacks = Some sl ->
  forall k, variables (setSlacks guess sl) k = variables guess k.
Proof.
  intros H k. unfold setSlacks, vset. simpl. destruct k; simpl; auto.
Qed.

(** Once the guess is resampled and adjusted, [solve] goes on with the
    adjusted guess. *)
Lemma solve_continues_with_the_adjusted_guess t0 t
  (guessOrig guess guess' : Iterate D) (gi gf guessTimes : Mat D) :
  transcribe t0 = inr t ->
  vat (variables guessOrig) initial_time = inr gi ->
  vat (variables guessOrig) final_time = inr gf ->
  createTimesDM (m_grid t) gi gf = inr guessTimes ->
  resample guessOrig guessTimes = inr guess ->
  adjustSlackGuess t guess = inr guess' ->
  solve t0 guessOrig = solveNlp t guess'.
Proof.
  intros Ht Hgi Hgf Hgt Hrs Ha. unfold solve.
  rewrite Ht. simpl. rewrite Hgi. simpl. rewrite Hgf. simpl.
  rewrite Hgt. simpl. rewrite Hrs. simpl. rewrite Ha. reflexivity.
Qed.

(** The initial point that [solveNlp] gives to the NLP solver is the
    flattened guess; the statistics of the solution are those of this run
    of the solver. *)
Lemma solveNlp_starts_from_the_guess t (guess : Iterate D) out :
  solveNlp t guess = inr out ->
  exists options input nlpResult,
    nlpsol "nlp" (getOptimSolver (m_solver t)) (flattenVariablesMX (m_vars t))
      (m_objective t) (flattenConstraintsMX (m_constraints t)) options input
      = inr nlpResult /\
    x0 input = flattenVariablesDM (variables guess) /\
    stats (out_solution out) = res_stats nlpResult.
Proof.
  unfold solveNlp. intros H.
  unbind H as files Hfiles. unbind H as nlpResult Hnlp.
  unbind H as vars Hvars. unbind H as obj Hobj. unbind H as tms Htms.
  unbind H as flag Hflag. unbind H as success Hsuccess.
  eexists. eexists. exists nlpResult. split; [exact Hnlp|]. split; [reflexivity|].
  destruct success; simpl in H.
  - ret_inv H. now subst out.
  - unbind H as o Ho. unbind H as g0 Hg0. unbind H as cs Hcs. unbind H as rp Hrp.
    ret_inv H. now subst out.
Qed.

(** C4.  The slack block [sl] of the resampled guess, for a mask that is
    a row of G zeros and ones with a one at each of the M mesh points.
    If [sl] has G columns, [solve] removes the columns of the mesh points:
    the P columns that remain are the columns of [sl] at the interior
    indices, in order, and [solve] goes on with the guess that holds them.
    If [sl] has P columns (and not G), it is left unchanged and [solve]
    goes on with it.  For any other number of columns [solve] throws an
    exception whose message names P and the number of columns of [sl].
    Whenever [solve] returns, the initial point given to the NLP solver is
    the flattened adjusted guess. *)
Theorem slack_guess_is_reshaped
  (p : Problem D F) (s : Solver D) grid nd t0 t
  (guessOrig guess : Iterate D) (gi gf guessTimes sl : Mat D) :
  createVariablesAndSetBounds p s grid nd = inr t0 ->
  transcribe t0 = inr t ->
  hasShape (createKinematicConstraintIndices (D := D)) 1 (numel grid) = true ->
  binaryMask (createKinematicConstraintIndices (D := D)) = true ->
  length (m_daeIndices t) = length (getMesh s) ->
  vat (variables guessOrig) initial_time = inr gi ->
  vat (variables guessOrig) final_time = inr gf ->
  createTimesDM (m_grid t) gi gf = inr guessTimes ->
  resample guessOrig guessTimes = inr guess ->
  variables guess slacks = Some sl ->
  let G := numel grid in
  let P := (Z.of_nat G - Z.of_nat (length (getMesh s)))%Z in
  let IIC := m_daeIndicesIgnoringConstraints t in
  m_numPointsIgnoringConstraints t = P /\
  (size2 sl = G ->
   exists sl',
     adjustSlackGuess t guess = inr (setSlacks guess sl') /\
     size1 sl' = size1 sl /\ cols sl' = map (column sl) IIC /\
     Z.of_nat (size2 sl') = P /\
     solve t0 guessOrig = solveNlp t (setSlacks guess sl')) /\
  (size2 sl <> G -> Z.of_nat (size2 sl) = P ->
   adjustSlackGuess t guess = inr (setSlacks guess sl) /\
   (forall k, variables (setSlacks guess sl) k = variables guess k) /\
   solve t0 guessOrig = solveNlp t (setSlacks guess sl)) /\
  (size2 sl <> G -> Z.of_nat (size2 sl) <> P ->
   solve t0 guessOrig =
   inl (OpenSimException (slackLengthMessage P (Z.of_nat (size2 sl))))) /\
  (forall out,
     solve t0 guessOrig = inr out ->
     exists guess' options input nlpResult,
       adjustSlackGuess t guess = inr guess' /\
       nlpsol "nlp" (getOptimSolver (m_solver t)) (flattenVariablesMX (m_vars t))
         (m_objective t) (flattenConstraintsMX (m_constraints t)) options input
         = inr nlpResult /\
       x0 input = flattenVariablesDM (variables guess') /\
       stats (out_solution out) = res_stats nlpResult).
Proof.
  intros Hc Ht Hshape Hbin Hdae Hgi Hgf Hgt Hrs Hsl. cbv zeta.
  pose proof Hc as Hp. apply createVariables_spec in Hp. cbv zeta in Hp.
  destruct Hp as (_ & _ & _ & HG & _ & HP & _ & _ & _ & _ & _ & Hd & Hi & _).
  destruct (@transcribe_qdot _ _ _ _ _ _ _ p s grid nd t0 t Hc Ht)
    as (_ & _ & _ & _ & L & _).
  apply layout_fields in L. destruct L as (_ & _ & _ & I & J & N & G & _).
  pose proof Hshape as Hsz. apply hasShape_true in Hsz. destruct Hsz as (_ & Hsz & _).
  rewrite Hsz in Hd, Hi.
  assert (HPt : m_numPointsIgnoringConstraints t =
                (Z.of_nat (numel grid) - Z.of_nat (length (getMesh s)))%Z)
    by congruence.
  assert (HGt : m_numGridPoints t = Z.of_nat (numel grid)) by congruence.
  assert (Hlen : length (m_daeIndicesIgnoringConstraints t) + length (getMesh s)
                 = numel grid).
  { rewrite <- Hdae, I, J, Hd, Hi.
    pose proof (filter_length_partition
                  (isMeshColumn createKinematicConstraintIndices)
                  (seq 0 (numel grid))) as Hf.
    rewrite length_seq in Hf. lia. }
  split; [exact HPt|]. split; [|split; [|split]].
  - intros Hcols.
    enough (Hadj : exists sl',
               adjustSlackGuess t guess = inr (setSlacks guess sl') /\
               size1 sl' = size1 sl /\
               cols sl' = map (column sl) (m_daeIndicesIgnoringConstraints t) /\
               Z.of_nat (size2 sl') =
                 (Z.of_nat (numel grid) - Z.of_nat (length (getMesh s)))%Z).
    { destruct Hadj as (sl' & Ha & H1 & H2 & H3). exists sl'.
      repeat split; auto.
      eapply solve_continues_with_the_adjusted_guess; eassumption. }
    unfold adjustSlackGuess. rewrite Hsl, HGt, HPt, Hcols.
    rewrite Z.eqb_refl, dim_of_nat.
    destruct (@slackColumnsToRemove_defined createKinematicConstraintIndices
                (seq 0 (numel grid))) as (cc & Hcc).
    { apply Forall_forall. intros i Hin. apply in_seq in Hin.
      rewrite (@entries_length _ _ 1 (numel grid) Hshape). lia. }
    simpl. rewrite Hcc. simpl.
    apply slackColumnsToRemove_spec in Hcc. subst cc.
    unfold removeCols.
    assert (Hr : inRange sl (filter (isNonzeroColumn createKinematicConstraintIndices)
                               (seq 0 (numel grid))) = true).
    { apply inRange_true. apply Forall_forall. intros j Hj.
      apply filter_In in Hj as [Hj _]. apply in_seq in Hj. lia. }
    rewrite Hr. simpl.
    assert (Hrm : removeColsFrom 0
                    (filter (isNonzeroColumn createKinematicConstraintIndices)
                       (seq 0 (numel grid))) (cols sl)
                  = map (column sl) (m_daeIndicesIgnoringConstraints t)).
    { rewrite J, Hi, <- Hcols. apply removeCols_mesh_columns. exact Hbin. }
    rewrite Hrm.
    assert (Hsize : Z.of_nat (size2 (mkMat (size1 sl)
                       (map (column sl) (m_daeIndicesIgnoringConstraints t))))
                    = (Z.of_nat (numel grid) - Z.of_nat (length (getMesh s)))%Z).
    { unfold size2. simpl. rewrite length_map. lia. }
    rewrite Hsize, Z.eqb_refl. simpl.
    eexists. split; [reflexivity|]. simpl. auto.
  - intros Hcols HPcols. unfold adjustSlackGuess. rewrite Hsl, HGt, HPt.
    destruct (Z.eqb_spec (Z.of_nat (size2 sl)) (Z.of_nat (numel grid))) as [He|_];
      [lia|].
    simpl. rewrite HPcols, Z.eqb_refl. simpl. split; [reflexivity|].
    split; [now apply setSlacks_variables|].
    eapply solve_continues_with_the_adjusted_guess; try eassumption.
    unfold adjustSlackGuess. rewrite Hsl, HGt, HPt.
    destruct (Z.eqb_spec (Z.of_nat (size2 sl)) (Z.of_nat (numel grid))) as [He|_];
      [lia|].
    simpl. now rewrite HPcols, Z.eqb_refl.
  - intros Hcols HPcols. unfold solve. rewrite Ht. simpl.
    rewrite Hgi. simpl. rewrite Hgf. simpl. rewrite Hgt. simpl. rewrite Hrs. simpl.
    unfold adjustSlackGuess. rewrite Hsl, HGt, HPt.
    destruct (Z.eqb_spec (Z.of_nat (size2 sl)) (Z.of_nat (numel grid))) as [He|_];
      [lia|].
    simpl.
    destruct (Z.eqb_spec (Z.of_nat (size2 sl))
                (Z.of_nat (numel grid) - Z.of_nat (length (getMesh s)))) as [He|_];
      [lia|].
    reflexivity.
  - intros out Hout.
    destruct (adjustSlackGuess t guess) as [e|guess'] eqn:Ha.
    + unfold solve in Hout. rewrite Ht in Hout. simpl in Hout.
      rewrite Hgi in Hout. simpl in Hout. rewrite Hgf in Hout. simpl in Hout.
      rewrite Hgt in Hout. simpl in Hout. rewrite Hrs in Hout. simpl in Hout.
      rewrite Ha in Hout. discriminate.
    + assert (Hs : solve t0 guessOrig = solveNlp t guess')
        by (eapply solve_continues_with_the_adjusted_guess; eassumption).
      rewrite Hs in Hout.
      apply solveNlp_starts_from_the_guess in Hout.
      destruct Hout as (options & input & nlpResult & Hn & Hx & Hst).
      exists guess', options, input, nlpResult. auto.
Qed.
End SlackGuess.

(* ================================================================== *)
(** * [evalOnTrajectory] and the identity of its index vector *)

Section IndexIdentity.
Context {D E F : Type} {num : Numeric D} {sym : Symbolic D E}.
Context {collab : Collaborators D E F}.
Implicit Types (t : Transcription D E F).

(** C5, as the code has it.  [evalOnTrajectory] tells its index vector by
    the object it is, not by its value.  Given one of the three members
    (the grid indices, the DAE indices, the interior indices) it passes the
    grid-wide, mesh-wide or interior-wide parameters block and raises no
    internal error of its own.  Given any other object, whatever its value,
    it never succeeds, and it raises the internal error as soon as the time
    row and the inputs are assembled. *)
Theorem evalOnTrajectory_selects_by_identity t (f : F) (inputs : list Var) :
  evalOnTrajectory t f inputs ref_gridIndices =
    evalWithParams t f inputs (m_gridIndices t) (m_paramsTrajGrid t) /\
  evalOnTrajectory t f inputs ref_daeIndices =
    evalWithParams t f inputs (m_daeIndices t) (m_paramsTraj t) /\
  evalOnTrajectory t f inputs ref_daeIndicesIgnoringConstraints =
    evalWithParams t f inputs (m_daeIndicesIgnoringConstraints t)
      (m_paramsTrajIgnoringConstraints t) /\
  (forall value, succeeds (evalOnTrajectory t f inputs (ref_other value)) = false) /\
  (forall value,
     succeeds (timesAt t value) = true ->
     succeeds (mapM (trajectoryInput t value) inputs) = true ->
     evalOnTrajectory t f inputs (ref_other value) = inl internalError).
Proof.
  repeat split; try reflexivity.
  - intros value. unfold evalOnTrajectory. simpl.
    destruct (timesAt t value); simpl; [reflexivity|].
    destruct (mapM (trajectoryInput t value) inputs); reflexivity.
  - intros value H1 H2. unfold evalOnTrajectory. simpl.
    destruct (timesAt t value); simpl in *; [discriminate|].
    destruct (mapM (trajectoryInput t value) inputs); simpl in *;
      [discriminate | reflexivity].
Qed.
End IndexIdentity.

(* ================================================================== *)
(** * The bound tables of a block that is narrower than the time row *)

Section ShortTable.
Context {D : Type} {num : Numeric D}.

Lemma entry_fails {T} (m : Mat T) i j e : entry m i j = inl e -> e = outOfBounds.
Proof.
  unfold entry. destruct (nth_error (cols m) j) as [c|]; [|now intros [= <-]].
  destruct (nth_error c i); [discriminate | now intros [= <-]].
Qed.

Lemma entryLin_fails {T} (m : Mat T) k e : entryLin m k = inl e -> e = outOfBounds.
Proof. unfold entryLin. destruct (nth_error (entries m) k); [discriminate | now intros [= <-]]. Qed.

Lemma boundsRead_fails (lower values upper : Mat D) ivar itime e :
  boundsRead lower values upper ivar itime = inl e -> e = outOfBounds.
Proof.
  unfold boundsRead. intros H.
  destruct (entry lower ivar itime) eqn:H1; simpl in H;
    [injection H as <-; eauto using entry_fails|].
  destruct (entry values ivar itime) eqn:H2; simpl in H;
    [injection H as <-; eauto using entry_fails|].
  destruct (entry upper ivar itime) eqn:H3; simpl in H;
    [injection H as <-; eauto using entry_fails | discriminate].
Qed.

(** The second pass reads every time of the row: it fails if one read
    fails. *)
Lemma printTimes_fails read time ivar label itimes :
  (forall i e, read i = inl e -> e = outOfBounds) ->
  (forall i e, time i = inl e -> e = outOfBounds) ->
  Exists (fun i => succeeds (read i) = false) itimes ->
  printTimes (D := D) read time ivar label itimes = inl outOfBounds.
Proof.
  intros Hr Ht. induction itimes as [|i rest IH]; intros Hex.
  - inversion Hex.
  - simpl. destruct (read i) as [e|[[L V] U]] eqn:Hi; simpl.
    + now rewrite (Hr _ _ Hi).
    + assert (Hrest : printTimes read time ivar label rest = inl outOfBounds).
      { apply IH. inversion Hex; subst; auto. rewrite Hi in *. discriminate. }
      destruct (boundCase L V U); auto.
      * destruct (time i) as [e|tm] eqn:Htm; simpl; [now rewrite (Ht _ _ Htm)|].
        now rewrite Hrest.
      * destruct (time i) as [e|tm] eqn:Htm; simpl; [now rewrite (Ht _ _ Htm)|].
        now rewrite Hrest.
Qed.

(** The first scan of a row either fails, or leaves at a violated bound,
    or has read every time of the row. *)
Lemma scanTimes_cases read itimes : forall flags,
  (forall i e, read i = inl e -> e = outOfBounds) ->
  Exists (fun i => succeeds (read i) = false) itimes ->
  scanTimes (D := D) read itimes flags = inl outOfBounds \/
  scanTimes read itimes flags = inr (true, true).
Proof.
  induction itimes as [|i rest IH]; intros flags Hr Hex.
  - inversion Hex.
  - simpl. destruct (read i) as [e|[[L V] U]] eqn:Hi; simpl.
    + left. now rewrite (Hr _ _ Hi).
    + assert (Hrest : Exists (fun i => succeeds (read i) = false) rest).
      { inversion Hex; subst; auto. rewrite Hi in *. discriminate. }
      destruct (boundCase L V U); auto.
Qed.

Lemma scanVars_violated read ivars itimes :
  (forall i j e, read i j = inl e -> e = outOfBounds) ->
  scanVars (D := D) read ivars itimes (true, true) = inl outOfBounds \/
  scanVars read ivars itimes (true, true) = inr (true, true).
Proof.
  intros Hr. induction ivars as [|ivar rest IH]; simpl; auto.
  assert (Hs : forall its, scanTimes (read ivar) its (true, true) = inl outOfBounds \/
                           scanTimes (read ivar) its (true, true) = inr (true, true)).
  { induction its as [|i its IHi]; simpl; auto.
    destruct (read ivar i) as [e|[[L V] U]] eqn:Hi; simpl.
    - left. now rewrite (Hr _ _ _ Hi).
    - destruct (boundCase L V U); auto. }
  destruct (Hs itimes) as [->| ->]; simpl; auto.
Qed.

(** The table of a block with at least one row and fewer columns in its
    lower bounds than there are times: [print_bounds] throws. *)
Theorem print_bounds_throws_on_short_block description names
  (tm values lower upper : Mat D) :
  0 < size1 values -> size2 lower < numel tm ->
  print_bounds description names tm values lower upper = inl outOfBounds.
Proof.
  intros Hrows Hcols. unfold print_bounds.
  fold (boundsRead lower values upper).
  assert (Hr : forall i j e, boundsRead lower values upper i j = inl e -> e = outOfBounds)
    by (intros; eapply boundsRead_fails; eauto).
  assert (Hex : forall ivar, Exists (fun i => succeeds (boundsRead lower values upper ivar i)
                                              = false) (seq 0 (numel tm))).
  { intros ivar. apply Exists_exists. exists (size2 lower). split.
    - apply in_seq. lia.
    - unfold boundsRead, entry.
      assert (Hn : nth_error (cols lower) (size2 lower) = None)
        by (apply nth_error_None; unfold size2; lia).
      now rewrite Hn. }
  destruct (size1 values) as [|n] eqn:Hn; [lia|].
  rewrite <- cons_seq. simpl.
  destruct (@scanTimes_cases (boundsRead lower values upper 0) (seq 0 (numel tm))
              (false, false) (Hr 0) (Hex 0)) as [->| ->]; simpl;
    [reflexivity|].
  destruct (@scanVars_violated (boundsRead lower values upper) (seq 1 n)
              (seq 0 (numel tm)) Hr) as [->| ->]; simpl;
    [reflexivity|].
  unfold boundsTable. simpl.
  rewrite printTimes_fails; auto.
  - apply Hr.
  - intros i e. apply entryLin_fails.
Qed.
End ShortTable.

Section FailureReportThrows.
Context {D E F : Type} {num : Numeric D} {sym : Symbolic D E}.
Context {scheme : Scheme D E F} {collab : Collaborators D E F}.
Implicit Types (t : Transcription D E F).

Lemma succeeds_bind_false {A B} (m : Exc A) (k : A -> Exc B) :
  (forall a, m = inr a -> succeeds (k a) = false) -> succeeds (bind m k) = false.
Proof. destruct m; simpl; auto. Qed.

(** The failure report of an iterate with at least one slack row, for a
    Transcription whose slack bounds have fewer columns than the iterate
    has times: [printConstraintValues] throws. *)
Lemma printConstraintValues_throws_on_short_slacks t (it : Iterate D) c v l :
  variables it slacks = Some v -> m_lowerBounds t slacks = Some l ->
  0 < size1 v -> size2 l < numel (times it) ->
  succeeds (printConstraintValues t it c) = false.
Proof.
  intros Hv Hl Hrows Hcols. unfold printConstraintValues. cbv zeta.
  do 4 (apply succeeds_bind_false; intros ? _).
  apply succeeds_bind_false. intros b5 H5. exfalso.
  unfold vat in H5. rewrite Hv, Hl in H5. simpl in H5.
  destruct (m_upperBounds t slacks) as [u|]; simpl in H5; [|discriminate].
  rewrite print_bounds_throws_on_short_block in H5 by assumption.
  discriminate.
Qed.

Lemma createTimesDM_numel (grid t0 tf tms : Mat D) :
  createTimesDM grid t0 tf = inr tms -> numel tms = numel grid.
Proof.
  unfold createTimesDM. intros H. unbind H as a Ha. unbind H as b Hb.
  ret_inv H. subst tms. unfold numel, size2, mapMat. simpl. now rewrite length_map.
Qed.

(** [solve] on a Transcription whose slack bounds have at least one row
    and fewer columns than the grid has points, with a solution whose slack
    block has a row: whenever [solve] returns, the solver has reported
    success and nothing was printed.  A solver failure makes [solve]
    throw. *)
Theorem solve_returns_only_on_success t0 t (guessOrig : Iterate D) l out :
  transcribe t0 = inr t ->
  m_lowerBounds t slacks = Some l -> size2 l < numel (m_grid t) ->
  (forall x vars, expandVariables t x = inr vars ->
                  exists v, vars slacks = Some v /\ 0 < size1 v) ->
  solve t0 guessOrig = inr out ->
  out_report out = None /\
  exists flag, dictAt (stats (out_solution out)) "success" = inr flag /\
               to_bool flag = inr true.
Proof.
  intros Ht Hl Hcols Hexp H. unfold solve in H. rewrite Ht in H. simpl in H.
  unbind H as gi Hgi. unbind H as gf Hgf. unbind H as gt Hgt.
  unbind H as guess Hg. unbind H as guess' Hg'. unbind H as files Hf.
  unbind H as res Hres. unbind H as vars Hvars. unbind H as obj Hobj.
  unbind H as tms Htms. unbind H as flag Hflag. unbind H as success Hs.
  destruct success; simpl in H.
  - ret_inv H. subst out. simpl. split; [reflexivity|].
    exists flag. auto.
  - exfalso. unbind H as o Ho. unbind H as g0 Hg0. unbind H as cs Hcs.
    unbind H as report Hr.
    destruct (Hexp _ _ Hvars) as (v & Hv & Hrows).
    apply createTimesDM_numel in Htms.
    pose proof (@printConstraintValues_throws_on_short_slacks t
                  (mkIterate vars tms
                     (state_names (createIterate (m_problem t)))
                     (control_names (createIterate (m_problem t)))
                     (multiplier_names (createIterate (m_problem t)))
                     (derivative_names (createIterate (m_problem t)))
                     (slack_names (createIterate (m_problem t)))
                     (parameter_names (createIterate (m_problem t))))
                  cs v l Hv Hl Hrows) as Hthrow.
    simpl in Hthrow. rewrite Htms in Hthrow. specialize (Hthrow Hcols).
    simpl in Hr. rewrite Hr in Hthrow. discriminate.
Qed.
End FailureReportThrows.

(* ================================================================== *)
(** * The objective *)

Section ListFacts.
Context {A B C : Type}.

Lemma zipWith_map (f : A -> B -> C) {X} (g : X -> A) (h : X -> B) (l : list X) :
  zipWith f (map g l) (map h l) = map (fun x => f (g x) (h x)) l.
Proof. induction l as [|x l IH]; simpl; [reflexivity | now rewrite IH]. Qed.

Lemma zipWith_length (f : A -> B -> C) (l1 : list A) (l2 : list B) :
  length l1 = length l2 -> length (zipWith f l1 l2) = length l1.
Proof.
  revert l2; induction l1 as [|a l1 IH]; intros [|b l2] H; simpl in *;
    try discriminate; auto.
Qed.

Lemma nth_zipWith (f : A -> B -> C) (l1 : list A) (l2 : list B) j d d1 d2 :
  j < length l1 -> j < length l2 ->
  nth j (zipWith f l1 l2) d = f (nth j l1 d1) (nth j l2 d2).
Proof.
  revert l2 j; induction l1 as [|a l1 IH]; intros [|b l2] [|j] H1 H2;
    simpl in *; try lia; auto. apply IH; lia.
Qed.

Lemma map_nth_seq (l : list A) d :
  map (fun j => nth j l d) (seq 0 (length l)) = l.
Proof.
  apply nth_ext with (d := d) (d' := d).
  - now rewrite length_map, length_seq.
  - rewrite length_map, length_seq. intros n Hn.
    rewrite (nth_indep _ d (nth 0 l d)) by now rewrite length_map, length_seq.
    rewrite (map_nth (fun j => nth j l d)). now rewrite seq_nth.
Qed.

Lemma singleton_of_length (l : list A) d : length l = 1 -> l = [nth 0 l d].
Proof. destruct l as [|a [|b l]]; simpl; intros H; try discriminate; reflexivity. Qed.

Lemma firstn1_skipn (l : list A) j d :
  length (firstn 1 (skipn j l)) = 1 -> firstn 1 (skipn j l) = [nth j l d].
Proof.
  intros H. pose proof (nth_skipn j l 0 d) as Hn. rewrite Nat.add_0_r in Hn.
  destruct (skipn j l) as [|a r]; simpl in *; [discriminate|].
  now rewrite Hn.
Qed.
End ListFacts.

Lemma concat_singletons {T} (cs : list (list T)) d :
  Forall (fun c => length c = 1) cs -> concat cs = map (fun c => nth 0 c d) cs.
Proof.
  induction 1 as [|c cs Hc _ IH]; simpl; [reflexivity|].
  rewrite IH. now rewrite (@singleton_of_length _ c d Hc) at 1.
Qed.

(** The entries of a well-formed row, column after column. *)
Lemma entries_row {T} (m : Mat T) G d :
  hasShape m 1 G = true ->
  entries m = map (fun j => nth 0 (column m j) d) (seq 0 G).
Proof.
  intros H. apply hasShape_true in H as (_ & H2 & H3).
  unfold entries, column, size2 in *. subst G.
  rewrite (@concat_singletons _ _ d H3).
  rewrite <- (map_nth_seq (cols m) []) at 1.
  now rewrite map_map.
Qed.

Section Objective.
Context {D E F : Type} {num : Numeric D} {sym : Symbolic D E}.
Context {scheme : Scheme D E F} {collab : Collaborators D E F}.
Implicit Types (t : Transcription D E F).

Lemma dot_ok (a b : Mat E) x :
  dot a b = inr x ->
  hasShape a (size1 a) (size2 a) = true /\ hasShape b (size1 a) (size2 a) = true /\
  x = esum (zipWith emul (entries a) (entries b)).
Proof.
  unfold dot.
  destruct (hasShape a (size1 a) (size2 a) && hasShape b (size1 a) (size2 a)) eqn:Hc;
    [|discriminate].
  apply andb_true_iff in Hc as [H1 H2]. intros H. ret_inv H. auto.
Qed.

Lemma zipMat_ok (f : E -> E -> E) (a b c : Mat E) :
  zipMat f a b = inr c ->
  hasShape a (size1 a) (size2 a) = true /\ hasShape b (size1 a) (size2 a) = true /\
  c = mkMat (size1 a) (zipWith (zipWith f) (cols a) (cols b)).
Proof.
  unfold zipMat.
  destruct (hasShape a (size1 a) (size2 a) && hasShape b (size1 a) (size2 a)) eqn:Hc;
    [|discriminate].
  apply andb_true_iff in Hc as [H1 H2]. intros H. ret_inv H. auto.
Qed.

(** The quadrature of a row [b] against the transposed coefficients. *)
Lemma dot_quadrature (b : Mat E) x :
  size2 (createQuadratureCoefficients (D := D)) = 1 ->
  dot (toMX (transpose createQuadratureCoefficients)) b = inr x ->
  hasShape b 1 (size2 b) = true /\
  x = bigsum (size2 b) (fun j => emul (econst (quadCoeff j)) (rowEntry b j)).
Proof.
  intros Hq H. apply dot_ok in H as (Ha & Hb & ->).
  set (q := createQuadratureCoefficients (D := D)) in *.
  assert (S1 : size1 (toMX (transpose q)) = 1) by (simpl; exact Hq).
  rewrite S1 in Ha, Hb.
  assert (Hsz : size2 b = size2 (toMX (transpose q))).
  { apply hasShape_true in Hb. tauto. }
  rewrite <- Hsz in Ha, Hb. split; [exact Hb|].
  rewrite (@entries_row _ _ _ ezero Ha), (@entries_row _ _ _ ezero Hb).
  rewrite zipWith_map. unfold bigsum. f_equal.
  apply map_ext_in. intros j Hj. apply in_seq in Hj. f_equal.
  (* the coefficient of column j of the transposed vector *)
  apply hasShape_true in Ha as (_ & Ha2 & Ha3).
  assert (Hlen : size2 (toMX (transpose q)) = size1 q).
  { unfold size2. simpl. now rewrite !length_map, length_seq. }
  assert (Hcol : column (toMX (transpose q)) j = map econst (row_of q j)).
  { unfold column. simpl. rewrite map_map.
    rewrite (nth_indep _ [] (map econst (row_of q 0)))
      by (rewrite length_map, length_seq; lia).
    rewrite (map_nth (fun i => map econst (row_of q i))).
    rewrite seq_nth by lia. reflexivity. }
  assert (Hl : length (column (toMX (transpose q)) j) = 1).
  { rewrite Forall_forall in Ha3. apply Ha3. apply nth_In.
    fold (size2 (toMX (transpose q))). lia. }
  rewrite Hcol in Hl |- *. rewrite length_map in Hl.
  unfold quadCoeff. fold q. unfold row_of, column in *.
  destruct (cols q) as [|c0 [|c1 cs]] eqn:Hc; unfold size2 in Hq; rewrite Hc in Hq;
    simpl in Hq; try discriminate.
  simpl in *. rewrite app_nil_r in *.
  change (match skipn j c0 with [] => [] | a :: _ => [a] end)
    with (firstn 1 (skipn j c0)) in Hl |- *.
  rewrite (@firstn1_skipn _ c0 j d0 Hl). reflexivity.
Qed.

Lemma nth_map_in {X Y} (g : X -> Y) (l : list X) j dx dy :
  j < length l -> nth j (map g l) dy = g (nth j l dx).
Proof.
  intros Hj. rewrite (nth_indep _ dy (g dx)) by now rewrite length_map.
  apply map_nth.
Qed.

(** The integrand row after the weighted sum of the squared multipliers
    has been added to it. *)
Lemma regularized_row (l l' mults : Mat E) (w : E) :
  madd l (mscale w (sum1 (msq mults))) = inr l' ->
  size2 l' = size2 l /\
  forall j, j < size2 l ->
    rowEntry l' j = eadd (rowEntry l j) (emul w (esum (map esq (column mults j)))).
Proof.
  unfold madd. intros H. apply zipMat_ok in H as (Hl & Hr & ->).
  apply hasShape_true in Hl as (_ & _ & Hl3).
  apply hasShape_true in Hr as (Hr1 & Hr2 & Hr3).
  simpl in Hr1. rewrite <- Hr1 in *.
  assert (Hm : length (cols mults) = length (cols l)).
  { unfold size2 in Hr2. simpl in Hr2. now rewrite !length_map in Hr2. }
  assert (Hc : forall j, j < length (cols l) ->
             nth j (cols (mscale w (sum1 (msq mults)))) [] =
             [emul w (esum (map esq (nth j (cols mults) [])))]).
  { intros j Hj. simpl. rewrite !map_map.
    rewrite (nth_map_in _ _ []); [reflexivity | lia]. }
  set (R := mscale w (sum1 (msq mults))) in *.
  split.
  - unfold size2. simpl. now rewrite zipWith_length.
  - intros j Hj. unfold rowEntry, column, size2 in *. cbn [cols].
    rewrite (nth_zipWith _ _ _ [] [] []) by lia.
    rewrite Hc by assumption.
    assert (Hx : length (nth j (cols l) []) = 1).
    { rewrite Forall_forall in Hl3. apply Hl3. apply nth_In. exact Hj. }
    rewrite (@singleton_of_length _ _ ezero Hx) at 1. reflexivity.
Qed.

(** C1, as the code has it.  The objective built by [setObjective] is
    J = (t_f - t_0) * sum_j q_j * (l_j + w * sum_i lambda_ij^2) + Phi
    when the multipliers are minimized (they exist and the solver asks for
    it) and J = (t_f - t_0) * sum_j q_j * l_j + Phi otherwise, for a column
    vector [q] of quadrature coefficients, [l] the integrand evaluated on
    the grid and [Phi] the endpoint cost: the regularization is a part of
    the integrand, weighted by the quadrature and by the duration. *)
Theorem objective_regularizes_inside_quadrature t t' :
  setObjective t = inr t' ->
  size2 (createQuadratureCoefficients (D := D)) = 1 ->
  exists out integrand phi,
    evalOnTrajectory t (getIntegralCostIntegrand (m_problem t))
      [states; controls; multipliers; derivatives] ref_gridIndices = inr out /\
    vecAt out 0 = inr integrand /\
    endpointCostOf t = inr phi /\
    m_objective t' = codeObjective t integrand phi.
Proof.
  unfold setObjective. intros H Hq.
  unbind H as [out t1] Hev. apply evalRecorded_ok in Hev as [Hev ->].
  unbind H as l Hl. unbind H as l' Hl'. unbind H as x Hx. unbind H as phi Hphi.
  ret_inv H. subst t'. simpl.
  exists out, l, phi. repeat split; auto.
  unfold codeObjective. f_equal. f_equal.
  apply dot_quadrature in Hx; [|exact Hq]. destruct Hx as (_ & ->).
  change (minimizesMultipliers (add_evalCall t
            (IntegralCostIntegrand, [states; controls; multipliers; derivatives],
             ref_gridIndices)))
    with (minimizesMultipliers t) in Hl'.
  destruct (minimizesMultipliers t).
  - unbind Hl' as mults Hm. apply vat_Some in Hm. simpl in Hm, Hl'.
    apply regularized_row in Hl' as (Hsz & Hrow).
    rewrite Hsz. unfold bigsum. f_equal.
    apply map_ext_in. intros j Hj. apply in_seq in Hj.
    rewrite Hrow by lia. unfold multipliersAt. now rewrite Hm.
  - ret_inv Hl'. now subst l'.
Qed.
End Objective.

(* ================================================================== *)
(** * Further properties of the report *)

(** ** calcL1Norm *)

Section L1Norm.
Context {D : Type} {num : Numeric D}.

Lemma wf_entries_length (v : Mat D) : wf v -> length (entries v) = numel v.
Proof.
  unfold wf, entries, numel, size2. intros H.
  induction (cols v) as [|c cs IH]; simpl.
  - lia.
  - inversion H; subst. rewrite length_app, IH; auto. lia.
Qed.

Lemma entryLin_defined (v : Mat D) k :
  wf v -> k < numel v -> exists x, entryLin v k = inr x.
Proof.
  intros W Hk. unfold entryLin. rewrite <- wf_entries_length in Hk by assumption.
  destruct (nth_error (entries v) k) as [x|] eqn:Hx; [eauto|].
  apply nth_error_None in Hx. lia.
Qed.

Lemma entryLin_bound (v : Mat D) k x : wf v -> entryLin v k = inr x -> k < numel v.
Proof.
  intros W H. unfold entryLin in H. rewrite <- wf_entries_length by assumption.
  destruct (nth_error (entries v) k) eqn:Hx; [|discriminate].
  apply nth_error_Some. congruence.
Qed.

(** The loop keeps the running pair or moves it to a later index with the
    absolute value of the entry there. *)
Lemma calcL1NormLoop_result (v : Mat D) range : forall max argmax m k,
  calcL1NormLoop v range max argmax = inr (m, k) ->
  (k = argmax /\ m = max) \/
  (In k range /\ exists x, entryLin v k = inr x /\ m = dabs x).
Proof.
  induction range as [|i rest IH]; intros max argmax m k H; simpl in H.
  - unfold ret in H. inversion H; subst. auto.
  - unbind H as x Hx. destruct (dltb max x).
    + apply IH in H. destruct H as [[-> ->]|(Hin & y & Hy & ->)].
      * right. split; [now left|]. eauto.
      * right. split; [now right|]. eauto.
    + apply IH in H. destruct H as [[-> ->]|(Hin & y & Hy & ->)]; auto.
      right. split; [now right|]. eauto.
Qed.

Lemma calcL1NormLoop_defined (v : Mat D) range :
  wf v -> Forall (fun i => i < numel v) range ->
  forall max argmax, exists m k, calcL1NormLoop v range max argmax = inr (m, k).
Proof.
  intros W. induction range as [|i rest IH]; intros HF max argmax; simpl.
  - eexists. eexists. reflexivity.
  - inversion HF; subst.
    destruct (entryLin_defined W H1) as (x & ->). simpl.
    destruct (dltb max x); apply IH; auto.
Qed.

Lemma calcL1Norm_defined (v : Mat D) :
  wf v -> 0 < numel v -> exists m k, calcL1Norm v = inr (m, k).
Proof.
  intros W Hn. unfold calcL1Norm.
  destruct (entryLin_defined W Hn) as (x0 & H0). rewrite H0. simpl.
  apply calcL1NormLoop_defined; auto.
  apply Forall_forall. intros i Hi. apply in_seq in Hi. lia.
Qed.

(** X1.  On an empty vector [calcL1Norm] throws (the read of [v(0)]).  On a
    vector with at least one entry it returns a value and an index of the
    vector; the value is [v(0)] itself, with its sign, when the index is 0,
    and the absolute value of the entry at the index otherwise. *)
Theorem calcL1Norm_returns_an_index_of_the_vector (v : Mat D) :
  wf v ->
  (numel v = 0 -> calcL1Norm v = inl outOfBounds) /\
  (0 < numel v ->
   exists m k x,
     calcL1Norm v = inr (m, k) /\ k < numel v /\ entryLin v k = inr x /\
     m = (if k =? 0 then x else dabs x)).
Proof.
  intros W. split.
  - intros Hn. unfold calcL1Norm, entryLin.
    rewrite <- wf_entries_length in Hn by assumption.
    destruct (entries v); [reflexivity | discriminate].
  - intros Hn. unfold calcL1Norm.
    destruct (entryLin_defined W Hn) as (x0 & H0). rewrite H0. simpl.
    assert (HF : Forall (fun i => i < numel v) (seq 1 (numel v - 1))).
    { apply Forall_forall. intros i Hi. apply in_seq in Hi. lia. }
    destruct (calcL1NormLoop_defined W HF x0 0) as (m & k & Hr).
    rewrite Hr. pose proof Hr as Hc. apply calcL1NormLoop_result in Hc.
    destruct Hc as [[-> ->]|(Hin & y & Hy & ->)].
    + exists x0, 0, x0. simpl. auto.
    + apply in_seq in Hin. exists (dabs y), k, y.
      repeat split; auto; try lia.
      destruct k; [lia | reflexivity].
Qed.

(** The comparison [<] of the entries is a strict total order. *)
Hypothesis dltb_irrefl : forall a : D, dltb a a = false.
Hypothesis dltb_asym : forall a b : D, dltb a b = true -> dltb b a = false.
Hypothesis dltb_below : forall a b c : D,
  dltb a b = true -> dltb a c = false -> dltb c b = true.

Lemma calcL1NormLoop_max (v : Mat D) range :
  (forall x, In x (entries v) -> dabs x = x) ->
  forall lo max argmax m k,
  range = seq lo (length range) ->
  argmax < lo ->
  entryLin v argmax = inr max ->
  (forall i x, i < lo -> entryLin v i = inr x -> dltb max x = false) ->
  (forall i x, i < argmax -> entryLin v i = inr x -> dltb x max = true) ->
  calcL1NormLoop v range max argmax = inr (m, k) ->
  entryLin v k = inr m /\
  (forall i x, i < lo + length range -> entryLin v i = inr x -> dltb m x = false) /\
  (forall i x, i < k -> entryLin v i = inr x -> dltb x m = true).
Proof.
  intros Habs. induction range as [|j rest IH];
    intros lo max argmax m k Hrange Hlt Hmax Hup Hfirst H; simpl in H.
  - unfold ret in H. inversion H; subst. simpl. rewrite Nat.add_0_r. auto.
  - simpl in Hrange. injection Hrange as -> Hrest.
    unbind H as x Hx.
    assert (Hxabs : dabs x = x).
    { apply Habs. unfold entryLin in Hx.
      destruct (nth_error (entries v) lo) eqn:Hn; [|discriminate].
      apply nth_error_In in Hn. unfold ret in Hx. now inversion Hx; subst. }
    destruct (dltb max x) eqn:Hc.
    + rewrite Hxabs in H.
      apply (IH (S lo)) in H; auto.
      * simpl. now rewrite <- Nat.add_succ_comm.
      * intros i y Hi Hy.
        destruct (Nat.eq_dec i lo) as [->|Hne].
        -- rewrite Hx in Hy. inversion Hy; subst. apply dltb_irrefl.
        -- apply dltb_asym. apply dltb_below with (a := max); auto.
           apply (Hup i); auto. lia.
      * intros i y Hi Hy. apply dltb_below with (a := max); auto.
        apply (Hup i); auto.
    + apply (IH (S lo)) in H; auto.
      * simpl. now rewrite <- Nat.add_succ_comm.
      * intros i y Hi Hy.
        destruct (Nat.eq_dec i lo) as [->|Hne].
        -- rewrite Hx in Hy. inversion Hy; subst. exact Hc.
        -- apply (Hup i); auto. lia.
Qed.

(** X2.  On a vector without negative entries (every entry is its own
    absolute value) and a comparison that is a strict total order,
    [calcL1Norm] returns the largest entry and the first index at which it
    is attained. *)
Theorem calcL1Norm_is_right_without_negative_entries (v : Mat D) :
  wf v -> 0 < numel v ->
  (forall x, In x (entries v) -> dabs x = x) ->
  exists m k,
    calcL1Norm v = inr (m, k) /\
    entryLin v k = inr m /\
    (forall i x, entryLin v i = inr x -> dltb m x = false) /\
    (forall i x, i < k -> entryLin v i = inr x -> dltb x m = true).
Proof.
  intros W Hn Habs.
  destruct (calcL1Norm_defined W Hn) as (m & k & Hr).
  exists m, k. split; [exact Hr|].
  unfold calcL1Norm in Hr. unbind Hr as x0 H0.
  apply (@calcL1NormLoop_max v (seq 1 (numel v - 1)) Habs 1) in Hr; auto.
  - destruct Hr as (Hk & Hup & Hfirst). split; [exact Hk|]. split; [|exact Hfirst].
    intros i y Hy. apply (Hup i); auto.
    rewrite length_seq. apply entryLin_bound in Hy; auto. lia.
  - now rewrite length_seq.
  - intros i y Hi Hy. assert (i = 0) by lia. subst i.
    rewrite H0 in Hy. inversion Hy; subst. apply dltb_irrefl.
  - intros i y Hi. lia.
Qed.
End L1Norm.

(** ** print_bounds *)

Section BoundsTables.
Context {D : Type} {num : Numeric D}.
Implicit Types (read : nat -> Exc (D * D * D)) (time : nat -> Exc D).

Lemma boundCase_star (L V U : D) :
  isShown (boundCase L V U) = true ->
  (dltb V L || dltb U V) = match boundCase L V U with Violated => true | _ => false end.
Proof.
  unfold boundCase.
  destruct (dleb V L || dleb U V); simpl; [|discriminate].
  destruct (deqb V L && deqb L U); simpl; [discriminate|].
  destruct (dltb V L || dltb U V); reflexivity.
Qed.

(** The second pass over one row prints the lines of the row; its lines
    tell whether a bound of the row is active and whether one is violated. *)
Lemma printTimes_lines read time ivar label itimes : forall rows,
  printTimes read time ivar label itimes = inr rows ->
  rows = linesOfRow read time ivar label itimes /\
  existsb (shownAt read) itimes = negb (length rows =? 0) /\
  existsb (violatedAt read) itimes = existsb (@br_star D) rows.
Proof.
  induction itimes as [|itime rest IH]; intros rows H; simpl in H.
  - unfold ret in H. inversion H; subst. repeat split.
  - unbind H as [[L V] U] Hr. unfold linesOfRow, shownAt, violatedAt. simpl.
    rewrite Hr.
    destruct (boundCase L V U) eqn:Hc; simpl.
    + apply IH in H. destruct H as (-> & H1 & H2). repeat split; auto.
      destruct (time itime); reflexivity.
    + apply IH in H. destruct H as (-> & H1 & H2). repeat split; auto.
      destruct (time itime); reflexivity.
    + unbind H as tm Htm. unbind H as more Hm. unfold ret in H. inversion H; subst.
      apply IH in Hm. destruct Hm as (-> & H1 & H2). rewrite Htm.
      repeat split; auto. simpl.
      pose proof (boundCase_star L V U) as Hs. rewrite Hc in Hs. simpl in Hs.
      rewrite Hs by reflexivity. exact H2.
    + unbind H as tm Htm. unbind H as more Hm. unfold ret in H. inversion H; subst.
      apply IH in Hm. destruct Hm as (-> & H1 & H2). rewrite Htm.
      repeat split; auto. simpl.
      pose proof (boundCase_star L V U) as Hs. rewrite Hc in Hs. simpl in Hs.
      now rewrite Hs by reflexivity.
Qed.

Lemma printVars_lines (read2 : nat -> nat -> Exc (D * D * D)) time names itimes ivars :
  forall rows,
  printVars read2 time names ivars itimes = inr rows ->
  rows = flat_map (fun ivar => linesOfRow (read2 ivar) time ivar (nth_error names ivar)
                                 itimes) ivars /\
  existsb (fun ivar => existsb (shownAt (read2 ivar)) itimes) ivars =
    negb (length rows =? 0) /\
  existsb (fun ivar => existsb (violatedAt (read2 ivar)) itimes) ivars =
    existsb (@br_star D) rows.
Proof.
  induction ivars as [|ivar rest IH]; intros rows H; simpl in H.
  - unfold ret in H. inversion H. repeat split.
  - unbind H as here Hh. unbind H as more Hm. unfold ret in H. inversion H; subst.
    apply printTimes_lines in Hh. destruct Hh as (Hl & H1 & H2).
    apply IH in Hm. destruct Hm as (-> & H3 & H4). simpl.
    rewrite <- Hl. repeat split.
    + rewrite H1, H3, length_app. destruct (length here); simpl; auto.
    + now rewrite H2, H4, existsb_app.
Qed.

(** The flags of the first scan of one row: a bound was active, a bound
    was violated.  The scan leaves the row at its first violated bound, and
    both flags are set there. *)
Lemma scanTimes_flags read itimes : forall a b a' b',
  scanTimes read itimes (a, b) = inr (a', b') ->
  a' = a || existsb (shownAt read) itimes /\
  b' = b || existsb (violatedAt read) itimes.
Proof.
  induction itimes as [|itime rest IH]; intros a b a' b' H; simpl in H.
  - unfold ret in H. inversion H; subst. simpl. now rewrite !orb_false_r.
  - unbind H as [[L V] U] Hr. unfold shownAt, violatedAt. simpl. rewrite Hr.
    destruct (boundCase L V U) eqn:Hc; simpl.
    + now apply IH in H.
    + now apply IH in H.
    + apply IH in H. simpl in H. destruct H as [-> ->].
      split; [now rewrite orb_true_r|reflexivity].
    + unfold ret in H. inversion H; subst. now rewrite !orb_true_r.
Qed.

Lemma scanVars_flags (read2 : nat -> nat -> Exc (D * D * D)) itimes ivars :
  forall a b a' b',
  scanVars read2 ivars itimes (a, b) = inr (a', b') ->
  a' = a || existsb (fun ivar => existsb (shownAt (read2 ivar)) itimes) ivars /\
  b' = b || existsb (fun ivar => existsb (violatedAt (read2 ivar)) itimes) ivars.
Proof.
  induction ivars as [|ivar rest IH]; intros a b a' b' H; simpl in H.
  - unfold ret in H. inversion H; subst. simpl. now rewrite !orb_false_r.
  - unbind H as [a1 b1] Hs. apply scanTimes_flags in Hs. destruct Hs as [-> ->].
    apply IH in H. destruct H as [-> ->]. simpl. now rewrite !orb_assoc.
Qed.

(** Without a shown entry there is no line. *)
Lemma linesOfRow_nil read time ivar label itimes :
  existsb (shownAt read) itimes = false -> linesOfRow read time ivar label itimes = [].
Proof.
  induction itimes as [|itime rest IH]; simpl; [reflexivity|].
  intros H. apply orb_false_iff in H. destruct H as [H1 H2].
  unfold linesOfRow in *. simpl. rewrite IH by assumption. rewrite app_nil_r.
  unfold shownAt in H1.
  destruct (read itime) as [e|[[L V] U]]; [reflexivity|].
  destruct (time itime); [reflexivity|]. now rewrite H1.
Qed.

Lemma lines_nil (read2 : nat -> nat -> Exc (D * D * D)) time names itimes ivars :
  existsb (fun ivar => existsb (shownAt (read2 ivar)) itimes) ivars = false ->
  flat_map (fun ivar => linesOfRow (read2 ivar) time ivar (nth_error names ivar) itimes)
    ivars = [].
Proof.
  induction ivars as [|ivar rest IH]; simpl; [reflexivity|].
  intros H. apply orb_false_iff in H. destruct H as [H1 H2].
  now rewrite linesOfRow_nil, IH.
Qed.

Lemma violated_shown (read2 : nat -> nat -> Exc (D * D * D)) itimes ivars :
  existsb (fun ivar => existsb (violatedAt (read2 ivar)) itimes) ivars = true ->
  existsb (fun ivar => existsb (shownAt (read2 ivar)) itimes) ivars = true.
Proof.
  intros H. apply existsb_exists in H. destruct H as (i & Hi & H).
  apply existsb_exists in H. destruct H as (j & Hj & H).
  apply existsb_exists. exists i. split; auto.
  apply existsb_exists. exists j. split; auto.
  unfold violatedAt, shownAt in *.
  destruct (read2 i j) as [e|[[L V] U]]; [discriminate|].
  destruct (boundCase L V U); auto; discriminate.
Qed.

(** X3.  A table that [print_bounds] returns holds, row after row and time
    after time, exactly the lines of the entries that are not strictly
    inside their bounds (the case lower == value == upper apart), and its
    summary is the one of these lines: no line, lines without a violated
    bound, or lines with a violated bound.  The first scan, which leaves a
    row at its first violated bound, and the second pass agree. *)
Theorem print_bounds_prints_every_active_bound
  description names (tm values lower upper : Mat D) tbl :
  print_bounds description names tm values lower upper = inr tbl ->
  bt_description tbl = description /\
  bt_rows tbl = boundLines names tm values lower upper /\
  bt_summary tbl = summaryOfLines (bt_rows tbl).
Proof.
  unfold print_bounds. fold (boundsRead lower values upper). intros H.
  unbind H as [a b] Hs. apply scanVars_flags in Hs. simpl in Hs.
  destruct Hs as [Ha Hb]. unfold boundsTable in H.
  destruct a, b; simpl in H.
  - unbind H as rows Hr. unfold ret in H. inversion H; subst tbl; simpl.
    apply printVars_lines in Hr. destruct Hr as (Hl & H1 & H2).
    split; [reflexivity|]. split; [exact Hl|].
    rewrite <- Ha in H1. rewrite <- Hb in H2. unfold summaryOfLines.
    destruct rows; [discriminate|]. now rewrite <- H2.
  - unbind H as rows Hr. unfold ret in H. inversion H; subst tbl; simpl.
    apply printVars_lines in Hr. destruct Hr as (Hl & H1 & H2).
    split; [reflexivity|]. split; [exact Hl|].
    rewrite <- Ha in H1. rewrite <- Hb in H2. unfold summaryOfLines.
    destruct rows; [discriminate|]. now rewrite <- H2.
  - symmetry in Hb. apply violated_shown in Hb. congruence.
  - unfold ret in H. inversion H; subst tbl; simpl.
    split; [reflexivity|]. split; [|reflexivity].
    unfold boundLines. symmetry. now apply lines_nil.
Qed.
Lemma existsb_singleton (f : nat -> nat -> bool) (l : list nat) :
  existsb (fun ivar => existsb (f ivar) [0]) l = existsb (fun ivar => f ivar 0) l.
Proof.
  induction l as [|a l IH]; simpl in *; [reflexivity|]. rewrite orb_false_r. now rewrite IH.
Qed.

(** X4.  A table that [printParameterBounds] returns holds, row after
    row, exactly the lines of the values that are not strictly inside
    their bounds (the case lower == value == upper apart), and its summary
    is the one of these lines.  The scan, which ends at the first violated
    bound, and the pass that prints agree. *)
Theorem printParameterBounds_prints_every_active_bound
  description names (values lower upper : Mat D) tbl :
  printParameterBounds description names values lower upper = inr tbl ->
  bt_description tbl = description /\
  bt_rows tbl = parameterLines names values lower upper /\
  bt_summary tbl = summaryOfLines (bt_rows tbl).
Proof.
  unfold printParameterBounds. fold (parameterRead lower values upper). intros H.
  unbind H as [a b] Hs. apply scanTimes_flags in Hs. simpl in Hs.
  destruct Hs as [Ha Hb]. unfold boundsTable in H.
  assert (Hz : forall rd : nat -> Exc (D * D * D),
             existsb (fun ivar => existsb (shownAt (fun _ : nat => rd ivar)) [0])
               (seq 0 (size1 values)) =
             existsb (shownAt rd) (seq 0 (size1 values)) /\
             existsb (fun ivar => existsb (violatedAt (fun _ : nat => rd ivar)) [0])
               (seq 0 (size1 values)) =
             existsb (violatedAt rd) (seq 0 (size1 values))).
  { intros rd. split.
    - apply (existsb_singleton (fun ivar _ => shownAt rd ivar)).
    - apply (existsb_singleton (fun ivar _ => violatedAt rd ivar)). }
  destruct (Hz (parameterRead lower values upper)) as [Hz1 Hz2].
  unfold parameterLines.
  unfold parameterRead in Hz1, Hz2, Ha, Hb |- *.
  destruct a, b; simpl in H.
  - unbind H as rows Hr. unfold ret in H. inversion H; subst tbl; simpl.
    apply printVars_lines in Hr. destruct Hr as (Hl & H1 & H2).
    split; [reflexivity|]. split; [exact Hl|].
    rewrite Hz1, <- Ha in H1. rewrite Hz2, <- Hb in H2. unfold summaryOfLines.
    destruct rows; [discriminate|]. now rewrite <- H2.
  - unbind H as rows Hr. unfold ret in H. inversion H; subst tbl; simpl.
    apply printVars_lines in Hr. destruct Hr as (Hl & H1 & H2).
    split; [reflexivity|]. split; [exact Hl|].
    rewrite Hz1, <- Ha in H1. rewrite Hz2, <- Hb in H2. unfold summaryOfLines.
    destruct rows; [discriminate|]. now rewrite <- H2.
  - exfalso. symmetry in Hb. rewrite <- Hz2 in Hb. apply violated_shown in Hb.
    rewrite Hz1 in Hb. congruence.
  - unfold ret in H. inversion H; subst tbl.
    split; [reflexivity|]. split; [|reflexivity].
    symmetry.
    apply (lines_nil
             (fun ivar (_ : nat) =>
                L <- entryLin lower ivar ;; V <- entryLin values ivar ;;
                U <- entryLin upper ivar ;; ret (L, V, U))
             (fun _ => ret d0) names [0] (seq 0 (size1 values))).
    etransitivity; [exact Hz1 | now symmetry].
Qed.
End BoundsTables.

Section BoundsTablesReturn.
Context {D : Type} {num : Numeric D}.

Lemma entry_defined {T} (m : Mat T) i j :
  wf m -> i < size1 m -> j < size2 m -> exists x, entry m i j = inr x.
Proof.
  intros W Hi Hj. unfold entry.
  destruct (nth_error (cols m) j) as [c|] eqn:Hc.
  - assert (Hl : length c = size1 m).
    { unfold wf in W. rewrite Forall_forall in W. apply W.
      eapply nth_error_In; eauto. }
    destruct (nth_error c i) as [x|] eqn:Hx; [eauto|].
    apply nth_error_None in Hx. lia.
  - apply nth_error_None in Hc. unfold size2 in Hj. lia.
Qed.

Lemma scanTimes_defined (read : nat -> Exc (D * D * D)) itimes :
  Forall (fun itime => succeeds (read itime) = true) itimes ->
  forall flags, succeeds (scanTimes read itimes flags) = true.
Proof.
  induction itimes as [|itime rest IH]; intros HF flags; simpl; [reflexivity|].
  inversion HF; subst.
  destruct (read itime) as [e|[[L V] U]]; simpl in *; [discriminate|].
  destruct (boundCase L V U); auto.
Qed.

Lemma scanVars_defined (read : nat -> nat -> Exc (D * D * D)) itimes ivars :
  Forall (fun ivar => Forall (fun itime => succeeds (read ivar itime) = true) itimes) ivars ->
  forall flags, succeeds (scanVars read ivars itimes flags) = true.
Proof.
  induction ivars as [|ivar rest IH]; intros HF flags; simpl; [reflexivity|].
  inversion HF; subst.
  pose proof (scanTimes_defined (read ivar) H1 flags) as Hs.
  destruct (scanTimes (read ivar) itimes flags); simpl in *; [discriminate|].
  now apply IH.
Qed.

Lemma printTimes_defined (read : nat -> Exc (D * D * D)) time ivar label itimes :
  Forall (fun itime => succeeds (read itime) = true) itimes ->
  Forall (fun itime => succeeds (time itime) = true) itimes ->
  succeeds (printTimes read time ivar label itimes) = true.
Proof.
  induction itimes as [|itime rest IH]; intros HR HT; simpl; [reflexivity|].
  inversion HR; inversion HT; subst.
  destruct (read itime) as [e|[[L V] U]]; simpl in *; [discriminate|].
  specialize (IH H2 H6).
  destruct (boundCase L V U); auto.
  - destruct (time itime); simpl in *; [discriminate|].
    destruct (printTimes read time ivar label rest); simpl in *; auto.
  - destruct (time itime); simpl in *; [discriminate|].
    destruct (printTimes read time ivar label rest); simpl in *; auto.
Qed.

Lemma printVars_defined (read : nat -> nat -> Exc (D * D * D)) time names itimes ivars :
  Forall (fun ivar => Forall (fun itime => succeeds (read ivar itime) = true) itimes) ivars ->
  Forall (fun itime => succeeds (time itime) = true) itimes ->
  succeeds (printVars read time names ivars itimes) = true.
Proof.
  induction ivars as [|ivar rest IH]; intros HR HT; simpl; [reflexivity|].
  inversion HR; subst.
  pose proof (printTimes_defined (read ivar) time ivar (nth_error names ivar) H1 HT)
    as Hp.
  destruct (printTimes (read ivar) time ivar (nth_error names ivar) itimes);
    simpl in *; [discriminate|].
  specialize (IH H2 HT).
  destruct (printVars read time names rest itimes); simpl in *; auto.
Qed.

(** The lines of a table belong to the rows that were printed, and each
    carries the entry of the name list at the index of its row. *)
Lemma boundsTable_rows description names (read : nat -> nat -> Exc (D * D * D))
  time ivars itimes flags tbl :
  boundsTable description names read time ivars itimes flags = inr tbl ->
  Forall (fun row => In (br_var row) ivars /\
                     br_label row = nth_error names (br_var row)) (bt_rows tbl).
Proof.
  unfold boundsTable. intros H.
  assert (Hrows : bt_rows tbl = [] \/
                  printVars read time names ivars itimes = inr (bt_rows tbl)).
  { destruct (summaryOf flags); simpl in H.
    - left. ret_inv H. now subst tbl.
    - right. unbind H as rows Hr. ret_inv H. now subst tbl.
    - right. unbind H as rows Hr. ret_inv H. now subst tbl. }
  destruct Hrows as [-> | Hr]; [constructor|].
  apply printVars_lines in Hr. destruct Hr as (-> & _).
  apply Forall_forall. intros row Hin.
  apply in_flat_map in Hin. destruct Hin as (ivar & Hi & Hin).
  unfold linesOfRow in Hin. apply in_flat_map in Hin.
  destruct Hin as (itime & _ & Hin).
  destruct (read ivar itime) as [e|[[L V] U]]; [contradiction|].
  destruct (time itime) as [e|tm]; [contradiction|].
  destruct (isShown (boundCase L V U)); [|contradiction].
  destruct Hin as [<- | []]. simpl. auto.
Qed.

(** X5.  [print_bounds] returns a table whenever the three tables are
    well formed, have at least as many columns as there are times, the two
    bound tables have at least as many rows as the values, and the name
    list has a name for every row of the values (the source reads
    [names[ivar]] unchecked).  Every line of the table then carries a name
    of the list. *)
Theorem print_bounds_returns_on_full_tables
  description names (tm values lower upper : Mat D) :
  wf tm -> wf values -> wf lower -> wf upper ->
  numel tm <= size2 values -> numel tm <= size2 lower -> numel tm <= size2 upper ->
  size1 values <= size1 lower -> size1 values <= size1 upper ->
  size1 values <= length names ->
  exists tbl,
    print_bounds description names tm values lower upper = inr tbl /\
    Forall (fun row => exists name, nth_error names (br_var row) = Some name /\
                                    br_label row = Some name) (bt_rows tbl).
Proof.
  intros Wt Wv Wl Wu Cv Cl Cu Rl Ru Hnames.
  assert (HR : Forall (fun ivar =>
                 Forall (fun itime =>
                   succeeds (boundsRead lower values upper ivar itime) = true)
                   (seq 0 (numel tm))) (seq 0 (size1 values))).
  { apply Forall_forall. intros i Hi. apply in_seq in Hi.
    apply Forall_forall. intros j Hj. apply in_seq in Hj.
    unfold boundsRead.
    destruct (@entry_defined _ lower i j Wl) as (L & ->); try lia.
    destruct (@entry_defined _ values i j Wv) as (V & ->); try lia.
    destruct (@entry_defined _ upper i j Wu) as (U & ->); try lia.
    reflexivity. }
  assert (HT : Forall (fun itime => succeeds (entryLin tm itime) = true)
                 (seq 0 (numel tm))).
  { apply Forall_forall. intros j Hj. apply in_seq in Hj.
    destruct (@entryLin_defined _ tm j Wt) as (x & ->); [lia | reflexivity]. }
  assert (Hret : exists tbl,
             print_bounds description names tm values lower upper = inr tbl).
  { unfold print_bounds. fold (boundsRead lower values upper).
    pose proof (scanVars_defined _ HR (false, false)) as Hs.
    destruct (scanVars (boundsRead lower values upper) (seq 0 (size1 values))
                (seq 0 (numel tm)) (false, false)) as [e|flags];
      simpl in *; [discriminate|].
    unfold boundsTable.
    pose proof (printVars_defined _ _ names HR HT) as Hp.
    destruct (summaryOf flags); simpl; eauto;
      destruct (printVars (boundsRead lower values upper) (entryLin tm) names
                  (seq 0 (size1 values)) (seq 0 (numel tm)));
      simpl in *; try discriminate; eauto. }
  destruct Hret as (tbl & Htbl). exists tbl. split; [exact Htbl|].
  unfold print_bounds in Htbl. unbind Htbl as flags Hf.
  apply boundsTable_rows in Htbl.
  eapply Forall_impl; [|exact Htbl]. simpl.
  intros row [Hin Hlabel]. apply in_seq in Hin.
  destruct (nth_error names (br_var row)) as [name|] eqn:Hn.
  - exists name. auto.
  - apply nth_error_None in Hn. lia.
Qed.
End BoundsTablesReturn.

(** ** The norm tables and the tables of values *)

Lemma mapM_Forall2 {A B} (f : A -> Exc B) (l : list A) : forall r,
  mapM f l = inr r -> Forall2 (fun a b => f a = inr b) l r.
Proof.
  induction l as [|a l IH]; simpl; intros r H.
  - unfold ret in H. inversion H. constructor.
  - unbind H as b Hb. unbind H as bs Hbs. unfold ret in H. inversion H; subst.
    constructor; auto.
Qed.

Lemma Forall2_map_eq {A B C} (g : B -> C) (h : A -> C) (l : list A) (r : list B) :
  Forall2 (fun a b => g b = h a) l r -> map g r = map h l.
Proof. induction 1; simpl; congruence. Qed.

Lemma Forall2_nth_error {A B} (P : A -> B -> Prop) l r i b :
  Forall2 P l r -> nth_error r i = Some b -> exists a, nth_error l i = Some a /\ P a b.
Proof.
  intros H. revert i. induction H; intros [|i] Hi; simpl in *; try discriminate.
  - inversion Hi; subst. eauto.
  - eauto.
Qed.

Section LinearIndex.
Context {T : Type}.

Lemma nth_error_concat (r : nat) (cs : list (list T)) : forall k,
  0 < r -> Forall (fun c => length c = r) cs ->
  nth_error (concat cs) k =
  match nth_error cs (k / r) with
  | Some c => nth_error c (k mod r)
  | None => None
  end.
Proof.
  induction cs as [|c cs IH]; intros k Hr HF; simpl.
  - now rewrite !nth_error_nil.
  - inversion HF; subst.
    destruct (Nat.lt_ge_cases k (length c)) as [Hlt|Hge].
    + rewrite nth_error_app1 by assumption.
      rewrite Nat.div_small, Nat.mod_small by assumption. reflexivity.
    + rewrite nth_error_app2 by assumption.
      rewrite IH by assumption.
      pose proof (Nat.div_add (k - length c) 1 (length c)) as Hd.
      pose proof (Nat.Div0.mod_add (k - length c) 1 (length c)) as Hm.
      replace (k - length c + 1 * length c) with k in Hd, Hm by lia.
      rewrite Hd, Hm by lia.
      replace ((k - length c) / length c + 1) with (S ((k - length c) / length c)) by lia.
      reflexivity.
Qed.

(** [m(k)] is [m(k mod size1, k / size1)]: the linear index runs down the
    columns. *)
Lemma entryLin_entry (m : Mat T) k :
  wf m -> 0 < size1 m -> entryLin m k = entry m (k mod size1 m) (k / size1 m).
Proof.
  intros W Hr. unfold entryLin, entry, entries.
  rewrite (@nth_error_concat (size1 m)) by assumption.
  destruct (nth_error (cols m) (k / size1 m)); reflexivity.
Qed.
End LinearIndex.

Section ReportTables.
Context {D E F : Type} {num : Numeric D} {sym : Symbolic D E}.
Context {scheme : Scheme D E F} {collab : Collaborators D E F}.
Implicit Types (t : Transcription D E F).

Lemma normRow_label (it : Iterate D) label block irow row :
  normRow it label block irow = inr row -> nr_label row = label.
Proof.
  unfold normRow. intros H. unbind H as r Hr. unbind H as [m k] Hc.
  unbind H as tm Htm. unfold ret in H. inversion H. reflexivity.
Qed.

Lemma pathNorms_labels (it : Iterate D) blocks infos : forall ipc rows,
  pathNorms (F := F) it blocks ipc infos = inr rows ->
  map (@nr_label D) rows =
  flat_map (fun pc => map (fun ieq => Some (format_s_02i (pc_name pc) ieq))
                        (seq 0 (pc_size pc))) infos.
Proof.
  induction infos as [|pc rest IH]; intros ipc rows H; simpl in H.
  - unfold ret in H. inversion H. reflexivity.
  - unbind H as block Hb. unbind H as here Hh. unbind H as more Hm.
    unfold ret in H. inversion H; subst. simpl. rewrite map_app. f_equal.
    + apply mapM_Forall2 in Hh. apply Forall2_map_eq.
      eapply Forall2_impl; [|exact Hh]. simpl. intros ieq row. apply normRow_label.
    + eapply IH; eauto.
Qed.

(** The parts of the report after the five tables of the variables. *)
Lemma printConstraintValues_tables t (it : Iterate D) c r :
  printConstraintValues t it c = inr r ->
  let kinconNames := map (@name D) (getMultiplierInfos (m_problem t)) in
  let infos := getPathConstraintInfos (m_problem t) in
  exists p1 p2 tv tl tu pv pl pu M,
    rp_parameterBounds r = [p1; p2] /\
    printParameterBounds "Time bounds" time_names tv tl tu = inr p1 /\
    printParameterBounds "Parameter bounds" (parameter_names it) pv pl pu = inr p2 /\
    mapM (fun istate => normRow it (nth_error (state_names it) istate) (defects c) istate)
      (seq 0 (length (state_names it))) = inr (rp_defects r) /\
    mapM (fun ikc => normRow it (nth_error kinconNames ikc) (kinematic c) ikc)
      (seq 0 (size1 (kinematic c))) = inr (rp_kinematic r) /\
    dim (m_numMeshPoints t) = inr M /\
    mapM (valuesAt it (entry (kinematic c)) (length kinconNames)) (seq 0 M)
      = inr (rp_kinematicValues r) /\
    match infos with
    | [] => rp_path r = None
    | _ =>
        exists rows vals,
          rp_path r = Some (rows, vals) /\
          pathNorms it (path c) 0 infos = inr rows /\
          mapM (valuesAt it
                  (fun ipc imesh => block <- vecAt (path c) ipc ;; entryLin block imesh)
                  (length infos)) (seq 0 M) = inr vals
    end.
Proof.
  unfold printConstraintValues. cbv zeta. intros H.
  do 5 bind_inv H.
  unbind H as tv Htv. unbind H as tl Htl. unbind H as tu Htu.
  unbind H as p1 Hp1.
  unbind H as pv Hpv. unbind H as pl Hpl. unbind H as pu Hpu.
  unbind H as p2 Hp2.
  unbind H as ds Hds. unbind H as ks Hks. unbind H as M HM. unbind H as kv Hkv.
  unbind H as ps Hps. unfold ret in H. inversion H; subst r; simpl.
  exists p1, p2, tv, tl, tu, pv, pl, pu, M.
  repeat (split; [assumption || reflexivity|]).
  destruct (getPathConstraintInfos (m_problem t)) as [|pc rest]; simpl in Hps.
  - unfold ret in Hps. now inversion Hps.
  - unbind Hps as rows Hrows. unbind Hps as vals Hvals.
    unfold ret in Hps. inversion Hps; subst.
    exists rows, vals. rewrite length_map in Hvals. auto.
Qed.

(** X6.  The lines of a failure report.  The two tables of the time and
    parameter bounds are labelled with [initial_time], [final_time] and with
    the parameter names.  The defect table has one line per state name,
    labelled with the state names in order; the table of the kinematic
    constraints has one line per row of the kinematic block, labelled with
    the names of the multiplier infos; the table of their values has one
    line per mesh point.  The path tables are left out exactly when the
    problem has no path constraint; otherwise there is one norm line per
    equation of every path constraint, labelled name_00, name_01, ..., and
    one line of values per mesh point. *)
Theorem report_has_one_line_per_constraint_row t (it : Iterate D) c r :
  printConstraintValues t it c = inr r ->
  let kinconNames := map (@name D) (getMultiplierInfos (m_problem t)) in
  let infos := getPathConstraintInfos (m_problem t) in
  (exists p1 p2,
     rp_parameterBounds r = [p1; p2] /\
     bt_description p1 = "Time bounds" /\
     Forall (fun row => br_label row = nth_error time_names (br_var row)) (bt_rows p1) /\
     bt_description p2 = "Parameter bounds" /\
     Forall (fun row => br_label row = nth_error (parameter_names it) (br_var row))
       (bt_rows p2)) /\
  map (@nr_label D) (rp_defects r) = map Some (state_names it) /\
  map (@nr_label D) (rp_kinematic r) =
    map (nth_error kinconNames) (seq 0 (size1 (kinematic c))) /\
  Z.of_nat (length (rp_kinematicValues r)) = m_numMeshPoints t /\
  Forall (fun line => length (snd line) = length kinconNames) (rp_kinematicValues r) /\
  (rp_path r = None <-> infos = []) /\
  (forall rows vals,
     rp_path r = Some (rows, vals) ->
     map (@nr_label D) rows =
       flat_map (fun pc => map (fun ieq => Some (format_s_02i (pc_name pc) ieq))
                             (seq 0 (pc_size pc))) infos /\
     Z.of_nat (length vals) = m_numMeshPoints t /\
     Forall (fun line => length (snd line) = length infos) vals).
Proof.
  intros H. cbv zeta. apply printConstraintValues_tables in H. cbv zeta in H.
  destruct H as (p1 & p2 & tv & tl & tu & pv & pl & pu & M &
                 Hp & Hp1 & Hp2 & Hds & Hks & HM & Hkv & Hpath).
  assert (Hvals : forall (read : nat -> nat -> Exc D) n vals,
             mapM (valuesAt it read n) (seq 0 M) = inr vals ->
             Z.of_nat (length vals) = m_numMeshPoints t /\
             Forall (fun line => length (snd line) = n) vals).
  { intros read n vals Hv. split.
    - apply mapM_length in Hv. rewrite Hv, length_seq. apply dim_ok in HM. now rewrite HM.
    - apply mapM_Forall2 in Hv. clear - Hv.
      induction Hv as [|imesh line l l' Hx Hrest IH]; constructor; auto.
      unfold valuesAt in Hx. unbind Hx as tm Htm. unbind Hx as vs Hvs.
      unfold ret in Hx. inversion Hx; subst. simpl.
      apply mapM_length in Hvs. now rewrite Hvs, length_seq. }
  split; [|split; [|split; [|split; [|split; [|split]]]]].
  - exists p1, p2. split; [exact Hp|].
    unfold printParameterBounds in Hp1, Hp2.
    unbind Hp1 as f1 Hf1. unbind Hp2 as f2 Hf2.
    apply boundsTable_labels in Hp1, Hp2. tauto.
  - apply mapM_Forall2 in Hds.
    transitivity (map (fun istate => nth_error (state_names it) istate)
                    (seq 0 (length (state_names it)))).
    + apply Forall2_map_eq.
      eapply Forall2_impl; [|exact Hds]. simpl. intros i row. apply normRow_label.
    + clear. generalize (state_names it) as l. intros l.
      induction l using rev_ind; simpl; [reflexivity|].
      rewrite length_app. simpl length. rewrite Nat.add_1_r, seq_S, !map_app. simpl.
      rewrite nth_error_app2, Nat.sub_diag by lia. simpl. f_equal.
      rewrite <- IHl. apply map_ext_in. intros i Hi. apply in_seq in Hi.
      now rewrite nth_error_app1 by lia.
  - apply mapM_Forall2 in Hks. apply Forall2_map_eq.
    eapply Forall2_impl; [|exact Hks]. simpl. intros i row. apply normRow_label.
  - eapply Hvals; eauto.
  - eapply Hvals; eauto.
  - destruct (getPathConstraintInfos (m_problem t)) as [|pc rest].
    + tauto.
    + destruct Hpath as (rows & vals & -> & _). split; discriminate.
  - intros rows vals Hr.
    destruct (getPathConstraintInfos (m_problem t)) as [|pc rest] eqn:Hi.
    + congruence.
    + destruct Hpath as (rows' & vals' & Hr' & Hn & Hv).
      rewrite Hr in Hr'. inversion Hr'; subst rows' vals'.
      split; [eapply pathNorms_labels; eauto|]. eapply Hvals; eauto.
Qed.

(** X7.  The table "Path constraint values at each mesh point" reads every
    path block by the linear index of the mesh point: the entry shown for
    path constraint [ipc] at mesh point [imesh] is the entry of the block
    in row [imesh mod S] and column [imesh / S], for [S] the number of rows
    of the block.  For a path constraint with one equation this is its
    value at the mesh point; for one with more equations it is not. *)
Theorem path_values_are_read_by_linear_index t (it : Iterate D) c r rows vals :
  printConstraintValues t it c = inr r ->
  rp_path r = Some (rows, vals) ->
  forall imesh tm vs,
    nth_error vals imesh = Some (tm, vs) ->
    entryLin (times it) imesh = inr tm /\
    forall ipc x,
      nth_error vs ipc = Some x ->
      exists block,
        nth_error (path c) ipc = Some block /\
        entryLin block imesh = inr x /\
        (wf block -> 0 < size1 block ->
         entry block (imesh mod size1 block) (imesh / size1 block) = inr x).
Proof.
  intros H Hr. apply printConstraintValues_tables in H. cbv zeta in H.
  destruct H as (p1 & p2 & tv & tl & tu & pv & pl & pu & M &
                 _ & _ & _ & _ & _ & _ & _ & Hpath).
  destruct (getPathConstraintInfos (m_problem t)) as [|pc rest] eqn:Hi;
    [congruence|].
  destruct Hpath as (rows' & vals' & Hr' & _ & Hv).
  rewrite Hr in Hr'. inversion Hr'; subst rows' vals'. clear Hr'.
  intros imesh tm vs Hn.
  apply mapM_Forall2 in Hv.
  destruct (Forall2_nth_error _ Hv Hn) as (i & Hi' & Hx).
  assert (i = imesh).
  { apply nth_error_In in Hi' as Hin. apply in_seq in Hin.
    rewrite nth_error_seq in Hi'. destruct (imesh <? M) eqn:Hlt; [|discriminate].
    simpl in Hi'. now inversion Hi'. }
  subst i. unfold valuesAt in Hx.
  unbind Hx as tm' Htm. unbind Hx as vs' Hvs. unfold ret in Hx. inversion Hx; subst.
  split; [exact Htm|]. intros ipc x Hx'.
  apply mapM_Forall2 in Hvs.
  destruct (Forall2_nth_error _ Hvs Hx') as (k & Hk & Hread).
  assert (k = ipc).
  { rewrite nth_error_seq in Hk. destruct (ipc <? length (pc :: rest)); [|discriminate].
    simpl in Hk. now inversion Hk. }
  subst k. unbind Hread as block Hb. unfold vecAt in Hb.
  destruct (nth_error (path c) ipc) as [b|] eqn:Hp; [|discriminate].
  unfold ret in Hb. inversion Hb; subst b.
  exists block. split; [reflexivity|]. split; [exact Hread|].
  intros W Hs. now rewrite <- entryLin_entry.
Qed.
End ReportTables.

(* ================================================================== *)
(** * Further properties of the transcription *)

Section TranscribeContents.
Context {D E F : Type} {num : Numeric D} {sym : Symbolic D E}.
Context {scheme : Scheme D E F} {collab : Collaborators D E F}.
Implicit Types (t : Transcription D E F).

(** The blocks of the dynamics write [m_xdot], the residuals and the
    kinematic constraints only; the kinematic constraints are output 2 of
    the system evaluated at the mesh points. *)
Lemma transcribeImplicit_frame t t' :
  transcribeImplicit t = inr t' ->
  layout t' = layout t /\
  m_constraintsLowerBounds t' = m_constraintsLowerBounds t /\
  m_constraintsUpperBounds t' = m_constraintsUpperBounds t /\
  defects (m_constraints t') = defects (m_constraints t) /\
  path (m_constraints t') = path (m_constraints t) /\
  exists out kc,
    evalOnTrajectory t (getImplicitMultibodySystem (m_problem t)) dynamicsInputs
      ref_daeIndices = inr out /\
    vecAt out 2 = inr kc /\ kinematic (m_constraints t') = kc.
Proof.
  unfold transcribeImplicit. intros H.
  unbind H as w Hw. unbind H as x1 Hx1.
  unbind H as [out t1] Hev. apply evalRecorded_ok in Hev as [Hev ->]. simpl in H.
  unbind H as o0 Ho0. unbind H as res1 Hr1. unbind H as o1 Ho1.
  unbind H as x2 Hx2. unbind H as o2 Ho2.
  rewrite (@evalOnTrajectory_layout _ _ _ _ _ _ t) in Hev by reflexivity.
  destruct (negb (m_numPointsIgnoringConstraints t =? 0)%Z).
  - unbind H as [out' t2] Hev'. apply evalRecorded_ok in Hev' as [_ ->]. simpl in H.
    unbind H as p0 Hp0. unbind H as res2 Hr2. unbind H as p1 Hp1.
    unbind H as x3 Hx3. ret_inv H. subst t'. simpl.
    repeat split; auto. exists out, o2. auto.
  - ret_inv H. subst t'. simpl.
    repeat split; auto. exists out, o2. auto.
Qed.

Lemma transcribeExplicit_frame t t' :
  transcribeExplicit t = inr t' ->
  layout t' = layout t /\
  m_constraintsLowerBounds t' = m_constraintsLowerBounds t /\
  m_constraintsUpperBounds t' = m_constraintsUpperBounds t /\
  defects (m_constraints t') = defects (m_constraints t) /\
  path (m_constraints t') = path (m_constraints t) /\
  exists out kc,
    evalOnTrajectory t (getMultibodySystem (m_problem t)) dynamicsInputs
      ref_daeIndices = inr out /\
    vecAt out 2 = inr kc /\ kinematic (m_constraints t') = kc.
Proof.
  unfold transcribeExplicit. intros H.
  unbind H as [out t1] Hev. apply evalRecorded_ok in Hev as [Hev ->]. simpl in H.
  unbind H as o0 Ho0. unbind H as x1 Hx1. unbind H as o1 Ho1.
  unbind H as x2 Hx2. unbind H as o2 Ho2.
  destruct (negb (m_numPointsIgnoringConstraints t =? 0)%Z).
  - unbind H as [out' t2] Hev'. apply evalRecorded_ok in Hev' as [_ ->]. simpl in H.
    unbind H as p0 Hp0. unbind H as x3 Hx3. unbind H as p1 Hp1.
    unbind H as x4 Hx4. ret_inv H. subst t'. simpl.
    repeat split; auto. exists out, o2. auto.
  - ret_inv H. subst t'. simpl.
    repeat split; auto. exists out, o2. auto.
Qed.

(** The loop over the path constraints: every block is output 0 of the
    function of its info, evaluated at the mesh points; its bounds are the
    bounds of the info, once per mesh point. *)
Lemma transcribePath_contents infos : forall t M ipc ps ls us t',
  transcribePath t M ipc infos = inr (ps, ls, us, t') ->
  Forall2 (fun info block =>
             exists out,
               evalOnTrajectory t (pc_function info) dynamicsInputs ref_daeIndices
                 = inr out /\
               vecAt out 0 = inr block) infos ps /\
  ls = map (fun info => repmatCols (lowerBounds info) M) infos /\
  us = map (fun info => repmatCols (upperBounds info) M) infos.
Proof.
  induction infos as [|info rest IH]; intros t M ipc ps ls us t' H; simpl in H.
  - unfold ret in H. inversion H; subst. repeat split. constructor.
  - unbind H as [out t1] Hev. apply evalRecorded_ok in Hev as [Hev ->].
    unbind H as o0 Ho0. unbind H as [[[ps' ls'] us'] t2] Hrec.
    unfold ret in H. inversion H; subst.
    apply IH in Hrec as (HF & -> & ->). simpl. repeat split.
    constructor.
    + exists out. auto.
    + eapply Forall2_impl; [|exact HF]. simpl.
      intros i b (o & Ho & Hb). exists o. split; auto.
Qed.

Lemma transcribeDefectsAndPath_contents t t' :
  transcribeDefectsAndPath t = inr t' ->
  exists M,
    dim (m_numMeshPoints t) = inr M /\
    calcDefects t = inr (defects (m_constraints t')) /\
    kinematic (m_constraints t') = kinematic (m_constraints t) /\
    Forall2 (fun info block =>
               exists out,
                 evalOnTrajectory t (pc_function info) dynamicsInputs ref_daeIndices
                   = inr out /\
                 vecAt out 0 = inr block)
      (getPathConstraintInfos (m_problem t)) (path (m_constraints t')) /\
    path (m_constraintsLowerBounds t') =
      map (fun info => repmatCols (lowerBounds info) M) (getPathConstraintInfos (m_problem t)) /\
    path (m_constraintsUpperBounds t') =
      map (fun info => repmatCols (upperBounds info) M) (getPathConstraintInfos (m_problem t)) /\
    defects (m_constraintsLowerBounds t') = defects (m_constraintsLowerBounds t) /\
    defects (m_constraintsUpperBounds t') = defects (m_constraintsUpperBounds t) /\
    kinematic (m_constraintsLowerBounds t') = kinematic (m_constraintsLowerBounds t) /\
    kinematic (m_constraintsUpperBounds t') = kinematic (m_constraintsUpperBounds t).
Proof.
  unfold transcribeDefectsAndPath. intros H.
  unbind H as d Hd. unbind H as M HM. unbind H as [[[ps ls] us] t1] Hp.
  pose proof Hp as Hc. apply transcribePath_contents in Hc as (HF & -> & ->).
  apply transcribePath_spec in Hp as (L & X & C & CL & CU & _).
  ret_inv H. subst t'. simpl in *.
  rewrite C, CL, CU. simpl. exists M. repeat split; auto.
Qed.

(** The memory of the defects and of the kinematic constraints and their
    bounds, as [initializeMemory] leaves them. *)
Lemma initializeMemory_bounds t t' :
  initializeMemory t = inr t' ->
  exists Nd I M,
    dim (m_numDefectsPerGridPoint t) = inr Nd /\
    dim (m_numMeshIntervals t) = inr I /\
    dim (m_numMeshPoints t) = inr M /\
    defects (m_constraintsLowerBounds t') = DM_zeros Nd I /\
    defects (m_constraintsUpperBounds t') = DM_zeros Nd I /\
    kinematic (m_constraintsLowerBounds t') =
      fill (lower (getKinematicConstraintBounds (m_problem t)))
        (getNumKinematicConstraintEquations (m_problem t)) M /\
    kinematic (m_constraintsUpperBounds t') =
      fill (upper (getKinematicConstraintBounds (m_problem t)))
        (getNumKinematicConstraintEquations (m_problem t)) M.
Proof.
  unfold initializeMemory. intros H.
  unbind H as G HG. unbind H as Nd HNd. unbind H as I HI. unbind H as M HM.
  unbind H as t2 Ht2. simpl in Ht2.
  exists Nd, I, M.
  destruct (isDynamicsModeImplicit (m_solver t)).
  - unbind Ht2 as NR HNR. simpl in Ht2. ret_inv Ht2. subst t2. ret_inv H. subst t'.
    simpl. repeat split; auto.
  - ret_inv Ht2. subst t2. ret_inv H. subst t'. simpl. repeat split; auto.
Qed.

(** The state before the last block of [transcribe] and what the last
    block makes of it. *)
Lemma transcribe_tail t0 t :
  transcribe t0 = inr t ->
  exists t2 t3 t4,
    initializeMemory t2 = inr t3 /\ layout t2 = layout t0 /\
    layout t4 = layout t0 /\ layout t = layout t0 /\
    m_constraintsLowerBounds t4 = m_constraintsLowerBounds t3 /\
    m_constraintsUpperBounds t4 = m_constraintsUpperBounds t3 /\
    (exists out kc,
       evalOnTrajectory t0
         (if isDynamicsModeImplicit (m_solver t0)
          then getImplicitMultibodySystem (m_problem t0)
          else getMultibodySystem (m_problem t0)) dynamicsInputs ref_daeIndices = inr out /\
       vecAt out 2 = inr kc /\ kinematic (m_constraints t4) = kc) /\
    transcribeDefectsAndPath t4 = inr t.
Proof.
  intros H. apply transcribe_blocks in H.
  destruct H as (t1 & t2 & t3 & t4 & H1 & Hq & H2 & H3 & H4 & H5 & L1 & L2 & L3 & _ & W2 & W3).
  pose proof H3 as K3. apply transcribeQdot_spec in K3; [|exact W2].
  cbv zeta in K3. destruct K3 as (_ & C3 & CL3 & CU3 & _).
  pose proof L3 as Q3. apply layout_fields in Q3. destruct Q3 as (P3 & S3 & _).
  assert (K4 : layout t4 = layout t3 /\
               m_constraintsLowerBounds t4 = m_constraintsLowerBounds t3 /\
               m_constraintsUpperBounds t4 = m_constraintsUpperBounds t3 /\
               exists out kc,
                 evalOnTrajectory t3
                   (if isDynamicsModeImplicit (m_solver t0)
                    then getImplicitMultibodySystem (m_problem t3)
                    else getMultibodySystem (m_problem t3)) dynamicsInputs ref_daeIndices
                   = inr out /\
                 vecAt out 2 = inr kc /\ kinematic (m_constraints t4) = kc).
  { destruct (isDynamicsModeImplicit (m_solver t0)).
    - apply transcribeImplicit_frame in H4. tauto.
    - apply transcribeExplicit_frame in H4. tauto. }
  destruct K4 as (L4 & CL4 & CU4 & out & kc & Hev & Hkc & Hk).
  pose proof H5 as K5. apply transcribeDefectsAndPath_spec in K5. destruct K5 as (L5 & _).
  exists t1, t2, t4. repeat split; try congruence.
  exists out, kc. repeat split; auto.
  rewrite <- Hev, P3. now apply evalOnTrajectory_layout.
Qed.
End TranscribeContents.

Section TranscribeTheorems.
Context {D E F : Type} {num : Numeric D} {sym : Symbolic D E}.
Context {scheme : Scheme D E F} {collab : Collaborators D E F}.
Implicit Types (t : Transcription D E F).

(** X8.  [transcribe] writes the objective, [m_xdot], the constraint
    blocks and their bounds, and nothing else: the problem, the solver, the
    counts, the grid, the variables, the duration, the times, the three
    parameter blocks, the mask, the three index lists and the bounds of
    the variables are those of the object it was called on. *)
Theorem transcribe_keeps_the_variable_layout t0 t :
  transcribe t0 = inr t ->
  m_problem t = m_problem t0 /\ m_solver t = m_solver t0 /\
  m_numMeshPoints t = m_numMeshPoints t0 /\ m_numGridPoints t = m_numGridPoints t0 /\
  m_numMeshIntervals t = m_numMeshIntervals t0 /\
  m_numPointsIgnoringConstraints t = m_numPointsIgnoringConstraints t0 /\
  m_numDefectsPerGridPoint t = m_numDefectsPerGridPoint t0 /\
  m_numResiduals t = m_numResiduals t0 /\ m_numConstraints t = m_numConstraints t0 /\
  m_grid t = m_grid t0 /\ m_vars t = m_vars t0 /\ m_duration t = m_duration t0 /\
  m_times t = m_times t0 /\
  m_paramsTrajGrid t = m_paramsTrajGrid t0 /\ m_paramsTraj t = m_paramsTraj t0 /\
  m_paramsTrajIgnoringConstraints t = m_paramsTrajIgnoringConstraints t0 /\
  m_kinematicConstraintIndices t = m_kinematicConstraintIndices t0 /\
  m_gridIndices t = m_gridIndices t0 /\ m_daeIndices t = m_daeIndices t0 /\
  m_daeIndicesIgnoringConstraints t = m_daeIndicesIgnoringConstraints t0 /\
  m_lowerBounds t = m_lowerBounds t0 /\ m_upperBounds t = m_upperBounds t0.
Proof.
  intros H. apply transcribe_tail in H.
  destruct H as (t2 & t3 & t4 & _ & _ & _ & L & _).
  repeat split;
    [ exact (f_equal (@m_problem D E F) L)
    | exact (f_equal (@m_solver D E F) L)
    | exact (f_equal (@m_numMeshPoints D E F) L)
    | exact (f_equal (@m_numGridPoints D E F) L)
    | exact (f_equal (@m_numMeshIntervals D E F) L)
    | exact (f_equal (@m_numPointsIgnoringConstraints D E F) L)
    | exact (f_equal (@m_numDefectsPerGridPoint D E F) L)
    | exact (f_equal (@m_numResiduals D E F) L)
    | exact (f_equal (@m_numConstraints D E F) L)
    | exact (f_equal (@m_grid D E F) L)
    | exact (f_equal (@m_vars D E F) L)
    | exact (f_equal (@m_duration D E F) L)
    | exact (f_equal (@m_times D E F) L)
    | exact (f_equal (@m_paramsTrajGrid D E F) L)
    | exact (f_equal (@m_paramsTraj D E F) L)
    | exact (f_equal (@m_paramsTrajIgnoringConstraints D E F) L)
    | exact (f_equal (@m_kinematicConstraintIndices D E F) L)
    | exact (f_equal (@m_gridIndices D E F) L)
    | exact (f_equal (@m_daeIndices D E F) L)
    | exact (f_equal (@m_daeIndicesIgnoringConstraints D E F) L)
    | exact (f_equal (@m_lowerBounds D E F) L)
    | exact (f_equal (@m_upperBounds D E F) L) ].
Qed.

Lemma dim_inj_nat z n n' : dim z = inr n -> dim z = inr n' -> n = n'.
Proof. congruence. Qed.

(** X9.  The bounds of the constraints after [transcribe]: the bounds of
    the defects are zero tables with a row per defect and a column per mesh
    interval; the bounds of the kinematic constraints repeat the two
    bounds of the problem on a row per kinematic constraint equation and a
    column per mesh point; the bounds of the i-th path constraint are the
    bounds of its info, repeated once per mesh point. *)
Theorem transcribe_sets_the_constraint_bounds t0 t :
  transcribe t0 = inr t ->
  let p := m_problem t0 in
  exists Nd I M,
    Z.of_nat Nd = m_numDefectsPerGridPoint t0 /\
    Z.of_nat I = m_numMeshIntervals t0 /\
    Z.of_nat M = m_numMeshPoints t0 /\
    defects (m_constraintsLowerBounds t) = DM_zeros Nd I /\
    defects (m_constraintsUpperBounds t) = DM_zeros Nd I /\
    kinematic (m_constraintsLowerBounds t) =
      fill (lower (getKinematicConstraintBounds p))
        (getNumKinematicConstraintEquations p) M /\
    kinematic (m_constraintsUpperBounds t) =
      fill (upper (getKinematicConstraintBounds p))
        (getNumKinematicConstraintEquations p) M /\
    path (m_constraintsLowerBounds t) =
      map (fun info => repmatCols (lowerBounds info) M) (getPathConstraintInfos p) /\
    path (m_constraintsUpperBounds t) =
      map (fun info => repmatCols (upperBounds info) M) (getPathConstraintInfos p).
Proof.
  intros H. cbv zeta. apply transcribe_blocks in H.
  destruct H as (t1 & t2 & t3 & t4 & H1 & Hq & H2 & H3 & H4 & H5 & L1 & L2 & L3 & _ & W2 & W3).
  pose proof H2 as B2. apply initializeMemory_bounds in B2.
  destruct B2 as (Nd & I & M & HNd & HI & HM & DL & DU & KL & KU).
  pose proof H3 as K3. apply transcribeQdot_spec in K3; [|exact W2].
  cbv zeta in K3. destruct K3 as (_ & _ & CL3 & CU3 & _).
  assert (K4 : layout t4 = layout t3 /\
               m_constraintsLowerBounds t4 = m_constraintsLowerBounds t3 /\
               m_constraintsUpperBounds t4 = m_constraintsUpperBounds t3).
  { destruct (isDynamicsModeImplicit (m_solver t0)).
    - apply transcribeImplicit_frame in H4. tauto.
    - apply transcribeExplicit_frame in H4. tauto. }
  destruct K4 as (L4 & CL4 & CU4).
  apply transcribeDefectsAndPath_contents in H5.
  destruct H5 as (M' & HM' & _ & _ & _ & PL & PU & DL5 & DU5 & KL5 & KU5).
  assert (L40 : layout t4 = layout t0) by congruence.
  assert (E1 : m_problem t1 = m_problem t0) by exact (f_equal (@m_problem D E F) L1).
  assert (E4 : m_problem t4 = m_problem t0) by exact (f_equal (@m_problem D E F) L40).
  assert (N1 : m_numDefectsPerGridPoint t1 = m_numDefectsPerGridPoint t0)
    by exact (f_equal (@m_numDefectsPerGridPoint D E F) L1).
  assert (N2 : m_numMeshIntervals t1 = m_numMeshIntervals t0)
    by exact (f_equal (@m_numMeshIntervals D E F) L1).
  assert (N3 : m_numMeshPoints t1 = m_numMeshPoints t0)
    by exact (f_equal (@m_numMeshPoints D E F) L1).
  assert (N4 : m_numMeshPoints t4 = m_numMeshPoints t0)
    by exact (f_equal (@m_numMeshPoints D E F) L40).
  rewrite N4, <- N3 in HM'. assert (M' = M) by congruence. subst M'.
  apply dim_ok in HNd, HI, HM.
  exists Nd, I, M. rewrite <- E1 at 1 2. rewrite E4 in PL, PU.
  repeat split; try congruence.
Qed.

(** X10.  The constraint blocks after [transcribe].  The kinematic
    constraints are output 2 of the multibody system (the implicit one in
    implicit mode) evaluated at the mesh points; the i-th path constraint
    is output 0 of the function of the i-th info evaluated at the mesh
    points; the defects are what [calcDefects] returns on the object that
    holds the final [m_xdot], residuals and kinematic constraints. *)
Theorem transcribe_fills_the_constraint_blocks t0 t :
  transcribe t0 = inr t ->
  let p := m_problem t0 in
  (exists out,
     evalOnTrajectory t0
       (if isDynamicsModeImplicit (m_solver t0) then getImplicitMultibodySystem p
        else getMultibodySystem p) dynamicsInputs ref_daeIndices = inr out /\
     vecAt out 2 = inr (kinematic (m_constraints t))) /\
  Forall2 (fun info block =>
             exists out,
               evalOnTrajectory t0 (pc_function info) dynamicsInputs ref_daeIndices
                 = inr out /\
               vecAt out 0 = inr block)
    (getPathConstraintInfos p) (path (m_constraints t)) /\
  exists t4,
    calcDefects t4 = inr (defects (m_constraints t)) /\
    layout t4 = layout t0 /\ m_xdot t4 = m_xdot t /\
    residuals (m_constraints t4) = residuals (m_constraints t) /\
    kinematic (m_constraints t4) = kinematic (m_constraints t).
Proof.
  intros H. cbv zeta. apply transcribe_tail in H.
  destruct H as (t2 & t3 & t4 & _ & _ & L4 & L & _ & _ & (out & kc & Hev & Hkc & Hk) & H5).
  pose proof H5 as K5. apply transcribeDefectsAndPath_spec in K5.
  destruct K5 as (_ & X5 & R5 & _).
  apply transcribeDefectsAndPath_contents in H5.
  destruct H5 as (M & _ & Hd & Hkin & HF & _).
  assert (E4 : m_problem t4 = m_problem t0) by exact (f_equal (@m_problem D E F) L4).
  split; [|split].
  - exists out. split; [exact Hev|]. congruence.
  - rewrite E4 in HF. eapply Forall2_impl; [|exact HF]. simpl.
    intros info b (o & Ho & Hb). exists o. split; auto.
    rewrite <- Ho. symmetry. now apply evalOnTrajectory_layout.
  - exists t4. repeat split; auto.
Qed.

(** X11.  A problem whose numbers of coordinates and speeds differ is
    refused after the objective is built: [transcribe] throws the
    exception on quaternions, and so does [solve], whatever the guess. *)
Theorem transcribe_refuses_differing_coordinates_and_speeds t t1 :
  setObjective t = inr t1 ->
  getNumCoordinates (m_problem t) <> getNumSpeeds (m_problem t) ->
  transcribe t = inl (OpenSimException quaternionMessage) /\
  forall guess, solve t guess = inl (OpenSimException quaternionMessage).
Proof.
  intros H Hne.
  assert (Ht : transcribe t = inl (OpenSimException quaternionMessage)).
  { unfold transcribe. rewrite H. simpl.
    pose proof H as Fr. apply setObjective_frame in Fr.
    assert (P1 : m_problem t1 = m_problem t) by (rewrite Fr; reflexivity).
    rewrite P1. apply Nat.eqb_neq in Hne. now rewrite Hne. }
  split; [exact Ht|]. intros guess. unfold solve. now rewrite Ht.
Qed.
End TranscribeTheorems.

Section ImplicitResiduals.
Context {D E F : Type} {num : Numeric D} {sym : Symbolic D E}.
Context {scheme : Scheme D E F} {collab : Collaborators D E F}.
Implicit Types (t : Transcription D E F).

(** [transcribeImplicit]: the residuals and the derivatives of the
    auxiliary states are outputs 0 and 1 of the implicit systems, at the
    columns they were evaluated on. *)
Lemma evalOnTrajectory_set_xdot t x f inputs r :
  evalOnTrajectory (set_xdot t x) f inputs r = evalOnTrajectory t f inputs r.
Proof. reflexivity. Qed.

Lemma evalOnTrajectory_set_constraints t c f inputs r :
  evalOnTrajectory (set_constraints t c) f inputs r = evalOnTrajectory t f inputs r.
Proof. reflexivity. Qed.

Lemma evalOnTrajectory_add_evalCall t c f inputs r :
  evalOnTrajectory (add_evalCall t c) f inputs r = evalOnTrajectory t f inputs r.
Proof. reflexivity. Qed.

Lemma transcribeImplicit_contents t t' :
  transcribeImplicit t = inr t' ->
  wf (m_xdot t) -> wf (residuals (m_constraints t)) ->
  NoDup (m_daeIndices t) -> NoDup (m_daeIndicesIgnoringConstraints t) ->
  (forall j, In j (m_daeIndices t) -> ~ In j (m_daeIndicesIgnoringConstraints t)) ->
  let NQ := getNumCoordinates (m_problem t) in
  let NU := getNumSpeeds (m_problem t) in
  let NS := getNumStates (m_problem t) in
  let NR := size1 (residuals (m_constraints t)) in
  (exists out res zdot,
     evalOnTrajectory t (getImplicitMultibodySystem (m_problem t)) dynamicsInputs
       ref_daeIndices = inr out /\
     vecAt out 0 = inr res /\ vecAt out 1 = inr zdot /\
     getSub (residuals (m_constraints t')) 0 NR (m_daeIndices t) = inr res /\
     getSub (m_xdot t') (NQ + NU) NS (m_daeIndices t) = inr zdot) /\
  ((m_numPointsIgnoringConstraints t =? 0)%Z = false ->
   exists out res zdot,
     evalOnTrajectory t (getImplicitMultibodySystemIgnoringConstraints (m_problem t))
       dynamicsInputs ref_daeIndicesIgnoringConstraints = inr out /\
     vecAt out 0 = inr res /\ vecAt out 1 = inr zdot /\
     getSub (residuals (m_constraints t')) 0 NR (m_daeIndicesIgnoringConstraints t)
       = inr res /\
     getSub (m_xdot t') (NQ + NU) NS (m_daeIndicesIgnoringConstraints t) = inr zdot).
Proof.
  unfold transcribeImplicit. intros H Hwf Hrwf Hnd Hni Hdis. simpl.
  unbind H as w Hw. unbind H as x1 Hx1.
  unbind H as [out t1] Hev. apply evalRecorded_ok in Hev as [Hev ->].
  rewrite evalOnTrajectory_set_xdot in Hev. simpl in H.
  unbind H as o0 Ho0. unbind H as res1 Hr1. unbind H as o1 Ho1.
  unbind H as x2 Hx2. unbind H as o2 Ho2.
  pose proof Hx1 as S1. apply setSub_shape in S1; [|assumption].
  destruct S1 as (W1 & A1 & B1).
  pose proof Hx2 as S2. apply setSub_shape in S2; [|assumption].
  destruct S2 as (W2 & A2 & B2).
  pose proof Hr1 as R1. apply setSub_shape in R1; [|assumption].
  destruct R1 as (RW1 & RA1 & RB1).
  assert (G1 : getSub res1 0 (size1 (residuals (m_constraints t))) (m_daeIndices t)
               = inr o0)
    by (eapply getSub_setSub_same; eauto).
  assert (G2 : getSub x2 (getNumCoordinates (m_problem t) + getNumSpeeds (m_problem t))
                 (getNumStates (m_problem t)) (m_daeIndices t) = inr o1)
    by (eapply getSub_setSub_same; eauto).
  destruct (negb (m_numPointsIgnoringConstraints t =? 0)%Z) eqn:HP.
  - unbind H as [out' t2] Hev'. apply evalRecorded_ok in Hev' as [Hev' ->].
    rewrite !evalOnTrajectory_set_constraints, evalOnTrajectory_set_xdot,
      evalOnTrajectory_set_constraints, evalOnTrajectory_add_evalCall,
      evalOnTrajectory_set_xdot in Hev'.
    simpl in H.
    unbind H as p0 Hp0. unbind H as res2 Hr2. unbind H as p1 Hp1.
    unbind H as x3 Hx3. ret_inv H. subst t'. simpl.
    rewrite RA1 in Hr2.
    split.
    + exists out, o0, o1. repeat split; auto.
      * rewrite (@getSub_setSub_cols _ _ _ _ _ _ _ _ _ _ Hr2 RW1) by assumption. exact G1.
      * rewrite (@getSub_setSub_cols _ _ _ _ _ _ _ _ _ _ Hx3 W2) by assumption. exact G2.
    + intros _. exists out', p0, p1. repeat split; auto.
      * eapply getSub_setSub_same; eauto.
      * eapply getSub_setSub_same; eauto.
  - ret_inv H. subst t'. simpl. split.
    + exists out, o0, o1. auto.
    + intros HF. rewrite HF in HP. discriminate.
Qed.

Lemma MX_zeros_size1 r c : size1 (MX_zeros (D := D) (E := E) r c) = r.
Proof. reflexivity. Qed.

(** X12.  In implicit mode, after [transcribe]: at the mesh columns the
    residuals and the rows NQ+NU..NS of [m_xdot] are outputs 0 and 1 of the
    implicit multibody system evaluated at the mesh points; if there are
    interior points, at the interior columns they are outputs 0 and 1 of
    the implicit system that ignores the constraints, evaluated at the
    interior points. *)
Theorem implicit_residuals_come_from_the_implicit_systems
  (p : Problem D F) (s : Solver D) grid nd t0 t :
  createVariablesAndSetBounds p s grid nd = inr t0 ->
  transcribe t0 = inr t ->
  isDynamicsModeImplicit s = true ->
  let NQ := getNumCoordinates p in
  let NU := getNumSpeeds p in
  let NS := getNumStates p in
  (exists out res zdot,
     evalOnTrajectory t0 (getImplicitMultibodySystem p) dynamicsInputs ref_daeIndices
       = inr out /\
     vecAt out 0 = inr res /\ vecAt out 1 = inr zdot /\
     getSub (residuals (m_constraints t)) 0 NU (m_daeIndices t) = inr res /\
     getSub (m_xdot t) (NQ + NU) NS (m_daeIndices t) = inr zdot) /\
  ((m_numPointsIgnoringConstraints t =? 0)%Z = false ->
   exists out res zdot,
     evalOnTrajectory t0 (getImplicitMultibodySystemIgnoringConstraints p)
       dynamicsInputs ref_daeIndicesIgnoringConstraints = inr out /\
     vecAt out 0 = inr res /\ vecAt out 1 = inr zdot /\
     getSub (residuals (m_constraints t)) 0 NU (m_daeIndicesIgnoringConstraints t)
       = inr res /\
     getSub (m_xdot t) (NQ + NU) NS (m_daeIndicesIgnoringConstraints t) = inr zdot).
Proof.
  intros Hc Ht Himp. cbv zeta.
  pose proof Hc as Hp. apply createVariables_spec in Hp. cbv zeta in Hp.
  destruct Hp as (Pp & Ps & _ & _ & _ & _ & _ & HR & _).
  destruct (transcribe_qdot p s grid nd Hc Ht)
    as (_ & _ & _ & _ & L & _ & _ & _ & _ & _ & _ & Nd1 & Nd2 & Dis1 & Dis2).
  pose proof Ht as Hb. apply transcribe_blocks in Hb.
  destruct Hb as (t1 & t2 & t3 & t4 & H1 & Hq & H2 & H3 & H4 & H5 &
                  L1 & L2 & L3 & _ & W2 & W3).
  rewrite Ps, Himp in H4.
  pose proof H2 as K2. apply initializeMemory_spec in K2.
  destruct K2 as (_ & _ & G & HG & _ & K2).
  assert (S1 : m_solver t1 = m_solver t0) by exact (f_equal (@m_solver D E F) L1).
  rewrite S1, Ps, Himp in K2. destruct K2 as (NR & HNR & Res2 & _).
  assert (R1 : m_numResiduals t1 = m_numResiduals t0)
    by exact (f_equal (@m_numResiduals D E F) L1).
  rewrite R1, HR, Himp in HNR. rewrite dim_of_nat in HNR.
  assert (NR = getNumSpeeds p) by congruence. subst NR.
  pose proof H3 as K3. apply transcribeQdot_spec in K3; [|exact W2].
  cbv zeta in K3. destruct K3 as (_ & C3 & _).
  assert (Wr : wf (residuals (m_constraints t3)))
    by (rewrite C3, Res2; apply MX_zeros_wf).
  assert (Sr : size1 (residuals (m_constraints t3)) = getNumSpeeds p)
    by (rewrite C3, Res2; reflexivity).
  pose proof L3 as Q3. apply layout_fields in Q3.
  destruct Q3 as (P3 & _ & _ & I3 & J3 & N3 & _).
  pose proof L as Q. apply layout_fields in Q.
  destruct Q as (_ & _ & _ & I & J & N & _).
  apply transcribeImplicit_contents in H4; auto; try (rewrite ?I3, ?J3; assumption).
  cbv zeta in H4. rewrite Sr, P3, Pp, I3, J3, N3 in H4.
  apply transcribeDefectsAndPath_spec in H5. destruct H5 as (_ & X5 & R5 & _).
  rewrite X5, R5, I, J, N.
  destruct H4 as ((out & res & zdot & Hev & Ho0 & Ho1 & Gr & Gz) & Hign).
  split.
  - exists out, res, zdot. repeat split; auto.
    rewrite <- Hev. symmetry. now apply evalOnTrajectory_layout.
  - intros HP. destruct (Hign HP) as (out' & res' & zdot' & Hev' & Hp0 & Hp1 & Gr' & Gz').
    exists out', res', zdot'. repeat split; auto.
    rewrite <- Hev'. symmetry. now apply evalOnTrajectory_layout.
Qed.
End ImplicitResiduals.

Section IndexLists.
Context {D E F : Type} {num : Numeric D} {sym : Symbolic D E}.
Context {scheme : Scheme D E F} {collab : Collaborators D E F}.
Implicit Types (t : Transcription D E F).

Lemma filter_seq_sorted (f : nat -> bool) n : forall a,
  StronglySorted lt (filter f (seq a n)).
Proof.
  induction n as [|n IH]; intros a; simpl; [constructor|].
  destruct (f a); [|apply IH].
  constructor; [apply IH|].
  apply Forall_forall. intros j Hj. apply filter_In in Hj. destruct Hj as [Hj _].
  apply in_seq in Hj. lia.
Qed.

Lemma splitIndices_reads (mask : Mat D) range : forall dae ign r,
  splitIndices mask range dae ign = inr r ->
  Forall (fun i => succeeds (entryLin mask i) = true) range.
Proof.
  induction range as [|i rest IH]; intros dae ign r H; simpl in H; [constructor|].
  unbind H as x Hx. constructor; [now rewrite Hx|].
  destruct (deqb x d1); eapply IH; eauto.
Qed.

Lemma create_reads_the_mask (p : Problem D F) (s : Solver D) grid nd t :
  createVariablesAndSetBounds p s grid nd = inr t ->
  Forall (fun i => succeeds (entryLin (createKinematicConstraintIndices (D := D)) i) = true)
    (seq 0 (size2 (createKinematicConstraintIndices (D := D)))).
Proof.
  unfold createVariablesAndSetBounds. intros H.
  unbind H as G HG. unbind H as M HM. unbind H as P HP.
  unbind H as [dae ign] Hs. eapply splitIndices_reads; eauto.
Qed.

(** X13.  The index lists that [createVariablesAndSetBounds] builds: the
    grid indices are 0, ..., G-1; the mesh indices and the interior indices
    are both increasing, an index below the number of columns of the mask
    is a mesh index when the mask reads 1 there and an interior index when
    it reads anything else, and the two lists together have as many entries
    as the mask has columns. *)
Theorem index_lists_partition_the_mask_columns
  (p : Problem D F) (s : Solver D) grid nd t :
  createVariablesAndSetBounds p s grid nd = inr t ->
  let mask := createKinematicConstraintIndices (D := D) in
  m_gridIndices t = seq 0 (numel grid) /\
  StronglySorted lt (m_daeIndices t) /\
  StronglySorted lt (m_daeIndicesIgnoringConstraints t) /\
  (forall j, In j (m_daeIndices t) <->
             j < size2 mask /\ exists x, entryLin mask j = inr x /\ deqb x d1 = true) /\
  (forall j, In j (m_daeIndicesIgnoringConstraints t) <->
             j < size2 mask /\ exists x, entryLin mask j = inr x /\ deqb x d1 = false) /\
  length (m_daeIndices t) + length (m_daeIndicesIgnoringConstraints t) = size2 mask.
Proof.
  intros H. cbv zeta.
  pose proof H as Hr. apply create_reads_the_mask in Hr. rewrite Forall_forall in Hr.
  apply createVariables_spec in H. cbv zeta in H.
  destruct H as (_ & _ & _ & _ & _ & _ & _ & _ & _ & _ & HG & Hd & Hi & _).
  rewrite Hd, Hi.
  split; [exact HG|]. split; [apply filter_seq_sorted|]. split; [apply filter_seq_sorted|].
  split; [|split].
  - intros j. rewrite filter_In, in_seq. unfold isMeshColumn. split.
    + intros [Hj Hm]. split; [lia|].
      destruct (entryLin createKinematicConstraintIndices j) as [e|x]; [discriminate|].
      eauto.
    + intros [Hj (x & Hx & Hm)]. split; [lia|]. now rewrite Hx.
  - intros j. rewrite filter_In, in_seq. unfold isMeshColumn. split.
    + intros [Hj Hm]. split; [lia|].
      assert (Hs : succeeds (entryLin (createKinematicConstraintIndices (D := D)) j) = true)
        by (apply Hr; apply in_seq; lia).
      destruct (entryLin createKinematicConstraintIndices j) as [e|x]; [discriminate|].
      exists x. split; auto. now apply negb_true_iff in Hm.
    + intros [Hj (x & Hx & Hm)]. split; [lia|]. now rewrite Hx, Hm.
  - assert (Hl : forall l : list nat,
               length (filter (isMeshColumn (createKinematicConstraintIndices (D := D))) l) +
               length (filter (fun i => negb (isMeshColumn
                                               (createKinematicConstraintIndices (D := D)) i)) l)
               = length l).
    { intros l. induction l as [|a l IH]; simpl; [reflexivity|].
      destruct (isMeshColumn createKinematicConstraintIndices a); simpl; lia. }
    rewrite Hl. apply length_seq.
Qed.
End IndexLists.

(* ================================================================== *)
(** * Further properties of [solve] *)

Section SolveFacts.
Context {D E F : Type} {num : Numeric D} {sym : Symbolic D E}.
Context {scheme : Scheme D E F} {collab : Collaborators D E F}.
Implicit Types (t : Transcription D E F).

(** X14.  What the adjustment of the slack guess returns: the times, the
    names and every variable but the slacks are those of the guess; a guess
    without slacks is returned as it is; a slack block comes back with its
    rows and with exactly P columns.  Unless P = G, adjusting the adjusted
    guess again changes nothing. *)
Theorem adjusted_guess_has_a_slack_column_per_interior_point
  t (guess guess' : Iterate D) :
  adjustSlackGuess t guess = inr guess' ->
  times guess' = times guess /\
  state_names guess' = state_names guess /\
  control_names guess' = control_names guess /\
  multiplier_names guess' = multiplier_names guess /\
  derivative_names guess' = derivative_names guess /\
  slack_names guess' = slack_names guess /\
  parameter_names guess' = parameter_names guess /\
  (forall k, k <> slacks -> variables guess' k = variables guess k) /\
  match variables guess slacks with
  | None => variables guess' slacks = None
  | Some sl =>
      exists sl', variables guess' slacks = Some sl' /\
                  size1 sl' = size1 sl /\
                  Z.of_nat (size2 sl') = m_numPointsIgnoringConstraints t
  end /\
  (m_numPointsIgnoringConstraints t <> m_numGridPoints t ->
   exists guess'',
     adjustSlackGuess t guess' = inr guess'' /\
     times guess'' = times guess' /\
     forall k, variables guess'' k = variables guess' k).
Proof.
  unfold adjustSlackGuess. intros H.
  destruct (variables guess slacks) as [sl|] eqn:Hsl.
  - unbind H as sl' Hsl'.
    destruct (Z.of_nat (size2 sl') =? m_numPointsIgnoringConstraints t)%Z eqn:HP;
      simpl in H; [|discriminate].
    ret_inv H. subst guess'. simpl.
    apply Z.eqb_eq in HP.
    assert (Hrows : size1 sl' = size1 sl).
    { destruct (Z.of_nat (size2 sl) =? m_numGridPoints t)%Z.
      - unbind Hsl' as G HG. unbind Hsl' as cc Hcc. unfold removeCols in Hsl'.
        destruct (inRange sl cc); [|discriminate].
        ret_inv Hsl'. now subst sl'.
      - ret_inv Hsl'. now subst. }
    repeat split; auto.
    + intros k Hk. unfold vset. destruct k; simpl; auto. congruence.
    + exists sl'. auto.
    + intros Hne. unfold vset at 1. simpl.
      assert (HG : (Z.of_nat (size2 sl') =? m_numGridPoints t)%Z = false)
        by (apply Z.eqb_neq; congruence).
      rewrite HG. simpl. apply Z.eqb_eq in HP. rewrite HP. simpl.
      eexists. split; [reflexivity|]. split; [reflexivity|].
      intros k. unfold setSlacks, vset. simpl. destruct k; reflexivity.
  - ret_inv H. subst guess'. repeat split; auto.
    intros _. exists guess. rewrite Hsl. auto.
Qed.

(** X15.  [print_bounds] throws the CasADi exception of a read out of
    bounds when the values have a row and one of the three tables (lower
    bounds, values, upper bounds) has fewer columns than there are times. *)
Theorem print_bounds_throws_on_a_short_table description names
  (tm values lower upper : Mat D) :
  0 < size1 values ->
  size2 lower < numel tm \/ size2 values < numel tm \/ size2 upper < numel tm ->
  print_bounds description names tm values lower upper = inl outOfBounds.
Proof.
  intros Hrows Hcols. unfold print_bounds.
  fold (boundsRead lower values upper).
  assert (Hr : forall i j e, boundsRead lower values upper i j = inl e -> e = outOfBounds)
    by (intros; eapply boundsRead_fails; eauto).
  assert (Hshort : forall (m : Mat D) i, entry m i (size2 m) = inl outOfBounds).
  { intros m i. unfold entry.
    assert (Hn : nth_error (cols m) (size2 m) = None)
      by (apply nth_error_None; unfold size2; lia).
    now rewrite Hn. }
  assert (Hex : forall ivar, Exists (fun i => succeeds (boundsRead lower values upper ivar i)
                                              = false) (seq 0 (numel tm))).
  { intros ivar. apply Exists_exists.
    destruct Hcols as [Hc|[Hc|Hc]].
    - exists (size2 lower). split; [apply in_seq; lia|].
      unfold boundsRead. now rewrite Hshort.
    - exists (size2 values). split; [apply in_seq; lia|].
      unfold boundsRead. rewrite (Hshort values).
      destruct (entry lower ivar (size2 values)); reflexivity.
    - exists (size2 upper). split; [apply in_seq; lia|].
      unfold boundsRead. rewrite (Hshort upper).
      destruct (entry lower ivar (size2 upper)); [reflexivity|].
      destruct (entry values ivar (size2 upper)); reflexivity. }
  destruct (size1 values) as [|n] eqn:Hn; [lia|].
  rewrite <- cons_seq. simpl.
  destruct (@scanTimes_cases _ _ (boundsRead lower values upper 0) (seq 0 (numel tm))
              (false, false) (Hr 0) (Hex 0)) as [->| ->]; simpl;
    [reflexivity|].
  destruct (@scanVars_violated _ _ (boundsRead lower values upper) (seq 1 n)
              (seq 0 (numel tm)) Hr) as [->| ->]; simpl;
    [reflexivity|].
  unfold boundsTable. simpl.
  rewrite printTimes_fails; auto.
  - apply Hr.
  - intros i e. apply entryLin_fails.
Qed.

(** X16.  On a Transcription whose slack bounds have fewer columns than
    the grid has points, with solutions that hold at least one slack row:
    whenever [solve] returns, the solver has reported success and no report
    was printed. *)
Theorem solve_with_slacks_returns_only_on_success t0 t (guessOrig : Iterate D) l out :
  transcribe t0 = inr t ->
  m_lowerBounds t slacks = Some l -> size2 l < numel (m_grid t) ->
  (forall x vars, expandVariables t x = inr vars ->
                  exists v, vars slacks = Some v /\ 0 < size1 v) ->
  solve t0 guessOrig = inr out ->
  out_report out = None /\
  exists flag, dictAt (stats (out_solution out)) "success" = inr flag /\
               to_bool flag = inr true.
Proof. apply solve_returns_only_on_success. Qed.
End SolveFacts.

(* ================================================================== *)
(** * The width of the name column *)

Lemma max_element_length rest : forall largest,
  String.length (max_element largest rest) =
  list_max (map String.length (largest :: rest)).
Proof.
  induction rest as [|s rest IH]; intros largest; simpl.
  - lia.
  - destruct (String.length largest <? String.length s) eqn:Hc.
    + apply Nat.ltb_lt in Hc. rewrite IH. simpl. lia.
    + apply Nat.ltb_ge in Hc. rewrite IH. simpl. lia.
Qed.

Lemma updateMaxNameLength_spec w names :
  updateMaxNameLength w names =
  match names with
  | [] => w
  | _ => list_max (map String.length names)
  end.
Proof. destruct names as [|s rest]; [reflexivity|]. apply max_element_length. Qed.

(** X17.  The width of the name column.  A call of [updateMaxNameLength]
    with a list that is not empty replaces the width by the length of the
    longest name of this list, whatever the width was.  So the tables of
    the variables are printed with the width of the last list that is not
    empty among the slack, derivative, multiplier, control and state names
    (0 when all are empty), not with the longest of all names; and the
    tables of the time and parameter bounds are printed with the width 12 of
    [initial_time], whatever the parameter names are. *)
Theorem name_width_is_that_of_the_last_list {D} (it : Iterate D) :
  variableNameWidth it =
    match find (fun names => negb (length names =? 0))
            [slack_names it; derivative_names it; multiplier_names it;
             control_names it; state_names it] with
    | Some names => list_max (map String.length names)
    | None => 0
    end /\
  parameterNameWidth it = 12.
Proof.
  split; [|reflexivity].
  unfold variableNameWidth. cbv zeta. rewrite !updateMaxNameLength_spec. simpl.
  destruct (slack_names it); [|reflexivity].
  destruct (derivative_names it); [|reflexivity].
  destruct (multiplier_names it); [|reflexivity].
  destruct (control_names it); [|reflexivity].
  destruct (state_names it); reflexivity.
Qed.

(* ================================================================== *)
(** * The initial guess from the bounds *)

Lemma Var_eqb_eq a b : Var_eqb a b = true <-> a = b.
Proof. split; [destruct a, b; simpl; congruence || discriminate | intros ->; now destruct b]. Qed.

Lemma nth_error_replaceNth {A} (x : A) (l : list A) : forall j k,
  nth_error (replaceNth j x l) k =
  if (j =? k) && (j <? length l) then Some x else nth_error l k.
Proof.
  induction l as [|y l IH]; intros j k; simpl.
  - destruct j, k; simpl; rewrite ?andb_false_r; reflexivity.
  - destruct j, k; simpl; try reflexivity. apply IH.
Qed.

Section EntryWrites.
Context {T : Type}.

Lemma setEntry_spec (m m' : Mat T) i j x :
  setEntry m i j x = inr m' ->
  size1 m' = size1 m /\ size2 m' = size2 m /\
  entry m' i j = inr x /\
  forall i' j', i' <> i \/ j' <> j -> entry m' i' j' = entry m i' j'.
Proof.
  unfold setEntry. intros H.
  destruct (nth_error (cols m) j) as [c|] eqn:Hc; [|discriminate].
  destruct (i <? length c) eqn:Hi; [|discriminate].
  unfold ret in H. inversion H; subst m'. clear H.
  assert (Hj : j < length (cols m)) by (apply nth_error_Some; congruence).
  apply Nat.ltb_lt in Hj as Hjb. apply Nat.ltb_lt in Hi as Hib.
  repeat split.
  - unfold size2. simpl. apply replaceNth_length.
  - unfold entry. simpl. rewrite nth_error_replaceNth, Nat.eqb_refl, Hjb. simpl.
    rewrite nth_error_replaceNth, Nat.eqb_refl, Hi. reflexivity.
  - intros i' j' Hne. unfold entry. simpl. rewrite nth_error_replaceNth.
    destruct (Nat.eqb_spec j j') as [<-|Hjj]; simpl; [|reflexivity].
    rewrite Hjb, Hc. rewrite nth_error_replaceNth.
    destruct (Nat.eqb_spec i i') as [<-|Hii]; simpl; [|reflexivity].
    destruct Hne; congruence.
Qed.
End EntryWrites.

Section GuessFacts.
Context {D E F : Type} {num : Numeric D} {fl : Floating D}.
Context {collab : Collaborators D E F}.
Implicit Types (t : Transcription D E F).

Lemma setToMidpointCols_spec (l u : Mat D) i icols : forall output out,
  NoDup icols ->
  setToMidpointCols l u i icols output = inr out ->
  size1 out = size1 output /\ size2 out = size2 output /\
  (forall j, In j icols ->
             exists lo up, entry l i j = inr lo /\ entry u i j = inr up /\
                           entry out i j = inr (midpoint lo up)) /\
  (forall i' j', i' <> i \/ ~ In j' icols -> entry out i' j' = entry output i' j').
Proof.
  induction icols as [|icol rest IH]; intros output out Hnd H; simpl in H.
  - unfold ret in H. inversion H; subst. repeat split; auto. intros j [].
  - inversion Hnd as [|? ? Hnotin Hnd']; subst.
    unbind H as lo Hlo. unbind H as up Hup. unbind H as o1 Ho1.
    apply setEntry_spec in Ho1. destruct Ho1 as (S1 & S2 & Hat & Hother).
    apply IH in H; auto. destruct H as (R1 & R2 & Hin & Hout).
    repeat split; try congruence.
    + intros j [<-|Hj].
      * exists lo, up. repeat split; auto.
        rewrite Hout by (right; exact Hnotin). exact Hat.
      * now apply Hin.
    + intros i' j' Hne. rewrite Hout.
      * apply Hother. destruct Hne as [Hne|Hne]; [now left|].
        right. intros <-. apply Hne. now left.
      * destruct Hne as [Hne|Hne]; [now left|]. right. intros Hj. apply Hne. now right.
Qed.

Lemma setToMidpointRows_spec (l u : Mat D) icols irows : forall output out,
  NoDup irows -> NoDup icols ->
  setToMidpointRows l u irows icols output = inr out ->
  size1 out = size1 output /\ size2 out = size2 output /\
  (forall i j, In i irows -> In j icols ->
               exists lo up, entry l i j = inr lo /\ entry u i j = inr up /\
                             entry out i j = inr (midpoint lo up)) /\
  (forall i' j', ~ In i' irows \/ ~ In j' icols -> entry out i' j' = entry output i' j').
Proof.
  induction irows as [|irow rest IH]; intros output out Hnr Hnc H; simpl in H.
  - unfold ret in H. inversion H; subst. repeat split; auto. intros i j [].
  - inversion Hnr as [|? ? Hnotin Hnr']; subst.
    unbind H as o1 Ho1. apply setToMidpointCols_spec in Ho1; auto.
    destruct Ho1 as (S1 & S2 & Hin1 & Hout1).
    apply IH in H; auto. destruct H as (R1 & R2 & Hin & Hout).
    repeat split; try congruence.
    + intros i j [<-|Hi] Hj.
      * destruct (Hin1 j Hj) as (lo & up & Hlo & Hup & He).
        exists lo, up. repeat split; auto.
        rewrite Hout by (left; exact Hnotin). exact He.
      * now apply Hin.
    + intros i' j' Hne. rewrite Hout.
      * apply Hout1. destruct Hne as [Hne|Hne]; [|now right].
        left. intros <-. apply Hne. now left.
      * destruct Hne as [Hne|Hne]; [|now right]. left. intros Hi. apply Hne. now right.
Qed.

(** [setToMidpoint] keeps the shape of its output and gives every entry
    the value of its two bounds. *)
Lemma setToMidpoint_spec (output l u out : Mat D) :
  setToMidpoint output l u = inr out ->
  size1 out = size1 output /\ size2 out = size2 output /\
  forall i j, i < size1 output -> j < size2 output ->
              exists lo up, entry l i j = inr lo /\ entry u i j = inr up /\
                            entry out i j = inr (midpoint lo up).
Proof.
  unfold setToMidpoint. intros H.
  apply setToMidpointRows_spec in H; try apply seq_NoDup.
  destruct H as (S1 & S2 & Hin & _). repeat split; auto.
  intros i j Hi Hj. apply Hin; apply in_seq; lia.
Qed.

Lemma vget_vinsertDefault (m : Variables (Mat D)) k' k :
  vget (vinsertDefault m k') k = vget m k.
Proof.
  unfold vget, vinsertDefault. destruct (m k') eqn:Hk'; [reflexivity|].
  unfold vset. destruct (Var_eqb k' k) eqn:He; [|reflexivity].
  apply Var_eqb_eq in He. subst. now rewrite Hk'.
Qed.

Lemma setVariablesToMidpoint_spec t order : forall vars vars',
  NoDup order ->
  setVariablesToMidpoint t order vars = inr vars' ->
  forall k,
    (~ In k order -> vars' k = vars k) /\
    (In k order ->
     match vars k with
     | None => vars' k = None
     | Some output =>
         exists l u out,
           m_lowerBounds t k = Some l /\ m_upperBounds t k = Some u /\
           setToMidpoint output l u = inr out /\ vars' k = Some out
     end).
Proof.
  induction order as [|k0 rest IH]; intros vars vars' Hnd H k; simpl in H.
  - unfold ret in H. inversion H; subst. split; [reflexivity | intros []].
  - inversion Hnd as [|? ? Hnotin Hnd']; subst.
    destruct (vars k0) as [output|] eqn:Hk0.
    + unbind H as l Hl. unbind H as u Hu. unbind H as out Hout.
      apply vat_Some in Hl, Hu.
      destruct (IH _ _ Hnd' H k) as [Hout' Hin']. split.
      * intros Hn. rewrite Hout' by (intros Hr; apply Hn; now right).
        unfold vset. destruct (Var_eqb k0 k) eqn:He; [|reflexivity].
        apply Var_eqb_eq in He. subst. exfalso. apply Hn. now left.
      * intros [<-|Hk].
        -- rewrite Hk0. exists l, u, out. repeat split; auto.
           destruct (IH _ _ Hnd' H k0) as [Hs _]. rewrite Hs by assumption.
           unfold vset. assert (He : Var_eqb k0 k0 = true) by now apply Var_eqb_eq.
           now rewrite He.
        -- specialize (Hin' Hk). unfold vset in Hin'.
           destruct (Var_eqb k0 k) eqn:He.
           ++ apply Var_eqb_eq in He. subst. contradiction.
           ++ exact Hin'.
    + destruct (IH _ _ Hnd' H k) as [Hout' Hin']. split.
      * intros Hn. apply Hout'. intros Hr. apply Hn. now right.
      * intros [<-|Hk]; [|now apply Hin'].
        rewrite Hk0. destruct (IH _ _ Hnd' H k0) as [Hs _].
        rewrite Hs by assumption. exact Hk0.
Qed.

(** X18.  The guess that [createInitialGuessFromBounds] returns, for any
    order in which the map of the variables yields each of its keys once.
    A variable has a value exactly when it has a table of lower bounds; it
    then has a table of upper bounds too, its value has the shape of the
    lower bounds, and every entry is the midpoint of its two bounds when
    both are finite, the finite bound when one is infinite, and 0 when both
    are infinite.  The names are those of the iterate of the problem, and
    the times are made from the initial and final time of the guess. *)
Theorem initial_guess_is_the_midpoint_of_the_bounds (order : list Var) t (g : Iterate D) :
  NoDup order -> (forall k, In k order) ->
  createInitialGuessFromBounds order t = inr g ->
  (forall k,
     match m_lowerBounds t k with
     | None => variables g k = None
     | Some l =>
         exists u out,
           m_upperBounds t k = Some u /\ variables g k = Some out /\
           size1 out = size1 l /\ size2 out = size2 l /\
           forall i j, i < size1 l -> j < size2 l ->
                       exists lo up,
                         entry l i j = inr lo /\ entry u i j = inr up /\
                         entry out i j = inr (midpoint lo up)
     end) /\
  createTimesDM (m_grid t) (vget (variables g) initial_time)
    (vget (variables g) final_time) = inr (times g) /\
  state_names g = state_names (createIterate (m_problem t)) /\
  control_names g = control_names (createIterate (m_problem t)) /\
  multiplier_names g = multiplier_names (createIterate (m_problem t)) /\
  derivative_names g = derivative_names (createIterate (m_problem t)) /\
  slack_names g = slack_names (createIterate (m_problem t)) /\
  parameter_names g = parameter_names (createIterate (m_problem t)).
Proof.
  intros Hnd Hall H. unfold createInitialGuessFromBounds in H. cbv zeta in H.
  unbind H as vars Hvars. unbind H as tms Htms.
  rewrite !vget_vinsertDefault in Htms.
  unfold createTimesDM in Htms. unbind Htms as a Ha. unbind Htms as b Hb.
  assert (Hi : vinsertDefault vars initial_time = vars).
  { unfold vinsertDefault. destruct (vars initial_time) eqn:Hk; [reflexivity|].
    unfold vget in Ha. rewrite Hk in Ha. discriminate. }
  assert (Hf : vinsertDefault vars final_time = vars).
  { unfold vinsertDefault. destruct (vars final_time) eqn:Hk; [reflexivity|].
    unfold vget in Hb. rewrite Hk in Hb. discriminate. }
  rewrite Hi, Hf in H.
  assert (Hcreate : createTimesDM (m_grid t) (vget vars initial_time) (vget vars final_time)
                    = inr tms).
  { unfold createTimesDM. now rewrite Ha, Hb. }
  ret_inv H. subst g. simpl.
  repeat split; auto.
  intros k.
  destruct (setVariablesToMidpoint_spec _ _ Hnd Hvars k) as [_ Hin].
  specialize (Hin (Hall k)).
  destruct (m_lowerBounds t k) as [l|] eqn:Hl; [|exact Hin].
  destruct Hin as (l' & u & out & Hl' & Hu & Hm & Hv).
  inversion Hl'; subst l'.
  apply setToMidpoint_spec in Hm. destruct Hm as (S1 & S2 & He).
  exists u, out. repeat split; auto.
Qed.
End GuessFacts.

(* ================================================================== *)
(** * The properties on the Hermite-Simpson instance *)

Ltac run := vm_compute; reflexivity.

(** ** C8 *)

(** C8 on the instance: 4 defects on 4 intervals, 1 residual on 9 grid
    points, 1 kinematic equation and a path constraint of size 2 on 5 mesh
    points make 40 constraints. *)
Lemma numConstraints_formula_witness :
  m_numMeshIntervals stateImplicit = 4%Z /\
  m_numResiduals stateImplicit = 1%Z /\
  m_numConstraints stateImplicit = (4 * 4 + 1 * 9 + 1 * 5 + (2 * 5 + 0))%Z /\
  forall it c r,
    printConstraintValues stateImplicit it c = inr r ->
    rp_numConstraints r = m_numConstraints stateImplicit.
Proof.
  destruct (numConstraints_formula (collab := collabZ false) (problemHS true)
              (solverHS true true) gridHS 4 (t := stateImplicit))
    as (HI & HR & _ & HC & HP); [run|].
  split; [exact HI|]. split; [exact HR|]. split; [|exact HP].
  apply HC. vm_compute. split; discriminate.
Defined.

(** With 2^30 defects per grid point the exact number is 2^32 + 24; the
    32-bit products and sums leave 24. *)
Example numConstraints_wraps_at_large_counts :
  exists t,
    createVariablesAndSetBounds (collab := collabZ false) (problemHS true)
      (solverHS true true) gridHS (2 ^ 30) = inr t /\
    m_numConstraints t = 24%Z /\
    (2 ^ 30 * 4 + 1 * 9 + 1 * 5 + (2 * 5 + 0) = 2 ^ 32 + 24)%Z.
Proof.
  eexists. split; [vm_compute; reflexivity|]. split; reflexivity.
Qed.

(** ** C9 *)

Lemma qdot_at_mesh_points_is_speeds_witness :
  exists sm u,
    m_vars transcribedImplicit states = Some sm /\
    getSub sm 1 2 [0; 2; 4; 6; 8] = inr u /\
    getSub (m_xdot transcribedImplicit) 0 1 [0; 2; 4; 6; 8] = inr u.
Proof.
  apply (qdot_at_mesh_points_is_speeds (collab := collabZ false) (problemHS true)
           (solverHS true true) gridHS 4 (t0 := stateImplicit) (t := transcribedImplicit));
    run.
Defined.

(** ** C2 *)


(** ** C3 *)

Lemma dynamics_rows_of_xdot_witness :
  (m_numResiduals transcribedImplicit = 1%Z /\
   (exists w, m_vars transcribedImplicit derivatives = Some w /\
              getSub (m_xdot transcribedImplicit) 1 2 (seq 0 9) = inr w) /\
   hasShape (residuals (m_constraints transcribedImplicit)) 1 9 = true /\
   residuals (m_constraintsLowerBounds transcribedImplicit) = DM_zeros 1 9 /\
   residuals (m_constraintsUpperBounds transcribedImplicit) = DM_zeros 1 9) /\
  (m_numResiduals transcribedExplicit = 0%Z /\
   (exists out udot zdot,
      evalOnTrajectory (collab := collabZ false) transcribedExplicit fnMultibodySystem
        dynamicsInputs ref_daeIndices = inr out /\
      vecAt out 0 = inr udot /\ vecAt out 1 = inr zdot /\
      getSub (m_xdot transcribedExplicit) 1 2 [0; 2; 4; 6; 8] = inr udot /\
      getSub (m_xdot transcribedExplicit) 2 2 [0; 2; 4; 6; 8] = inr zdot) /\
   (exists out udot zdot,
      evalOnTrajectory (collab := collabZ false) transcribedExplicit
        fnMultibodySystemIgnoringConstraints dynamicsInputs
        ref_daeIndicesIgnoringConstraints = inr out /\
      vecAt out 0 = inr udot /\ vecAt out 1 = inr zdot /\
      getSub (m_xdot transcribedExplicit) 1 2 [1; 3; 5; 7] = inr udot /\
      getSub (m_xdot transcribedExplicit) 2 2 [1; 3; 5; 7] = inr zdot)).
Proof.
  split.
  - apply (dynamics_rows_of_xdot (collab := collabZ false) (problemHS true)
             (solverHS true true) gridHS 4 (t0 := stateImplicit) (t := transcribedImplicit));
      run.
  - destruct (dynamics_rows_of_xdot (collab := collabZ false) (problemHS false)
                (solverHS false false) gridHS 4
                (t0 := stateExplicit) (t := transcribedExplicit))
      as (Hn & Hdae & Hiic);
      [run | run |].
    split; [exact Hn|]. split; [exact Hdae|]. apply Hiic. run.
Defined.

(** ** C10 *)

(** The line of the control table of the report carries the state name
    [q], not the control name [tau]. *)
Lemma bound_tables_are_labelled_with_state_names_witness :
  printConstraintValues stateNoSlacks guessNoSlacks constraintsHS = inr reportNoSlacks /\
  control_names guessNoSlacks = ["tau"] /\
  map (fun tbl => (bt_description tbl, map (@br_label Z) (bt_rows tbl)))
      (firstn 2 (rp_variableBounds reportNoSlacks)) =
    [("State bounds", []); ("Control bounds", [Some "q"])] /\
  map (@bt_description Z) (rp_variableBounds reportNoSlacks) =
    ["State bounds"; "Control bounds"; "Multiplier bounds"; "Derivative bounds";
     "Slack bounds"] /\
  forall tbl row,
    In tbl (rp_variableBounds reportNoSlacks) -> In row (bt_rows tbl) ->
    br_label row = nth_error (state_names guessNoSlacks) (br_var row).
Proof.
  split; [run|]. split; [run|]. split; [run|].
  apply (bound_tables_are_labelled_with_state_names (E := Z) (F := FunctionZ)
           stateNoSlacks guessNoSlacks constraintsHS (r := reportNoSlacks)).
  run.
Defined.

(** ** C4 *)

(** A slack block of nine columns keeps its columns 1, 3, 5, 7 and
    [solve] goes on with them; a block of four columns stays as it is; a
    block of five columns makes [solve] throw.  In the run of [solve] that
    returns, the initial point of the NLP solver ends with the four slack
    values 71, 73, 75, 77 that were kept. *)
Lemma slack_guess_is_reshaped_witness :
  (exists sl',
     adjustSlackGuess transcribedImplicit (resampledHS 9) =
       inr (setSlacks (resampledHS 9) sl') /\
     cols sl' = [[71]; [73]; [75]; [77]]%Z /\
     solve (collab := collabZ true) stateImplicit (guessHS 9) =
       solveNlp (collab := collabZ true) transcribedImplicit
         (setSlacks (resampledHS 9) sl')) /\
  (adjustSlackGuess transcribedImplicit (resampledHS 4) =
     inr (setSlacks (resampledHS 4) (rowZ 70 4)) /\
   solve (collab := collabZ true) stateImplicit (guessHS 4) =
     solveNlp (collab := collabZ true) transcribedImplicit
       (setSlacks (resampledHS 4) (rowZ 70 4))) /\
  solve (collab := collabZ false) stateImplicit (guessHS 5) =
    inl (OpenSimException
           "Expected slack variables to be length 4, but they are length 5.") /\
  (exists options input nlpResult,
     nlpsol (Collaborators := collabZ true) "nlp"
       (getOptimSolver (m_solver transcribedImplicit))
       (flattenVariablesMX (Collaborators := collabZ true) (m_vars transcribedImplicit))
       (m_objective transcribedImplicit)
       (flattenConstraintsMX (Collaborators := collabZ true)
          (m_constraints transcribedImplicit)) options input = inr nlpResult /\
     skipn 48 (entries (x0 input)) = [71; 73; 75; 77]%Z /\
     stats (out_solution solvedHS) = res_stats nlpResult).
Proof.
  split; [|split; [|split]].
  - destruct (slack_guess_is_reshaped (collab := collabZ true) (problemHS true)
                (solverHS true true) gridHS 4 (t0 := stateImplicit)
                (t := transcribedImplicit) (guessHS 9) (guess := resampledHS 9)
                (gi := ofScalar 0%Z) (gf := ofScalar 1%Z) (guessTimes := guessTimesHS)
                (sl := rowZ 70 9))
      as (_ & H & _); [run .. |].
    destruct H as (sl' & Ha & _ & Hc & _ & Hs); [run|].
    exists sl'. split; [exact Ha|]. split; [rewrite Hc; run | exact Hs].
  - destruct (slack_guess_is_reshaped (collab := collabZ true) (problemHS true)
                (solverHS true true) gridHS 4 (t0 := stateImplicit)
                (t := transcribedImplicit) (guessHS 4) (guess := resampledHS 4)
                (gi := ofScalar 0%Z) (gf := ofScalar 1%Z) (guessTimes := guessTimesHS)
                (sl := rowZ 70 4))
      as (_ & _ & H & _); [run .. |].
    destruct H as (Ha & _ & Hs); [vm_compute; discriminate | run |].
    split; [exact Ha | exact Hs].
  - destruct (slack_guess_is_reshaped (collab := collabZ false) (problemHS true)
                (solverHS true true) gridHS 4 (t0 := stateImplicit)
                (t := transcribedImplicit) (guessHS 5) (guess := resampledHS 5)
                (gi := ofScalar 0%Z) (gf := ofScalar 1%Z) (guessTimes := guessTimesHS)
                (sl := rowZ 70 5))
      as (_ & _ & _ & H & _); [run .. |].
    apply H; vm_compute; discriminate.
  - destruct (slack_guess_is_reshaped (collab := collabZ true) (problemHS true)
                (solverHS true true) gridHS 4 (t0 := stateImplicit)
                (t := transcribedImplicit) (guessHS 9) (guess := resampledHS 9)
                (gi := ofScalar 0%Z) (gf := ofScalar 1%Z) (guessTimes := guessTimesHS)
                (sl := rowZ 70 9))
      as (_ & _ & _ & _ & H); [run .. |].
    destruct (H solvedHS) as (guess' & options & input & nlpResult & Ha & Hn & Hx & Hs);
      [run|].
    exists options, input, nlpResult. split; [exact Hn|]. split; [|exact Hs].
    rewrite Hx. vm_compute in Ha. injection Ha as <-. run.
Defined.

(** ** C1 *)

(** The integrand of the instance is 0 at every grid point, the endpoint
    cost is 0 and every multiplier is 1, with weight 1, duration 2 and the
    Simpson coefficients 1, 4, 2, 4, 2, 4, 2, 4, 1: the formula of the spec
    gives 2 * 0 + 0 + 1 * 9 = 9, [setObjective] builds
    2 * (1 + 4 + 2 + 4 + 2 + 4 + 2 + 4 + 1) + 0 = 48. *)
Lemma objective_differs_from_spec_formula :
  exists out integrand phi,
    evalOnTrajectory (collab := collabZ false) stateImplicit fnIntegrand
      [states; controls; multipliers; derivatives] ref_gridIndices = inr out /\
    vecAt out 0 = inr integrand /\
    endpointCostOf (collab := collabZ false) stateImplicit = inr phi /\
    minimizesMultipliers stateImplicit = true /\
    setObjective (collab := collabZ false) stateImplicit = inr objectiveImplicit /\
    m_objective objectiveImplicit = 48%Z /\
    specObjective stateImplicit integrand phi = 9%Z.
Proof.
  eexists. eexists. eexists.
  split; [run|]. split; [run|]. split; [run|]. split; [run|].
  split; [run|]. split; run.
Qed.

Lemma objective_regularizes_inside_quadrature_witness :
  exists out integrand phi,
    evalOnTrajectory (collab := collabZ false) stateImplicit fnIntegrand
      [states; controls; multipliers; derivatives] ref_gridIndices = inr out /\
    vecAt out 0 = inr integrand /\
    endpointCostOf (collab := collabZ false) stateImplicit = inr phi /\
    m_objective objectiveImplicit = codeObjective stateImplicit integrand phi.
Proof.
  apply (objective_regularizes_inside_quadrature (collab := collabZ false)
           stateImplicit (t' := objectiveImplicit)); run.
Defined.

(** ** C5 *)

(** An index vector with the value of the grid indices that is not the
    member [m_gridIndices]: [evalOnTrajectory] raises the internal error,
    where it succeeds on the member. *)
Lemma value_equal_indices_raise_internal_error :
  deref stateImplicit (ref_other (seq 0 9)) = deref stateImplicit ref_gridIndices /\
  succeeds (evalOnTrajectory (collab := collabZ false) stateImplicit fnIntegrand
              dynamicsInputs ref_gridIndices) = true /\
  evalOnTrajectory (collab := collabZ false) stateImplicit fnIntegrand
    dynamicsInputs (ref_other (seq 0 9)) = inl internalError.
Proof. split; [run|]. split; run. Qed.

(** ** C6 *)

(** C6, where the code differs.  On the row (-5, 1) [calcL1Norm] returns
    the value 1 and the index 1: the first entry enters the running maximum
    with its sign, and the later entries are compared with their sign.  The
    largest absolute value of the row is 5, at index 0.  On the row (-5)
    alone it returns -5.  In the failure report, the defect row
    (0, -5, 1, 0) of the state [q] is printed with the value 1 and the time
    of index 2, where the largest absolute value is 5, at index 1. *)
Theorem calcL1Norm_is_not_the_largest_absolute_value :
  calcL1Norm (mkMat 1 [[-5]; [1]]%Z) = inr (1%Z, 1) /\
  (maxAbs [-5; 1]%Z, argmaxAbs [-5; 1]%Z) = (5%Z, 0) /\
  calcL1Norm (mkMat 1 [[-5]]%Z) = inr ((-5)%Z, 0) /\
  getSub (defects constraintsHS) 0 1 (seq 0 4) = inr (mkMat 1 [[0]; [-5]; [1]; [0]]%Z) /\
  printConstraintValues stateNoSlacks guessNoSlacks constraintsHS = inr reportNoSlacks /\
  map (fun n => (nr_label n, nr_L1 n, nr_time_of_max n))
      (firstn 1 (rp_defects reportNoSlacks)) = [(Some "q", 1%Z, 2%Z)] /\
  (maxAbs [0; -5; 1; 0]%Z, argmaxAbs [0; -5; 1; 0]%Z) = (5%Z, 1).
Proof.
  split; [run|]. split; [run|]. split; [run|]. split; [run|]. split; [run|].
  split; run.
Qed.

(** ** C7 *)

(** C7, where the code differs.  The problem has one slack variable, so the
    slack tables have P = 4 columns, and the solver reports a failure:
    [printConstraintValues] reads the slack tables at the G = 9 times of
    the iterate, and the exception of the read leaves [solve].  On the same
    input with a solver that reports success [solve] returns; on the
    problem without slack variables [solve] returns the solution of the
    failed solver, with [success] false, and the report. *)
Theorem solve_throws_on_solver_failure_with_slacks :
  solve (collab := collabZ false) stateImplicit (guessHS 9) = inl outOfBounds /\
  succeeds (solve (collab := collabZ true) stateImplicit (guessHS 9)) = true /\
  exists out report,
    solve (collab := collabZ false) stateNoSlacks guessNoSlacks = inr out /\
    dictAt (stats (out_solution out)) "success" = inr (GBool false) /\
    out_report out = Some report.
Proof.
  split; [run|]. split; [run|].
  eexists. eexists. split; [run|]. split; run.
Qed.

(* ================================================================== *)
(** * The further properties on the instance *)

Lemma calcL1Norm_returns_an_index_of_the_vector_witness :
  exists m k x,
    calcL1Norm (mkMat 1 [[-5]; [1]]%Z) = inr (m, k) /\
    k < numel (mkMat 1 [[-5]; [1]]%Z) /\
    entryLin (mkMat 1 [[-5]; [1]]%Z) k = inr x /\
    m = (if k =? 0 then x else dabs x).
Proof.
  apply (calcL1Norm_returns_an_index_of_the_vector (v := mkMat 1 [[-5]; [1]]%Z)).
  - repeat constructor.
  - vm_compute. lia.
Defined.

Lemma calcL1Norm_is_right_without_negative_entries_witness :
  exists m k,
    calcL1Norm (mkMat 1 [[1]; [3]; [3]; [2]]%Z) = inr (m, k) /\
    entryLin (mkMat 1 [[1]; [3]; [3]; [2]]%Z) k = inr m /\
    (forall i x, entryLin (mkMat 1 [[1]; [3]; [3]; [2]]%Z) i = inr x -> dltb m x = false) /\
    (forall i x, i < k -> entryLin (mkMat 1 [[1]; [3]; [3]; [2]]%Z) i = inr x ->
                 dltb x m = true).
Proof.
  apply (calcL1Norm_is_right_without_negative_entries (D := Z)).
  - intros a. apply Z.ltb_irrefl.
  - intros a b H. simpl in *. apply Z.ltb_lt in H. apply Z.ltb_ge. lia.
  - intros a b c H1 H2. simpl in *.
    apply Z.ltb_lt in H1. apply Z.ltb_ge in H2. apply Z.ltb_lt. lia.
  - repeat constructor.
  - vm_compute. lia.
  - intros x Hx. simpl in Hx.
    destruct Hx as [<-|[<-|[<-|[<-|[]]]]]; reflexivity.
Defined.

Lemma print_bounds_prints_every_active_bound_witness :
  bt_description rowTable = "Control bounds" /\
  bt_rows rowTable = boundLines ["tau"] twoTimes rowValues rowLower rowUpper /\
  bt_summary rowTable = summaryOfLines (bt_rows rowTable).
Proof.
  apply (print_bounds_prints_every_active_bound "Control bounds" ["tau"]
           twoTimes rowValues rowLower rowUpper (tbl := rowTable)).
  run.
Defined.

Lemma printParameterBounds_prints_every_active_bound_witness :
  bt_description timeTable = "Time bounds" /\
  bt_rows timeTable = parameterLines time_names timeValuesW timeLowerW timeUpperW /\
  bt_summary timeTable = summaryOfLines (bt_rows timeTable).
Proof.
  apply (printParameterBounds_prints_every_active_bound "Time bounds" time_names
           timeValuesW timeLowerW timeUpperW (tbl := timeTable)).
  run.
Defined.

Lemma print_bounds_returns_on_full_tables_witness :
  exists tbl,
    print_bounds "Control bounds" ["tau"] twoTimes rowValues rowLower rowUpper = inr tbl /\
    Forall (fun row => exists name, nth_error ["tau"] (br_var row) = Some name /\
                                    br_label row = Some name) (bt_rows tbl).
Proof.
  apply print_bounds_returns_on_full_tables;
    try (repeat constructor); vm_compute; lia.
Defined.

Lemma print_bounds_throws_on_a_short_table_witness :
  print_bounds "Slack bounds" ["gamma"] twoTimes rowValues rowLower (mkMat 1 [[0%Z]])
  = inl outOfBounds.
Proof.
  apply print_bounds_throws_on_a_short_table; vm_compute; [lia|].
  right. right. lia.
Defined.

Lemma report_has_one_line_per_constraint_row_witness :
  map (@nr_label Z) (rp_defects reportNoSlacks) = map Some (state_names guessNoSlacks) /\
  Z.of_nat (length (rp_kinematicValues reportNoSlacks)) = m_numMeshPoints stateNoSlacks /\
  (rp_path reportNoSlacks = None <->
   getPathConstraintInfos (m_problem stateNoSlacks) = []).
Proof.
  destruct (report_has_one_line_per_constraint_row stateNoSlacks guessNoSlacks
              constraintsHS (r := reportNoSlacks))
    as (_ & Hd & _ & Hk & _ & Hp & _); [run|].
  split; [exact Hd|]. split; [exact Hk | exact Hp].
Defined.

Lemma path_values_are_read_by_linear_index_witness :
  exists rows vals,
    rp_path reportNoSlacks = Some (rows, vals) /\
    forall imesh tm vs,
      nth_error vals imesh = Some (tm, vs) ->
      entryLin (times guessNoSlacks) imesh = inr tm /\
      forall ipc x,
        nth_error vs ipc = Some x ->
        exists block,
          nth_error (path constraintsHS) ipc = Some block /\
          entryLin block imesh = inr x /\
          (wf block -> 0 < size1 block ->
           entry block (imesh mod size1 block) (imesh / size1 block) = inr x).
Proof.
  eexists. eexists. split; [vm_compute; reflexivity|].
  eapply (path_values_are_read_by_linear_index stateNoSlacks guessNoSlacks
            constraintsHS (r := reportNoSlacks)); run.
Defined.

Lemma transcribe_keeps_the_variable_layout_witness :
  m_vars transcribedImplicit = m_vars stateImplicit /\
  m_daeIndices transcribedImplicit = m_daeIndices stateImplicit /\
  m_lowerBounds transcribedImplicit = m_lowerBounds stateImplicit /\
  m_upperBounds transcribedImplicit = m_upperBounds stateImplicit.
Proof.
  destruct (transcribe_keeps_the_variable_layout (collab := collabZ false)
              stateImplicit (t := transcribedImplicit))
    as (_ & _ & _ & _ & _ & _ & _ & _ & _ & _ & Hv & _ & _ & _ & _ & _ & _ & _ &
        Hd & _ & Hl & Hu); [run|].
  split; [exact Hv|]. split; [exact Hd|]. split; [exact Hl | exact Hu].
Defined.

Lemma transcribe_sets_the_constraint_bounds_witness :
  exists Nd I M,
    Z.of_nat Nd = m_numDefectsPerGridPoint stateImplicit /\
    Z.of_nat I = m_numMeshIntervals stateImplicit /\
    Z.of_nat M = m_numMeshPoints stateImplicit /\
    defects (m_constraintsLowerBounds transcribedImplicit) = DM_zeros Nd I /\
    defects (m_constraintsUpperBounds transcribedImplicit) = DM_zeros Nd I /\
    kinematic (m_constraintsLowerBounds transcribedImplicit) =
      fill (lower (getKinematicConstraintBounds (m_problem stateImplicit)))
        (getNumKinematicConstraintEquations (m_problem stateImplicit)) M /\
    kinematic (m_constraintsUpperBounds transcribedImplicit) =
      fill (upper (getKinematicConstraintBounds (m_problem stateImplicit)))
        (getNumKinematicConstraintEquations (m_problem stateImplicit)) M /\
    path (m_constraintsLowerBounds transcribedImplicit) =
      map (fun info => repmatCols (lowerBounds info) M)
        (getPathConstraintInfos (m_problem stateImplicit)) /\
    path (m_constraintsUpperBounds transcribedImplicit) =
      map (fun info => repmatCols (upperBounds info) M)
        (getPathConstraintInfos (m_problem stateImplicit)).
Proof.
  apply (transcribe_sets_the_constraint_bounds (collab := collabZ false)
           stateImplicit (t := transcribedImplicit)).
  run.
Defined.

Lemma transcribe_fills_the_constraint_blocks_witness :
  (exists out,
     evalOnTrajectory (collab := collabZ false) stateImplicit
       fnImplicitMultibodySystem dynamicsInputs ref_daeIndices = inr out /\
     vecAt out 2 = inr (kinematic (m_constraints transcribedImplicit))) /\
  Forall2 (fun info block =>
             exists out,
               evalOnTrajectory (collab := collabZ false) stateImplicit
                 (pc_function info) dynamicsInputs ref_daeIndices = inr out /\
               vecAt out 0 = inr block)
    (getPathConstraintInfos (m_problem stateImplicit))
    (path (m_constraints transcribedImplicit)).
Proof.
  destruct (transcribe_fills_the_constraint_blocks (collab := collabZ false)
              stateImplicit (t := transcribedImplicit)) as (Hk & Hp & _); [run|].
  split; [exact Hk | exact Hp].
Defined.

Lemma transcribe_refuses_differing_coordinates_and_speeds_witness :
  transcribe (collab := collabZ false) stateQuaternion
    = inl (OpenSimException quaternionMessage) /\
  forall guess, solve (collab := collabZ false) stateQuaternion guess
                = inl (OpenSimException quaternionMessage).
Proof.
  apply (transcribe_refuses_differing_coordinates_and_speeds (collab := collabZ false)
           stateQuaternion (t1 := objectiveQuaternion)).
  - run.
  - vm_compute. discriminate.
Defined.

Lemma implicit_residuals_come_from_the_implicit_systems_witness :
  (exists out res zdot,
     evalOnTrajectory (collab := collabZ false) stateImplicit fnImplicitMultibodySystem
       dynamicsInputs ref_daeIndices = inr out /\
     vecAt out 0 = inr res /\ vecAt out 1 = inr zdot /\
     getSub (residuals (m_constraints transcribedImplicit)) 0 1 [0; 2; 4; 6; 8] = inr res /\
     getSub (m_xdot transcribedImplicit) 2 2 [0; 2; 4; 6; 8] = inr zdot) /\
  (exists out res zdot,
     evalOnTrajectory (collab := collabZ false) stateImplicit
       fnImplicitMultibodySystemIgnoringConstraints dynamicsInputs
       ref_daeIndicesIgnoringConstraints = inr out /\
     vecAt out 0 = inr res /\ vecAt out 1 = inr zdot /\
     getSub (residuals (m_constraints transcribedImplicit)) 0 1 [1; 3; 5; 7] = inr res /\
     getSub (m_xdot transcribedImplicit) 2 2 [1; 3; 5; 7] = inr zdot).
Proof.
  destruct (implicit_residuals_come_from_the_implicit_systems (collab := collabZ false)
              (problemHS true) (solverHS true true) gridHS 4
              (t0 := stateImplicit) (t := transcribedImplicit)) as (Hd & Hi);
    [run | run | reflexivity |].
  split; [exact Hd|]. apply Hi. run.
Defined.

Lemma index_lists_partition_the_mask_columns_witness :
  m_gridIndices stateImplicit = seq 0 (numel gridHS) /\
  StronglySorted lt (m_daeIndices stateImplicit) /\
  StronglySorted lt (m_daeIndicesIgnoringConstraints stateImplicit) /\
  length (m_daeIndices stateImplicit) +
    length (m_daeIndicesIgnoringConstraints stateImplicit) = 9.
Proof.
  destruct (index_lists_partition_the_mask_columns (collab := collabZ false)
              (problemHS true) (solverHS true true) gridHS 4 (t := stateImplicit))
    as (Hg & Hd & Hi & _ & _ & Hl); [run|].
  split; [exact Hg|]. split; [exact Hd|]. split; [exact Hi | exact Hl].
Defined.

Lemma adjusted_guess_has_a_slack_column_per_interior_point_witness :
  times adjustedHS = times (resampledHS 9) /\
  (exists sl', variables adjustedHS slacks = Some sl' /\
               size1 sl' = 1 /\ Z.of_nat (size2 sl') = 4%Z) /\
  exists guess'',
    adjustSlackGuess transcribedImplicit adjustedHS = inr guess'' /\
    times guess'' = times adjustedHS /\
    forall k, variables guess'' k = variables adjustedHS k.
Proof.
  destruct (adjusted_guess_has_a_slack_column_per_interior_point transcribedImplicit
              (resampledHS 9) (guess' := adjustedHS))
    as (Ht & _ & _ & _ & _ & _ & _ & _ & Hs & Hi); [run|].
  split; [exact Ht|]. split; [exact Hs|]. apply Hi. vm_compute. discriminate.
Defined.

Lemma solve_with_slacks_returns_only_on_success_witness :
  out_report solvedHS = None /\
  exists flag, dictAt (stats (out_solution solvedHS)) "success" = inr flag /\
               to_bool flag = inr true.
Proof.
  apply (solve_with_slacks_returns_only_on_success (collab := collabZ true)
           stateImplicit (t := transcribedImplicit) (guessHS 9)
           (l := mkMat 1 [[-1]; [-1]; [-1]; [-1]]%Z)).
  - run.
  - run.
  - vm_compute. lia.
  - intros x vars Hx. unfold expandVariables in Hx. simpl in Hx.
    unfold ret in Hx. inversion Hx; subst vars.
    eexists. split; [vm_compute; reflexivity | vm_compute; lia].
  - run.
Defined.

Lemma initial_guess_is_the_midpoint_of_the_bounds_witness :
  (exists u out,
     m_upperBounds stateImplicit final_time = Some u /\
     variables guessFromBoundsHS final_time = Some out /\
     size1 out = 1 /\ size2 out = 1 /\
     forall i j, i < 1 -> j < 1 ->
                 exists lo up,
                   entry (mkMat 1 [[1%Z]]) i j = inr lo /\ entry u i j = inr up /\
                   entry out i j = inr (midpoint lo up)) /\
  variables guessFromBoundsHS multibody_states = None /\
  state_names guessFromBoundsHS = ["q"; "u"].
Proof.
  destruct (initial_guess_is_the_midpoint_of_the_bounds (collab := collabZ false)
              (order := allVars) stateImplicit (g := guessFromBoundsHS))
    as (Hv & _ & Hn & _).
  - repeat constructor; simpl; intuition discriminate.
  - intros k. destruct k; simpl; tauto.
  - run.
  - split; [exact (Hv final_time)|]. split; [exact (Hv multibody_states) | exact Hn].
Defined.
